(** * Route-graph ordering, timeline estimation and pin clustering

    A shallow embedding of the three client-side algorithms of the
    travel-advisory demo:

    - [reorderNodes] (SmartRoute.tsx): Kahn's algorithm with a
      restart-from-first-unvisited fallback;
    - [parseDurationToMinutes], [formatTime] and [nodeTimeline]
      (SmartRoute.tsx): the arrival/departure clock of every stop;
    - [mapItems] (SafetyMap.tsx): greedy clustering of map pins.

    JavaScript [Map]s are modelled as [gmap], the [Set] of visited ids as
    [gset], arrays as lists.  Node ids are integers ([Z]).

    Coordinates are JavaScript numbers, that is IEEE 754 binary64
    values: they are modelled by the primitive floats of the system,
    whose operations are the binary64 operations with rounding to
    nearest, ties to even.

    The clock of the timeline is modelled by exact rationals ([Q]).  The
    source computes it in binary64; the two agree as long as every value
    is a whole number of minutes up to 2^53 - 1, which the statements
    that depend on the digits of a clock text assume. *)

From Stdlib Require Import PrimFloat.
From Stdlib Require Import ZArith QArith Qround String Ascii List Lia Lqa DecimalString.
From stdpp Require Import gmap list relations.

Close Scope Q_scope.
Local Open Scope Z_scope.

(** ** Data model (types.ts) *)

Inductive NodeType := FOOD | SCENERY | HOTEL | OTHER.

Inductive TransportMode := WALK | TAXI | BUS | SUBWAY.

(** [RouteNode]: the fields [id], [name], [description], [type] and the
    optional [estimatedStay] of the source interface. *)
Record RouteNode := mkNode {
  node_id : Z;
  node_name : string;
  node_description : string;
  node_type : NodeType;
  estimatedStay : option string
}.

(** [RouteEdge]: the fields [from], [to], [transportMode], [duration],
    [distance] and the optional [details] of the source interface. *)
Record RouteEdge := mkEdge {
  edge_from : Z;
  edge_to : Z;
  transportMode : TransportMode;
  duration : string;
  distance : string;
  details : option string
}.

Record RoutePlan := mkPlan {
  title : string;
  nodes : list RouteNode;
  edges : list RouteEdge
}.

(** ** Graph Orderer: [reorderNodes] *)

(** [new Map(originalNodes.map(n => [n.id, n]))]: later entries overwrite
    earlier ones. *)
Definition nodeById (originalNodes : list RouteNode) : gmap Z RouteNode :=
  fold_left (fun m n => <[node_id n := n]> m) originalNodes ∅.

(** [x || 0] on an optional number. *)
Definition or0 (x : option Z) : Z := default 0 x.

(** [originalNodes.forEach(n => inDegree.set(n.id, 0))]. *)
Definition initInDegree (originalNodes : list RouteNode) : gmap Z Z :=
  fold_left (fun m n => <[node_id n := 0]> m) originalNodes ∅.

(** One round of [edges.forEach]: the adjacency list of [e.from] gets
    [e.to] appended, the in-degree of [e.to] is incremented. *)
Definition addEdge (g : gmap Z (list Z) * gmap Z Z) (e : RouteEdge)
  : gmap Z (list Z) * gmap Z Z :=
  (<[edge_from e := default [] (g.1 !! edge_from e) ++ [edge_to e]]> (g.1),
   <[edge_to e := or0 (g.2 !! edge_to e) + 1]> (g.2)).

Definition buildGraph (originalNodes : list RouteNode) (es : list RouteEdge)
  : gmap Z (list Z) * gmap Z Z :=
  fold_left addEdge es (∅, initInDegree originalNodes).

(** The mutable state of the [while] loop. *)
Record KahnState := mkState {
  inDegree : gmap Z Z;
  visited : gset Z;
  queue : list Z;
  sortedNodes : list RouteNode
}.

(** The start nodes: ids of in-degree 0, in input order. *)
Definition roots (originalNodes : list RouteNode) (deg : gmap Z Z) : list Z :=
  fold_left (fun q n => if decide (or0 (deg !! node_id n) = 0)
                        then q ++ [node_id n] else q) originalNodes [].

(** One round of [neighbors.forEach]. *)
Definition relax (a : gmap Z Z * list Z) (neighborId : Z) : gmap Z Z * list Z :=
  let d := or0 (a.1 !! neighborId) - 1 in
  (<[neighborId := d]> (a.1), if decide (d = 0) then a.2 ++ [neighborId] else a.2).

(** [originalNodes.find(n => !visited.has(n.id))]. *)
Definition firstUnvisited (originalNodes : list RouteNode) (vis : gset Z)
  : option RouteNode :=
  List.find (fun n => bool_decide (node_id n ∉ vis)) originalNodes.

(** The part of the loop body after the queue is known to hold
    [currentId] at its head: [queue.shift()], the visited test, the
    emission and the relaxation of the out-neighbours. *)
Definition visit (byId : gmap Z RouteNode) (adjacency : gmap Z (list Z))
    (deg : gmap Z Z) (vis : gset Z) (currentId : Z) (rest : list Z)
    (sorted : list RouteNode) : KahnState :=
  if decide (currentId ∈ vis) then mkState deg vis rest sorted
  else
    let sorted' := match byId !! currentId with
                   | Some node => sorted ++ [node]
                   | None => sorted
                   end in
    let r := fold_left relax (default [] (adjacency !! currentId)) (deg, rest) in
    mkState r.1 ({[currentId]} ∪ vis) r.2 sorted'.

(** One iteration of the loop body; [None] is the [break]. *)
Definition loopBody (originalNodes : list RouteNode) (byId : gmap Z RouteNode)
    (adjacency : gmap Z (list Z)) (s : KahnState) : option KahnState :=
  match queue s with
  | [] =>
      match firstUnvisited originalNodes (visited s) with
      | Some unvisited =>
          Some (visit byId adjacency (inDegree s) (visited s)
                      (node_id unvisited) [] (sortedNodes s))
      | None => None
      end
  | currentId :: rest =>
      Some (visit byId adjacency (inDegree s) (visited s)
                  currentId rest (sortedNodes s))
  end.

(** The [while] loop, bounded by [fuel] iterations; [None] means that the
    loop has not exited within [fuel] iterations. *)
Fixpoint kahnLoop (originalNodes : list RouteNode) (byId : gmap Z RouteNode)
    (adjacency : gmap Z (list Z)) (fuel : nat) (s : KahnState)
  : option KahnState :=
  if decide (length (sortedNodes s) < length originalNodes)%nat then
    match fuel with
    | O => None
    | S fuel' =>
        match loopBody originalNodes byId adjacency s with
        | Some s' => kahnLoop originalNodes byId adjacency fuel' s'
        | None => Some s
        end
    end
  else Some s.

Definition initState (originalNodes : list RouteNode) (es : list RouteEdge)
  : KahnState :=
  let deg := (buildGraph originalNodes es).2 in
  mkState deg ∅ (roots originalNodes deg) [].

(** A number of iterations that always suffices (see
    [runKahn_is_Some]). *)
Definition reorderFuel (originalNodes : list RouteNode) (es : list RouteEdge)
  : nat :=
  (2 * length originalNodes + length es + 1)%nat.

Definition runKahn (originalNodes : list RouteNode) (es : list RouteEdge)
  : option KahnState :=
  kahnLoop originalNodes (nodeById originalNodes)
           (buildGraph originalNodes es).1
           (reorderFuel originalNodes es) (initState originalNodes es).

Definition reorderNodes (originalNodes : list RouteNode) (es : list RouteEdge)
  : list RouteNode :=
  match runKahn originalNodes es with
  | Some s => sortedNodes s
  | None => []
  end.

(** ** Timeline Estimator: duration parsing *)

(** Strings are sequences of bytes (UTF-8); the regular expressions of the
    source only test ASCII digits, the dot and literal markers, so that
    matching on bytes and matching on UTF-16 code units agree. *)

(** [\d] *)
Definition isDigit (c : ascii) : bool :=
  (48 <=? nat_of_ascii c)%nat && (nat_of_ascii c <=? 57)%nat.

(** The longest run of digits at the head of [s], and what follows it. *)
Fixpoint spanDigits (s : string) : string * string :=
  match s with
  | String c s' =>
      if isDigit c
      then let '(d, r) := spanDigits s' in (String c d, r)
      else (EmptyString, s)
  | EmptyString => (EmptyString, EmptyString)
  end.

(** [dropPrefix p s] is [Some r] when [s = p ++ r]. *)
Fixpoint dropPrefix (p s : string) : option string :=
  match p, s with
  | EmptyString, _ => Some s
  | String a p', String b s' =>
      if Ascii.eqb a b then dropPrefix p' s' else None
  | String _ _, EmptyString => None
  end.

Definition startsWith (p s : string) : bool :=
  match dropPrefix p s with Some _ => true | None => false end.

Definition nonEmpty (s : string) : bool :=
  match s with EmptyString => false | String _ _ => true end.

(** The value of a string of decimal digits ([parseInt] on such a
    string). *)
Fixpoint digitsValue (acc : Z) (s : string) : Z :=
  match s with
  | EmptyString => acc
  | String c s' => digitsValue (10 * acc + (Z.of_nat (nat_of_ascii c) - 48)) s'
  end.

Definition parseInt (s : string) : Q := inject_Z (digitsValue 0 s).

(** [parseFloat] on a capture of the shape [\d+(\.\d+)?], given as its
    integer digits and its optional fraction digits. *)
Definition parseFloat (ip : string) (fp : option string) : Q :=
  match fp with
  | None => inject_Z (digitsValue 0 ip)
  | Some f =>
      (inject_Z (digitsValue 0 ip)
       + inject_Z (digitsValue 0 f) / inject_Z (10 ^ Z.of_nat (String.length f)))%Q
  end.

(** The unit markers, byte for byte as they stand in the regular
    expressions and in the default stay of SmartRoute.tsx. *)
Definition hourMarker : string := "å°æ—¶".
Definition minuteMarker : string := "åˆ†".
Definition defaultStay : string := "30åˆ†é’Ÿ".

(** The first [k] characters of [s], and what follows them. *)
Fixpoint takeS (k : nat) (s : string) : string :=
  match k, s with
  | S k', String c s' => String c (takeS k' s')
  | _, _ => EmptyString
  end.

Fixpoint dropS (k : nat) (s : string) : string :=
  match k, s with
  | S k', String _ s' => dropS k' s'
  | _, _ => s
  end.

(** A greedy [\d+] that gives characters back one at a time: the first
    success of [f n], [f (n-1)], ..., [f 1]. *)
Fixpoint tryLengths {A} (n : nat) (f : nat → option A) : option A :=
  match n with
  | O => None
  | S n' =>
      match f n with
      | Some r => Some r
      | None => tryLengths n' f
      end
  end.

(** A match of [(\d+(\.\d+)?)MARK] that starts at the head of [s]: the
    integer digits and the fraction digits of group 1.  The digit runs
    are greedy, the optional group is tried before it is skipped. *)
Definition matchHourAt (mark s : string) : option (string * option string) :=
  let '(d1, r1) := spanDigits s in
  tryLengths (String.length d1) (fun k =>
    let rest := (dropS k d1 ++ r1)%string in
    let withFraction :=
      match rest with
      | String "."%char t =>
          let '(d2, r2) := spanDigits t in
          tryLengths (String.length d2) (fun j =>
            if startsWith mark (dropS j d2 ++ r2)
            then Some (takeS k d1, Some (takeS j d2)) else None)
      | _ => None
      end in
    match withFraction with
    | Some r => Some r
    | None => if startsWith mark rest then Some (takeS k d1, None) else None
    end).

(** [str.match(/(\d+(\.\d+)?)MARK/)]: the leftmost match. *)
Fixpoint searchHour (mark s : string) : option (string * option string) :=
  match matchHourAt mark s with
  | Some r => Some r
  | None =>
      match s with
      | String _ s' => searchHour mark s'
      | EmptyString => None
      end
  end.

(** A match of [(\d+)MARK] that starts at the head of [s]. *)
Definition matchMinAt (mark s : string) : option string :=
  let '(d, r) := spanDigits s in
  tryLengths (String.length d) (fun k =>
    if startsWith mark (dropS k d ++ r) then Some (takeS k d) else None).

(** [str.match(/(\d+)MARK/)]: the leftmost match. *)
Fixpoint searchMin (mark s : string) : option string :=
  match matchMinAt mark s with
  | Some r => Some r
  | None =>
      match s with
      | String _ s' => searchMin mark s'
      | EmptyString => None
      end
  end.

(** [str.match(/^\d+$/)] *)
Definition allDigits (s : string) : bool :=
  nonEmpty s && negb (nonEmpty (spanDigits s).2).

(** The parser, for arbitrary unit markers. *)
Definition parseDurationWith (hourMark minMark : string) (str : option string) : Q :=
  match str with
  | None => 0%Q
  | Some EmptyString => 0%Q
  | Some s =>
      let minutes := 0%Q in
      let minutes :=
        match searchHour hourMark s with
        | Some hourMatch => (minutes + parseFloat hourMatch.1 hourMatch.2 * 60)%Q
        | None => minutes
        end in
      let minutes :=
        match searchMin minMark s with
        | Some minMatch => (minutes + parseInt minMatch)%Q
        | None => minutes
        end in
      if Qeq_bool minutes 0 && allDigits s then parseInt s else minutes
  end.

(** [parseDurationToMinutes], with the markers of the source. *)
Definition parseDurationToMinutes (str : option string) : Q :=
  parseDurationWith hourMarker minuteMarker str.

(** ** Timeline Estimator: clock formatting *)

(** [n.toString()] for an integer [n]. *)
Definition numToString (n : Z) : string :=
  DecimalString.NilZero.string_of_int (Z.to_int n).

(** [s.padStart(2, '0')] *)
Definition padStart2 (s : string) : string :=
  match String.length s with
  | O => "00"
  | S O => String "0"%char s
  | _ => s
  end.

(** Truncation toward zero, and the remainder [a % b] of JavaScript (the
    sign follows the dividend). *)
Definition Qtrunc (q : Q) : Z :=
  if Qle_bool 0 q then Qfloor q else Qceiling q.

Definition jsRem (a b : Q) : Q :=
  (a - b * inject_Z (Qtrunc (a / b)))%Q.

(** [formatTime], over the exact clock.  For a clock that is a whole
    number of minutes from 0 to 2^53 - 1 the binary64 computation of the
    source gives the same two numbers: [m % 60] is exact, and the
    quotient [m / 60] is rounded to a value with the same integral part
    (its fraction is at most 59/60, the rounding error below 1/64).
    For other clocks the rounding of the quotient, and a clock that has
    overflowed, are not described. *)
Definition formatTime (minutesFromMidnight : Q) : string :=
  let h := Z.rem (Qfloor (minutesFromMidnight / 60)) 24 in
  let m := Qfloor (jsRem minutesFromMidnight 60) in
  (padStart2 (numToString h) ++ ":" ++ padStart2 (numToString m))%string.

(** ** Timeline Estimator: [nodeTimeline] *)

Record TimelineEntry := mkEntry {
  arrival : string;
  departure : string
}.

(** What one round of [sortedNodes.forEach] computes for its node: the
    travel time added before the arrival, the clock at arrival, the stay
    and the clock at departure. *)
Record Stop := mkStop {
  stop_node : RouteNode;
  travelTime : Q;
  arrivalMinutes : Q;
  stayDuration : Q;
  departureMinutes : Q
}.

(** [routePlan.edges.find(e => e.from === prevNode.id && e.to === node.id)] *)
Definition findEdge (es : list RouteEdge) (prevNode node : RouteNode)
  : option RouteEdge :=
  List.find (fun e => bool_decide (edge_from e = node_id prevNode)
                      && bool_decide (edge_to e = node_id node)) es.

(** The travel time of round [i] of the [forEach].  In round [i > 0]
    the index [i - 1] lies within [sortedNodes], so the last branch is
    never taken. *)
Definition travelTimeAt (es : list RouteEdge) (sorted : list RouteNode)
    (i : nat) (node : RouteNode) : Q :=
  match i with
  | O => 0%Q
  | S j =>
      match sorted !! j with
      | Some prevNode =>
          match findEdge es prevNode node with
          | Some edge => parseDurationToMinutes (Some (duration edge))
          | None => 15%Q
          end
      | None => 15%Q
      end
  end.

(** [node.estimatedStay || "30..."] *)
Definition stayText (node : RouteNode) : string :=
  match estimatedStay node with
  | Some (String c s) => String c s
  | _ => defaultStay
  end.

(** The rounds [i], [i+1], ... of the [forEach] over the remaining nodes
    [rest], from the clock [currentMinutes]. *)
Fixpoint timelineStops (es : list RouteEdge) (sorted : list RouteNode)
    (i : nat) (rest : list RouteNode) (currentMinutes : Q) : list Stop :=
  match rest with
  | [] => []
  | node :: rest' =>
      let tt := travelTimeAt es sorted i node in
      let arr := (currentMinutes + tt)%Q in
      let stay := parseDurationToMinutes (Some (stayText node)) in
      let dep := (arr + stay)%Q in
      mkStop node tt arr stay dep :: timelineStops es sorted (S i) rest' dep
  end.

(** [map.set(node.id, { arrival, departure })] for every round. *)
Definition timelineMap (stops : list Stop) : gmap Z TimelineEntry :=
  fold_left (fun m st =>
               <[node_id (stop_node st) :=
                   mkEntry (formatTime (arrivalMinutes st))
                           (formatTime (departureMinutes st))]> m)
            stops ∅.

(** The timeline of an ordered node sequence from a given start of the
    day. *)
Definition computeTimeline (sorted : list RouteNode) (es : list RouteEdge)
    (startMinutes : Q) : gmap Z TimelineEntry :=
  timelineMap (timelineStops es sorted 0 sorted startMinutes).

(** The rounds of the [forEach] of [nodeTimeline] for a route plan: the
    clock starts at 9 * 60. *)
Definition planStops (routePlan : RoutePlan) : list Stop :=
  let sorted := reorderNodes (nodes routePlan) (edges routePlan) in
  timelineStops (edges routePlan) sorted 0 sorted (9 * 60)%Q.

Definition nodeTimeline (routePlan : option RoutePlan) : gmap Z TimelineEntry :=
  match routePlan with
  | None => ∅
  | Some plan => timelineMap (planStops plan)
  end.

(** ** Spatial Clusterer: [mapItems] (SafetyMap.tsx) *)

Inductive ZoneType := RED | GREEN.

Record Coordinates := mkCoord { x : float; y : float }.

Record MapZone := mkZone {
  zone_id : string;
  zone_city : string;
  zone_name : string;
  zone_type : ZoneType;
  zone_description : string;
  coordinates : Coordinates;
  isUserGenerated : option bool
}.

Inductive MapItem :=
  | single (zone : MapZone)
  | cluster (zones : list MapZone) (cx cy : float) (cid : string).

Definition CLUSTER_THRESHOLD : float := 8%float.

(** [Math.pow(d, 2)]: the square, computed as the product. *)
Definition pow2 (d : float) : float := (d * d)%float.

(** [Math.sqrt(Math.pow(current.coordinates.x - other.coordinates.x, 2)
    + Math.pow(current.coordinates.y - other.coordinates.y, 2))], every
    operation rounded to binary64. *)
Definition dist (current other : MapZone) : float :=
  PrimFloat.sqrt
    (pow2 (x (coordinates current) - x (coordinates other))
     + pow2 (y (coordinates current) - y (coordinates other)))%float.

(** [dist < CLUSTER_THRESHOLD] *)
Definition near (current other : MapZone) : bool :=
  (dist current other <? CLUSTER_THRESHOLD)%float.

(** The neighbour scan [for (let i = length - 1; i >= 0; i--)]:
    [scanNeighbors current n ...] runs the rounds [i = n-1, ..., 0]. *)
Fixpoint scanNeighbors (current : MapZone) (n : nat)
    (clusterMembers processingZones : list MapZone)
  : list MapZone * list MapZone :=
  match n with
  | O => (clusterMembers, processingZones)
  | S i =>
      match processingZones !! i with
      | Some other =>
          if near current other
          then scanNeighbors current i (clusterMembers ++ [other])
                             (delete i processingZones)
          else scanNeighbors current i clusterMembers processingZones
      | None => scanNeighbors current i clusterMembers processingZones
      end
  end.

(** The number [n] as a binary64 value; it is exact for the lengths of
    arrays. *)
Definition floatOfNat (n : nat) : float :=
  Nat.iter n (fun f => (f + 1)%float) 0%float.

(** [zs.reduce((sum, z) => sum + f(z), 0) / zs.length], every operation
    rounded to binary64. *)
Definition average (f : MapZone -> float) (zs : list MapZone) : float :=
  (fold_left (fun sum z => sum + f z) zs 0 / floatOfNat (length zs))%float.

Definition makeItem (current : MapZone) (clusterMembers : list MapZone) : MapItem :=
  match clusterMembers with
  | [only] => single only
  | _ =>
      cluster clusterMembers
              (average (fun z => x (coordinates z)) clusterMembers)
              (average (fun z => y (coordinates z)) clusterMembers)
              ("cluster-" ++ zone_id current ++ "-"
                 ++ numToString (Z.of_nat (length clusterMembers)))%string
  end.

(** [processingZones.pop()] *)
Definition pop (l : list MapZone) : option (MapZone * list MapZone) :=
  match last l with
  | Some current => Some (current, removelast l)
  | None => None
  end.

(** The [while (processingZones.length > 0)] loop, bounded by [fuel]
    iterations; [None] means that it has not exited within them. *)
Fixpoint clusterLoop (fuel : nat) (processingZones : list MapZone)
    (items : list MapItem) : option (list MapItem) :=
  match pop processingZones with
  | None => Some items
  | Some (current, rest) =>
      match fuel with
      | O => None
      | S fuel' =>
          let r := scanNeighbors current (length rest) [current] rest in
          clusterLoop fuel' r.2 (items ++ [makeItem current r.1])
      end
  end.

Definition mapItems (filteredZones : list MapZone) : list MapItem :=
  match clusterLoop (length filteredZones) filteredZones [] with
  | Some items => items
  | None => []
  end.

(** The members of an item. *)
Definition members (it : MapItem) : list MapZone :=
  match it with
  | single z => [z]
  | cluster zs _ _ _ => zs
  end.

(** ** Auxiliary notions used by the statements *)

(** The ids of a list of nodes, in order. *)
Definition ids (l : list RouteNode) : list Z := node_id <$> l.

(** The set of ids that occur in a node list. *)
Definition idSet (l : list RouteNode) : gset Z := list_to_set (ids l).

(** The progress measure of the loop: queue entries, edges that leave an
    unvisited id, and input nodes whose id is unvisited. *)
Definition kahnMeasure (originalNodes : list RouteNode) (es : list RouteEdge)
    (s : KahnState) : nat :=
  (length (queue s)
   + length (filter (fun e => edge_from e ∉ visited s) es)
   + length (filter (fun n => node_id n ∉ visited s) originalNodes))%nat.

(** The loop has exited in state [s]. *)
Definition exited (originalNodes : list RouteNode) (byId : gmap Z RouteNode)
    (adjacency : gmap Z (list Z)) (s : KahnState) : Prop :=
  ¬ (length (sortedNodes s) < length originalNodes)%nat
  ∨ loopBody originalNodes byId adjacency s = None.

(** The loop started in [s] exits in [sf]. *)
Definition runsTo (originalNodes : list RouteNode) (byId : gmap Z RouteNode)
    (adjacency : gmap Z (list Z)) (s sf : KahnState) : Prop :=
  ∃ fuel, kahnLoop originalNodes byId adjacency fuel s = Some sf.

(** The emitted nodes are the map entries of the visited ids, once each. *)
Record emitted_ok (byId : gmap Z RouteNode) (s : KahnState) : Prop := {
  emitted_nodup : NoDup (ids (sortedNodes s));
  emitted_byId : ∀ n, n ∈ sortedNodes s → byId !! node_id n = Some n;
  emitted_visited :
    ∀ i, i ∈ ids (sortedNodes s) ↔ i ∈ visited s ∧ is_Some (byId !! i)
}.

(** The effect of [neighbors.forEach] on the in-degree map, and the ids
    that it pushes on the queue. *)
Definition relaxDeg (l : list Z) (deg : gmap Z Z) : gmap Z Z :=
  (fold_left relax l (deg, [])).1.

Definition relaxPush (l : list Z) (deg : gmap Z Z) : list Z :=
  (fold_left relax l (deg, [])).2.

(** Number of occurrences of [v] in [l]. *)
Definition countId (v : Z) (l : list Z) : Z :=
  Z.of_nat (length (filter (fun x => x = v) l)).

(** The out-neighbours of [u], in edge order. *)
Definition outNeighbors (es : list RouteEdge) (u : Z) : list Z :=
  edge_to <$> filter (fun e => edge_from e = u) es.


(** What visiting [c] appends to the output. *)
Definition emit (byId : gmap Z RouteNode) (c : Z) : list RouteNode :=
  match byId !! c with
  | Some node => [node]
  | None => []
  end.

(** Every key of the id-to-node map is the id of its node. *)
Definition keyed (byId : gmap Z RouteNode) : Prop :=
  ∀ i n, byId !! i = Some n → node_id n = i.

(** ** Directed acyclic graphs over the node set *)

(** [edgeRel es u v]: the edge list has an edge from [u] to [v]. *)
Definition edgeRel (es : list RouteEdge) (u v : Z) : Prop :=
  ∃ e, e ∈ es ∧ edge_from e = u ∧ edge_to e = v.

(** No id reaches itself along one or more edges. *)
Definition acyclic (es : list RouteEdge) : Prop :=
  ∀ v, ¬ tc (edgeRel es) v v.

(** Both endpoints of every edge are ids of input nodes. *)
Definition overNodes (l : list RouteNode) (es : list RouteEdge) : Prop :=
  ∀ e, e ∈ es → edge_from e ∈ ids l ∧ edge_to e ∈ ids l.

(** A source has no incoming edge. *)
Definition isSource (es : list RouteEdge) (v : Z) : Prop :=
  ∀ e, e ∈ es → edge_to e ≠ v.

(** Exactly one input id is a source. *)
Definition oneSource (l : list RouteNode) (es : list RouteEdge) : Prop :=
  ∃ r, r ∈ ids l ∧ isSource es r ∧ ∀ r', r' ∈ ids l → isSource es r' → r' = r.

(** In [out], a node of id [u] stands strictly before a node of id [v]. *)
Definition before (out : list RouteNode) (u v : Z) : Prop :=
  ∃ i j nu nv, out !! i = Some nu ∧ out !! j = Some nv
               ∧ node_id nu = u ∧ node_id nv = v ∧ (i < j)%nat.

(** The number of edges into [v] that leave an id outside [V]. *)
Definition indegOf (es : list RouteEdge) (V : gset Z) (v : Z) : Z :=
  Z.of_nat (length (filter (fun e => edge_to e = v ∧ edge_from e ∉ V) es)).

(** The invariant of the loop on an acyclic graph over the node set. *)
Record dag_ok (l : list RouteNode) (es : list RouteEdge) (s : KahnState)
  : Prop := {
  deg_ok : ∀ v, or0 (inDegree s !! v) = indegOf es (visited s) v;
  queue_ready : ∀ v, v ∈ queue s → indegOf es (visited s) v = 0;
  ready_queued :
    ∀ n, n ∈ l → node_id n ∉ visited s →
         indegOf es (visited s) (node_id n) = 0 → node_id n ∈ queue s;
  order_ok :
    ∀ e, e ∈ es → edge_to e ∈ visited s →
         before (sortedNodes s) (edge_from e) (edge_to e)
}.

(** ** Comparing two runs of the loop *)

(** [simq V q1 q2]: with [V] visited, the queues [q1] and [q2] lead to
    the same visits in the same order; entries that are already visited
    when they reach the head are skipped on either side. *)
Inductive simq : gset Z → list Z → list Z → Prop :=
  | simq_nil V : simq V [] []
  | simq_skip_l V h q1 q2 : h ∈ V → simq V q1 q2 → simq V (h :: q1) q2
  | simq_skip_r V h q1 q2 : h ∈ V → simq V q1 q2 → simq V q1 (h :: q2)
  | simq_both V h q1 q2 :
      h ∉ V → simq ({[h]} ∪ V) q1 q2 → simq V (h :: q1) (h :: q2).

(** The entries of a queue that will be visited, given the visited set:
    the first occurrence of every unvisited id. *)
Fixpoint dedupV (V : gset Z) (q : list Z) : list Z :=
  match q with
  | [] => []
  | h :: t =>
      if decide (h ∈ V) then dedupV V t else h :: dedupV ({[h]} ∪ V) t
  end.

(** The ids of in-degree 0 in the initial in-degree map. *)
Definition isRoot (deg0 : gmap Z Z) (v : Z) : Prop := or0 (deg0 !! v) = 0.

#[global] Instance isRoot_dec (deg0 : gmap Z Z) (v : Z)
  : Decision (isRoot deg0 v) := Z.eq_dec (or0 (deg0 !! v)) 0.

(** The invariant that locates the start nodes: those already emitted
    followed by those still to be visited in the queue are the start
    nodes in input order. *)
Record roots_ok (l : list RouteNode) (deg0 : gmap Z Z) (s : KahnState)
  : Prop := {
  roots_split :
    filter (isRoot deg0) (ids (sortedNodes s))
      ++ filter (isRoot deg0) (dedupV (visited s) (queue s))
    = dedupV ∅ (roots l deg0);
  queue_known : ∀ v, v ∈ queue s → v ∈ ids l ∨ ¬ isRoot deg0 v
}.

(** ** Edges with absent endpoints *)

(** The edges whose two endpoints are ids of input nodes. *)
Definition presentEdges (l : list RouteNode) (es : list RouteEdge)
  : list RouteEdge :=
  filter (fun e => edge_from e ∈ ids l ∧ edge_to e ∈ ids l) es.

(** Two states agree on the input nodes: same output so far, same
    visited input ids, same in-degrees of input ids, and the same queue
    once the ids that belong to no input node are left out. *)
Record agree_on (l : list RouteNode) (sA sB : KahnState) : Prop := {
  agree_sorted : sortedNodes sA = sortedNodes sB;
  agree_visited : ∀ v, v ∈ ids l → (v ∈ visited sA ↔ v ∈ visited sB);
  agree_deg : ∀ v, v ∈ ids l → or0 (inDegree sA !! v) = or0 (inDegree sB !! v);
  agree_queue : queue sB = filter (fun v => v ∈ ids l) (queue sA)
}.

(** ** Auxiliary notions for the timeline *)




(** ** Sample data for the examples *)

Definition plainNode (i : Z) : RouteNode := mkNode i "" "" OTHER None.

Definition plainEdge (a b : Z) : RouteEdge := mkEdge a b WALK "" "" None.

Definition pin (name : string) (px py : float) : MapZone :=
  mkZone name "" "" GREEN "" (mkCoord px py) None.


(** * Further code of the same files *)

(** ** Route statistics: [routeStats] (SmartRoute.tsx) *)

(** [Number.MAX_SAFE_INTEGER]: up to it the whole numbers are binary64
    values and their sums and differences are computed exactly. *)
Definition MAX_SAFE_INTEGER : Z := 2 ^ 53 - 1.

(** [s.split(':')] *)
Fixpoint splitColon (s : string) : list string :=
  match s with
  | EmptyString => [EmptyString]
  | String c s' =>
      if Ascii.eqb c ":"%char then EmptyString :: splitColon s'
      else
        match splitColon s' with
        | p :: ps => String c p :: ps
        | [] => [String c EmptyString]
        end
  end.

(** Every character of [s] is a decimal digit. *)
Fixpoint digitsOnly (s : string) : bool :=
  match s with
  | EmptyString => true
  | String c s' => isDigit c && digitsOnly s'
  end.

(** [Number(s)] for the two parts of a clock text.  A string of decimal
    digits gives its value (the empty string gives 0); [None] stands for
    the number that is no number, which is the result for the text that
    [formatTime] returns in the source once the clock has overflowed.
    Texts of other forms, which clock texts never have, are not
    described. *)
Definition jsNumber (s : string) : option Z :=
  if digitsOnly s then Some (digitsValue 0 s) else None.

(** [getMinutes]: [const [h, m] = timeStr.split(':').map(Number);
    return h * 60 + m]. *)
Definition getMinutes (timeStr : string) : option Z :=
  match jsNumber <$> splitColon timeStr with
  | Some h :: Some m :: _ => Some (h * 60 + m)
  | _ => None
  end.

(** The text of [z] padded to two characters is two digits of value
    [z]. *)
Definition twoDigitsOk (z : Z) : bool :=
  let t := padStart2 (numToString z) in
  digitsOnly t && (digitsValue 0 t =? z) && (String.length t =? 2)%nat.

(** [o || d] for an optional string: the default replaces an absent and
    an empty string. *)
Definition orText (o : option string) (d : string) : string :=
  match o with
  | Some (String c s) => String c s
  | _ => d
  end.

Record RouteStats := mkStats {
  stats_start : string;
  stats_end : string;
  stats_duration : string;
  stats_count : nat
}.

(** The text [`${h}H${m > 0 ? m + 'M' : ''}`] for a duration in minutes,
    with [h = Math.floor(d / 60)] and [m = d % 60]; the unit texts of
    the template are those of the parser. *)
Definition durationText (durationMins : Z) : string :=
  let h := durationMins / 60 in
  let m := Z.rem durationMins 60 in
  (numToString h ++ hourMarker
   ++ (if (0 <? m)%Z then numToString m ++ minuteMarker else ""))%string.

(** [routeStats].  The two clock texts come from [formatTime]; the
    last branch of the duration is for a text that [getMinutes] does
    not read as two numbers, which is what [formatTime] returns in the
    source once the clock has overflowed. *)
Definition routeStats (routePlan : option RoutePlan) : option RouteStats :=
  match routePlan with
  | None => None
  | Some plan =>
      let timeline := nodeTimeline routePlan in
      if decide (size timeline = 0%nat) then None
      else
        let sortedNodes := reorderNodes (nodes plan) (edges plan) in
        match sortedNodes, last sortedNodes with
        | firstNode :: _, Some lastNode =>
            let start :=
              orText (arrival <$> timeline !! node_id firstNode) "09:00" in
            let end_ :=
              orText (departure <$> timeline !! node_id lastNode) "18:00" in
            let duration :=
              match getMinutes end_, getMinutes start with
              | Some e, Some s => durationText (e - s)
              | _, _ => ("NaN" ++ hourMarker)%string
              end in
            Some (mkStats start end_ duration (length (nodes plan)))
        | _, _ => None
        end
  end.

(** ** Node layout and edge drawing (SmartRoute.tsx) *)

Definition LAYOUT_WIDTH : Q := 800%Q.
Definition COLUMN_LEFT : Q := (LAYOUT_WIDTH * (1 # 4))%Q.
Definition COLUMN_RIGHT : Q := (LAYOUT_WIDTH * (3 # 4))%Q.
Definition ROW_HEIGHT : Q := 160%Q.
Definition PADDING_TOP : Q := 80%Q.

(** [{ ...node, x, y, isStart, isEnd }] *)
Record LayoutNode := mkLayout {
  layout_node : RouteNode;
  layout_x : Q;
  layout_y : Q;
  isStart : bool;
  isEnd : bool
}.

(** The column test of the snake layout. *)
Definition isLeft (i : nat) : bool :=
  let row := (i / 2)%nat in
  let col := (i mod 2)%nat in
  let isEvenRow := (row mod 2 =? 0)%nat in
  if isEvenRow then (col =? 0)%nat else (col =? 1)%nat.

(** The callback of [orderedNodes.map((node, i) => ...)]. *)
Definition placeNode (len : nat) (i : nat) (node : RouteNode) : LayoutNode :=
  mkLayout node
           (if isLeft i then COLUMN_LEFT else COLUMN_RIGHT)
           (PADDING_TOP + inject_Z (Z.of_nat i) * ROW_HEIGHT)%Q
           (i =? 0)%nat
           (Z.of_nat i =? Z.of_nat len - 1).

Definition computedNodes (routePlan : RoutePlan) : list LayoutNode :=
  let orderedNodes := reorderNodes (nodes routePlan) (edges routePlan) in
  imap (placeNode (length orderedNodes)) orderedNodes.

(** What is drawn for an edge: its end points, the control points handed
    to the line generator, and its style. *)
Record DrawnEdge := mkDrawn {
  drawn_edge : RouteEdge;
  drawn_source : LayoutNode;
  drawn_target : LayoutNode;
  controlPoints : list (Q * Q);
  edgeColor : string;
  edgeWidth : Z;
  edgeDash : string;
  edgeOpacity : Q
}.

(** [computedNodes.find(n => n.id === id)] *)
Definition findLayout (computed : list LayoutNode) (i : Z) : option LayoutNode :=
  List.find (fun n => bool_decide (node_id (layout_node n) = i)) computed.

(** The defaults and the [switch (edge.transportMode)]: colour, width,
    dash, opacity. *)
Definition edgeStyle (mode : TransportMode) : string * Z * string * Q :=
  match mode with
  | SUBWAY => ("#8b5cf6"%string, 6, "0"%string, 1%Q)
  | WALK => ("#64748b"%string, 3, "6,6"%string, (7 # 10)%Q)
  | BUS => ("#059669"%string, 4, "0"%string, (8 # 10)%Q)
  | TAXI => ("#3b82f6"%string, 4, "0"%string, (8 # 10)%Q)
  end.

(** One round of [routePlan.edges.forEach]: nothing is drawn unless both
    end points are found. *)
Definition drawEdge (computed : list LayoutNode) (edge : RouteEdge)
  : option DrawnEdge :=
  match findLayout computed (edge_from edge), findLayout computed (edge_to edge) with
  | Some source, Some target =>
      let midY := ((layout_y source + layout_y target) / 2)%Q in
      let '(color, width, dash, opacity) := edgeStyle (transportMode edge) in
      Some (mkDrawn edge source target
                    [(layout_x source, layout_y source);
                     (layout_x source, midY);
                     (layout_x target, midY);
                     (layout_x target, layout_y target)]
                    color width dash opacity)
  | _, _ => None
  end.

Definition drawnEdges (routePlan : RoutePlan) : list DrawnEdge :=
  omap (drawEdge (computedNodes routePlan)) (edges routePlan).

(** ** Markers of the map items (SafetyMap.tsx) *)

(** [item.zones.some(z => z.type === 'RED')] *)
Definition hasRed (zs : list MapZone) : bool :=
  existsb (fun z => match zone_type z with RED => true | GREEN => false end) zs.

(** The background class of the marker of an item. *)
Definition markerColor (it : MapItem) : string :=
  match it with
  | single zone =>
      match zone_type zone with
      | RED => "bg-red-500"
      | GREEN => "bg-emerald-500"
      end
  | cluster zs _ _ _ => if hasRed zs then "bg-orange-600" else "bg-emerald-600"
  end.

(** The first member of an item: the zone the item was built around. *)
Definition seedOf (it : MapItem) : option MapZone := head (members it).

(** ** The zone service (zoneService.ts) *)

Inductive SubmissionStatus := PENDING | APPROVED | REJECTED.

Record ZoneSubmission := mkSubmission {
  sub_id : string;
  sub_city : string;
  sub_name : string;
  sub_type : ZoneType;
  sub_description : string;
  status : SubmissionStatus;
  submittedAt : Z;
  imageUrl : option string;
  sub_coordinates : option Coordinates
}.

(** The argument of [submitZone]: a submission without [id], [status]
    and [submittedAt]. *)
Record NewZone := mkNewZone {
  new_city : string;
  new_name : string;
  new_type : ZoneType;
  new_description : string;
  new_imageUrl : option string;
  new_coordinates : option Coordinates
}.

Inductive ModerationAction := APPROVE | REJECT.

(** What local storage holds under the key of the submissions: nothing,
    a text that [JSON.parse] rejects (or the empty text), or the text
    that [saveSubmissions] wrote for a list of submissions, which
    [JSON.parse] reads back as that list. *)
Inductive Storage :=
  | NoItem
  | BadItem
  | Item (submissions : list ZoneSubmission).

Definition INITIAL_ZONES : list MapZone := [
  mkZone "xm1" "厦门" "第八菜市场 (八市)" GREEN
         "老厦门人的海鲜市场，价格相对公道，但也需注意称重。"
         (mkCoord 30 55) None;
  mkZone "xm2" "厦门" "曾厝垵海鲜街" RED
         "高风险区域。多为网红店，价格虚高，主要针对游客。"
         (mkCoord 60 70) None;
  mkZone "xm3" "厦门" "鼓浪屿餐厅" RED
         "岛上餐饮普遍较贵且口味一般，建议只吃小吃，正餐回岛内吃。"
         (mkCoord 20 65) None;
  mkZone "xm4" "厦门" "沙坡尾" GREEN
         "文艺聚集地，明码标价的店较多，但单价稍高。"
         (mkCoord 35 75) None;
  mkZone "xm5" "厦门" "出租车推荐店" RED
         "千万别去！司机通常有回扣，价格极高且海鲜往往被调包。"
         (mkCoord 50 40) None;
  mkZone "sy1" "三亚" "第一市场" GREEN
         "自己买海鲜找加工店，相对靠谱，但要在市场内多比价。"
         (mkCoord 45 50) None;
  mkZone "sy2" "三亚" "某某湾拉客大排档" RED
         "路边拉客的热情小妹带去的店，通常阴阳菜单，慎入。"
         (mkCoord 70 30) None;
  mkZone "lj1" "丽江" "忠义市场" GREEN
         "本地人买菜的地方，水果和菌子价格真实。"
         (mkCoord 30 40) None;
  mkZone "lj2" "丽江" "茶马古道骑马" RED
         "低价团费陷阱，上马后中途加价，不给钱不让走。"
         (mkCoord 60 20) None;
  mkZone "qd1" "青岛" "登州路啤酒街" RED
         "部分店铺存在隐形消费，点菜前务必确认是“按只”还是“按盘”。"
         (mkCoord 55 45) None;
  mkZone "qd2" "青岛" "营口路市场" GREEN
         "啤酒屋加工模式发源地，氛围好，价格透明。"
         (mkCoord 40 60) None;
  mkZone "cs1" "长沙" "黄兴步行街切糕" RED
         "传统避雷点，虽然整治过，但仍需警惕流动摊贩的模糊报价。"
         (mkCoord 50 50) None;
  mkZone "cs2" "长沙" "冬瓜山" GREEN
         "夜宵聚集地，香肠和炸炸炸很地道。"
         (mkCoord 45 65) None;
  mkZone "cd1" "成都" "宽窄巷子采耳" RED
         "景区内价格虚高，技术参差不齐，建议去老社区体验。"
         (mkCoord 40 40) None;
  mkZone "cd2" "成都" "建设路小吃" GREEN
         "虽然排队久，但价格亲民，味道正宗。"
         (mkCoord 60 55) None
].

(** [getStoredSubmissions]: an absent item and a failure of
    [JSON.parse] both give the empty list. *)
Definition getStoredSubmissions (st : Storage) : list ZoneSubmission :=
  match st with
  | Item submissions => submissions
  | NoItem | BadItem => []
  end.

Definition saveSubmissions (submissions : list ZoneSubmission) : Storage :=
  Item submissions.

(** [s.city || 'default'] *)
Definition toZone (s : ZoneSubmission) (c : Coordinates) : MapZone :=
  mkZone (sub_id s) (orText (Some (sub_city s)) "厦门") (sub_name s) (sub_type s)
         (sub_description s) c (Some true).

(** The callback pair [filter(s => s.status === 'APPROVED' &&
    s.coordinates)] and [map]. *)
Definition approvedZone (s : ZoneSubmission) : option MapZone :=
  match status s, sub_coordinates s with
  | APPROVED, Some c => Some (toZone s c)
  | _, _ => None
  end.

Definition getActiveZones (st : Storage) : list MapZone :=
  INITIAL_ZONES ++ omap approvedZone (getStoredSubmissions st).

(** [sort((a, b) => b.submittedAt - a.submittedAt)]: the sort of the
    language is stable, so that the result is the stable sort by
    decreasing [submittedAt]; it is modelled by insertion from the
    right, each element going before the first one that is not
    newer. *)
Fixpoint insertNewest (a : ZoneSubmission) (sorted : list ZoneSubmission)
  : list ZoneSubmission :=
  match sorted with
  | [] => [a]
  | b :: rest =>
      if submittedAt b <=? submittedAt a then a :: b :: rest
      else b :: insertNewest a rest
  end.

Definition sortNewestFirst (l : list ZoneSubmission) : list ZoneSubmission :=
  foldr insertNewest [] l.

Definition isPending (s : ZoneSubmission) : Prop := status s = PENDING.

#[global] Instance SubmissionStatus_eq_dec : EqDecision SubmissionStatus.
Proof. solve_decision. Defined.

#[global] Instance isPending_dec (s : ZoneSubmission) : Decision (isPending s).
Proof. unfold isPending. apply _. Defined.

Definition getPendingSubmissions (st : Storage) : list ZoneSubmission :=
  sortNewestFirst (filter isPending (getStoredSubmissions st)).

(** [submitZone]: the clock is read twice, for the id and for
    [submittedAt]. *)
Definition submitZone (zone : NewZone) (idTime submittedTime : Z)
    (st : Storage) : Storage :=
  let submissions := getStoredSubmissions st in
  let newSubmission :=
    mkSubmission ("sub_" ++ numToString idTime) (new_city zone) (new_name zone)
                 (new_type zone) (new_description zone) PENDING submittedTime
                 (new_imageUrl zone) (new_coordinates zone) in
  saveSubmissions (submissions ++ [newSubmission]).

Definition withStatus (st' : SubmissionStatus) (s : ZoneSubmission)
  : ZoneSubmission :=
  mkSubmission (sub_id s) (sub_city s) (sub_name s) (sub_type s)
               (sub_description s) st' (submittedAt s) (imageUrl s)
               (sub_coordinates s).

Definition statusOf (action : ModerationAction) : SubmissionStatus :=
  match action with
  | APPROVE => APPROVED
  | REJECT => REJECTED
  end.

(** [moderateSubmission]: the first submission of that id gets the new
    status; without one nothing is saved. *)
Definition moderateSubmission (id : string) (action : ModerationAction)
    (st : Storage) : Storage :=
  let submissions := getStoredSubmissions st in
  match list_find (fun s => sub_id s = id) submissions with
  | Some (index, _) =>
      saveSubmissions (alter (withStatus (statusOf action)) index submissions)
  | None => st
  end.

Definition resetData (st : Storage) : Storage := NoItem.

(** Newest first: no submission is followed by a newer one. *)
Fixpoint newestFirst (l : list ZoneSubmission) : Prop :=
  match l with
  | [] => True
  | a :: rest =>
      Forall (fun b => submittedAt b ≤ submittedAt a) rest ∧ newestFirst rest
  end.

(** The submission that [submitZone] stores. *)
Definition newSubmission (zone : NewZone) (idTime submittedTime : Z)
  : ZoneSubmission :=
  mkSubmission ("sub_" ++ numToString idTime) (new_city zone) (new_name zone)
               (new_type zone) (new_description zone) PENDING submittedTime
               (new_imageUrl zone) (new_coordinates zone).

(** * Proofs *)

#[local] Set Warnings "-clear-no-such-hyp".
#[local] Set Warnings "-inexact-float".

(** ** The maps built before the loop *)

Lemma nodeById_snoc l n : nodeById (l ++ [n]) = <[node_id n := n]> (nodeById l).
Proof. unfold nodeById. by rewrite fold_left_app. Qed.

Lemma nodeById_lookup l i :
  nodeById l !! i = last (filter (fun n => node_id n = i) l).
Proof.
  induction l as [|n l IH] using rev_ind; [done|].
  rewrite nodeById_snoc, filter_app, filter_cons, filter_nil.
  destruct (decide (node_id n = i)) as [->|Hne].
  - by rewrite lookup_insert_eq, last_snoc.
  - by rewrite lookup_insert_ne, app_nil_r.
Qed.

Lemma nodeById_Some l i n :
  nodeById l !! i = Some n → n ∈ l ∧ node_id n = i.
Proof.
  rewrite nodeById_lookup. intros H.
  apply last_Some in H as [l' H].
  assert (Hin : n ∈ filter (fun n => node_id n = i) l)
    by (rewrite H; apply elem_of_app; right; apply list_elem_of_singleton; done).
  by apply list_elem_of_filter in Hin as [? ?].
Qed.

Lemma nodeById_is_Some l i : is_Some (nodeById l !! i) ↔ i ∈ ids l.
Proof.
  induction l as [|n l IH] using rev_ind.
  - unfold nodeById, ids. simpl. rewrite lookup_empty, elem_of_nil.
    split; [intros [? ?]; done|done].
  - rewrite nodeById_snoc. unfold ids in *. rewrite fmap_app, elem_of_app. simpl.
    rewrite list_elem_of_singleton.
    destruct (decide (node_id n = i)) as [->|Hne].
    + rewrite lookup_insert_eq. split; [by right|by eauto].
    + rewrite lookup_insert_ne by done. rewrite IH. split; [by left|].
      intros [?|?]; [done|congruence].
Qed.

Lemma nodeById_dom l : dom (nodeById l) = idSet l.
Proof.
  apply set_eq. intros i. unfold idSet.
  rewrite elem_of_dom, nodeById_is_Some, elem_of_list_to_set. done.
Qed.

Lemma initInDegree_lookup l v :
  initInDegree l !! v = if decide (v ∈ ids l) then Some 0 else None.
Proof.
  induction l as [|n l IH] using rev_ind.
  - unfold initInDegree, ids. simpl. rewrite lookup_empty.
    done.
  - unfold initInDegree, ids in *. rewrite fold_left_app, fmap_app. simpl.
    destruct (decide (node_id n = v)) as [->|Hne].
    + rewrite lookup_insert_eq. rewrite decide_True; [done|].
      apply elem_of_app. right. by apply list_elem_of_singleton.
    + rewrite lookup_insert_ne by done. rewrite IH.
      destruct (decide (v ∈ node_id <$> l)) as [Hin|Hin].
      * rewrite decide_True; [done|]. apply elem_of_app. by left.
      * rewrite decide_False; [done|]. rewrite elem_of_app, list_elem_of_singleton.
        intros [?|?]; [done|congruence].
Qed.

Lemma initInDegree_ext l1 l2 : idSet l1 = idSet l2 → initInDegree l1 = initInDegree l2.
Proof.
  intros H. apply map_eq. intros v. rewrite !initInDegree_lookup.
  assert (Hiff : v ∈ ids l1 ↔ v ∈ ids l2).
  { unfold idSet in H. rewrite <- !(elem_of_list_to_set (C:=gset Z)). by rewrite H. }
  destruct (decide (v ∈ ids l1)), (decide (v ∈ ids l2)); tauto.
Qed.

Lemma buildGraph_snoc l es e :
  buildGraph l (es ++ [e]) = addEdge (buildGraph l es) e.
Proof. unfold buildGraph. by rewrite fold_left_app. Qed.

Lemma adjacency_lookup l es u :
  default [] ((buildGraph l es).1 !! u) = outNeighbors es u.
Proof.
  unfold outNeighbors.
  induction es as [|e es IH] using rev_ind.
  - unfold buildGraph. simpl. by rewrite lookup_empty.
  - rewrite buildGraph_snoc, filter_app, fmap_app. simpl.
    rewrite filter_cons, filter_nil.
    destruct (decide (edge_from e = u)) as [->|Hne].
    + rewrite lookup_insert_eq. simpl. by rewrite IH.
    + rewrite lookup_insert_ne by done. rewrite IH. simpl. by rewrite app_nil_r.
Qed.

Lemma adjacency_nodes_irrelevant l1 l2 es :
  (buildGraph l1 es).1 = (buildGraph l2 es).1.
Proof.
  induction es as [|e es IH] using rev_ind; [done|].
  rewrite !buildGraph_snoc. simpl. by rewrite IH.
Qed.

Lemma inDegree_ext l1 l2 es :
  idSet l1 = idSet l2 → (buildGraph l1 es).2 = (buildGraph l2 es).2.
Proof.
  intros H. induction es as [|e es IH] using rev_ind.
  - unfold buildGraph. simpl. by apply initInDegree_ext.
  - rewrite !buildGraph_snoc. simpl. by rewrite IH.
Qed.

Lemma inDegree_lookup l es v :
  or0 ((buildGraph l es).2 !! v)
  = Z.of_nat (length (filter (fun e => edge_to e = v) es)).
Proof.
  induction es as [|e es IH] using rev_ind.
  - unfold buildGraph. simpl. rewrite initInDegree_lookup.
    by case_decide.
  - rewrite buildGraph_snoc, filter_app, length_app. simpl.
    rewrite filter_cons, filter_nil.
    destruct (decide (edge_to e = v)) as [->|Hne].
    + rewrite lookup_insert_eq. unfold or0 at 1. cbn [default from_option]. rewrite IH. simpl. lia.
    + rewrite lookup_insert_ne by done. rewrite IH. simpl. lia.
Qed.

Lemma roots_filter l deg :
  roots l deg = filter (fun i => or0 (deg !! i) = 0) (ids l).
Proof.
  unfold roots, ids.
  induction l as [|n l IH] using rev_ind; [done|].
  rewrite fold_left_app, fmap_app, filter_app. simpl. rewrite IH.
  rewrite filter_cons, filter_nil.
  destruct (decide (or0 (deg !! node_id n) = 0)); [done|by rewrite app_nil_r].
Qed.

(** ** The relaxation of the out-neighbours *)

Lemma relax_eq deg q a :
  relax (deg, q) a
  = (<[a := or0 (deg !! a) - 1]> deg,
     q ++ (if decide (or0 (deg !! a) - 1 = 0) then [a] else [])).
Proof.
  unfold relax. simpl. destruct (decide _); [done|by rewrite app_nil_r].
Qed.

Lemma fold_relax l deg q :
  fold_left relax l (deg, q) = (relaxDeg l deg, q ++ relaxPush l deg).
Proof.
  unfold relaxDeg, relaxPush.
  revert deg q. induction l as [|a l IH]; intros deg q.
  - simpl. by rewrite app_nil_r.
  - simpl. rewrite !relax_eq. rewrite IH.
    rewrite (IH _ ([] ++ _)). simpl. by rewrite <- app_assoc.
Qed.

Lemma relaxDeg_cons a l deg :
  relaxDeg (a :: l) deg = relaxDeg l (<[a := or0 (deg !! a) - 1]> deg).
Proof.
  unfold relaxDeg at 1. simpl. rewrite relax_eq.
  by rewrite fold_relax.
Qed.

Lemma relaxPush_cons a l deg :
  relaxPush (a :: l) deg
  = (if decide (or0 (deg !! a) - 1 = 0) then [a] else [])
      ++ relaxPush l (<[a := or0 (deg !! a) - 1]> deg).
Proof.
  unfold relaxPush at 1. simpl. rewrite relax_eq.
  by rewrite fold_relax.
Qed.

Lemma relaxPush_length l deg : (length (relaxPush l deg) ≤ length l)%nat.
Proof.
  revert deg. induction l as [|a l IH]; intros deg; [done|].
  rewrite relaxPush_cons, length_app. specialize (IH (<[a:=or0 (deg !! a) - 1]> deg)).
  destruct (decide _); simpl; lia.
Qed.

Lemma relaxPush_subseteq l deg v : v ∈ relaxPush l deg → v ∈ l.
Proof.
  revert deg. induction l as [|a l IH]; intros deg.
  - by unfold relaxPush.
  - rewrite relaxPush_cons, elem_of_app, elem_of_cons. intros [H|H].
    + destruct (decide _); [|by apply elem_of_nil in H].
      apply list_elem_of_singleton in H. by left.
    + right. by eapply IH.
Qed.

Lemma countId_cons v a l :
  countId v (a :: l) = (if decide (a = v) then 1 else 0) + countId v l.
Proof.
  unfold countId. rewrite filter_cons.
  destruct (decide (a = v)); simpl; lia.
Qed.

Lemma countId_nonneg v l : 0 ≤ countId v l.
Proof. unfold countId. lia. Qed.

Lemma countId_pos v l : 0 < countId v l → v ∈ l.
Proof.
  induction l as [|a l IH]; [unfold countId; simpl; lia|].
  rewrite countId_cons, elem_of_cons.
  destruct (decide (a = v)); [by left; auto|]. intros H. right. apply IH. lia.
Qed.

Lemma countId_notin v l : v ∉ l → countId v l = 0.
Proof.
  intros H. pose proof (countId_nonneg v l).
  destruct (decide (countId v l = 0)); [done|].
  exfalso. apply H, countId_pos. lia.
Qed.

Lemma relaxDeg_lookup l deg v :
  or0 (relaxDeg l deg !! v) = or0 (deg !! v) - countId v l.
Proof.
  revert deg. induction l as [|a l IH]; intros deg.
  - unfold relaxDeg, countId. simpl. lia.
  - rewrite relaxDeg_cons, IH, countId_cons.
    destruct (decide (a = v)) as [->|Hne].
    + rewrite lookup_insert_eq. simpl. lia.
    + rewrite lookup_insert_ne by done. lia.
Qed.

Lemma relaxPush_elem l deg v :
  (∀ w, countId w l ≤ or0 (deg !! w)) →
  v ∈ relaxPush l deg ↔ v ∈ l ∧ or0 (deg !! v) = countId v l.
Proof.
  revert deg. induction l as [|a l IH]; intros deg Hle.
  - unfold relaxPush. simpl. rewrite elem_of_nil. tauto.
  - rewrite relaxPush_cons, elem_of_app, IH.
    2:{ intros w. specialize (Hle w). rewrite countId_cons in Hle.
        destruct (decide (a = w)) as [->|Hne].
        - rewrite lookup_insert_eq. simpl. lia.
        - rewrite lookup_insert_ne by done. lia. }
    rewrite elem_of_cons, countId_cons.
    pose proof (Hle a) as Ha. rewrite countId_cons in Ha.
    rewrite decide_True in Ha by done.
    pose proof (countId_nonneg a l).
    destruct (decide (a = v)) as [->|Hne].
    + rewrite lookup_insert_eq. simpl.
      destruct (decide (or0 (deg !! v) - 1 = 0)) as [Hz|Hz].
      * rewrite list_elem_of_singleton. split; [|by left].
        intros _. split; [by left|lia].
      * rewrite elem_of_nil. split.
        -- intros [[]|[Hin Heq]]. split; [by left|lia].
        -- intros [_ Heq]. right. split; [|lia].
           apply countId_pos. lia.
    + rewrite lookup_insert_ne by done.
      destruct (decide (or0 (deg !! a) - 1 = 0)).
      * rewrite list_elem_of_singleton. split.
        -- intros [->|[? ?]]; [done|]. split; [by right|lia].
        -- intros [[->|?] ?]; [done|]. right. split; [done|lia].
      * rewrite elem_of_nil. split.
        -- intros [[]|[? ?]]. split; [by right|lia].
        -- intros [[->|?] ?]; [done|]. right. split; [done|lia].
Qed.
(** ** One visit *)

Lemma visit_seen byId adj deg vis c rest sorted :
  c ∈ vis → visit byId adj deg vis c rest sorted = mkState deg vis rest sorted.
Proof. intros H. unfold visit. by rewrite decide_True. Qed.

Lemma visit_new byId adj deg vis c rest sorted :
  c ∉ vis →
  visit byId adj deg vis c rest sorted
  = mkState (relaxDeg (default [] (adj !! c)) deg) ({[c]} ∪ vis)
            (rest ++ relaxPush (default [] (adj !! c)) deg)
            (sorted ++ emit byId c).
Proof.
  intros H. unfold visit, emit. rewrite decide_False by done.
  rewrite fold_relax. simpl.
  destruct (byId !! c); [done|by rewrite app_nil_r].
Qed.

Lemma nodeById_keyed l : keyed (nodeById l).
Proof. intros i n H. by apply nodeById_Some in H as [_ ?]. Qed.

(** ** The emitted nodes *)

Lemma emitted_ok_visit byId adj deg vis c rest q sorted :
  keyed byId →
  emitted_ok byId (mkState deg vis q sorted) →
  emitted_ok byId (visit byId adj deg vis c rest sorted).
Proof.
  intros Hk [Hnd Hby Hvis]. simpl in *.
  destruct (decide (c ∈ vis)) as [Hc|Hc].
  { rewrite visit_seen by done. by split. }
  rewrite visit_new by done. unfold emit.
  destruct (byId !! c) as [n|] eqn:Hn.
  - pose proof (Hk _ _ Hn) as Hid.
    split; simpl.
    + unfold ids in *. rewrite fmap_app. simpl. apply NoDup_app. split; [done|].
      split; [|apply NoDup_singleton].
      intros i Hi Hi'. apply list_elem_of_singleton in Hi'. subst i.
      apply Hvis in Hi as [Hin _]. congruence.
    + intros m. rewrite elem_of_app, list_elem_of_singleton.
      intros [Hm| ->]; [by apply Hby|congruence].
    + intros i. unfold ids in *. rewrite fmap_app, elem_of_app. simpl.
      rewrite list_elem_of_singleton, Hvis, elem_of_union, elem_of_singleton.
      split.
      * intros [[? ?]| ->]; [by auto|]. split; [by left|]. rewrite Hid. by eauto.
      * intros [[->|Hi] Hs]; [right; congruence|by left].
  - rewrite app_nil_r. split; simpl; [done|done|].
    intros i. rewrite Hvis, elem_of_union, elem_of_singleton.
    split; [intros [? ?]; by auto|].
    intros [[->|Hi] Hs]; [|done]. rewrite Hn in Hs. by destruct Hs.
Qed.

Lemma emitted_ok_body l byId adj s s' :
  keyed byId → loopBody l byId adj s = Some s' →
  emitted_ok byId s → emitted_ok byId s'.
Proof.
  intros Hk Hb Hok. unfold loopBody in Hb. destruct s as [deg vis q sorted].
  simpl in Hb. destruct q as [|c rest].
  - destruct (firstUnvisited l vis) as [u|]; [|done].
    injection Hb as <-. by eapply emitted_ok_visit.
  - injection Hb as <-. by eapply emitted_ok_visit.
Qed.

Lemma kahnLoop_exit l byId adj fuel s sf :
  keyed byId → kahnLoop l byId adj fuel s = Some sf →
  emitted_ok byId s → emitted_ok byId sf ∧ exited l byId adj sf.
Proof.
  intros Hk. revert s. induction fuel as [|fuel IH]; intros s Hrun Hok; simpl in Hrun.
  - case_decide; [done|]. injection Hrun as <-. split; [done|by left].
  - case_decide as Hlen.
    + destruct (loopBody l byId adj s) as [s'|] eqn:Hb.
      * eapply IH; [done|]. by eapply emitted_ok_body.
      * injection Hrun as <-. split; [done|by right].
    + injection Hrun as <-. split; [done|by left].
Qed.

Lemma emitted_ok_init l es byId : emitted_ok byId (initState l es).
Proof.
  split; simpl.
  - apply NoDup_nil_2.
  - intros n Hn%elem_of_nil. done.
  - intros i. rewrite elem_of_nil. split; [done|].
    intros [Hi _]. by apply elem_of_empty in Hi.
Qed.

Lemma firstUnvisited_None l vis :
  firstUnvisited l vis = None → ∀ n, n ∈ l → node_id n ∈ vis.
Proof.
  unfold firstUnvisited. intros H n Hn.
  apply list_elem_of_In in Hn.
  pose proof (find_none _ _ H _ Hn) as Hf. simpl in Hf.
  apply bool_decide_eq_false in Hf. by apply dec_stable.
Qed.

Lemma firstUnvisited_Some l vis u :
  firstUnvisited l vis = Some u → u ∈ l ∧ node_id u ∉ vis.
Proof.
  unfold firstUnvisited. intros H. apply find_some in H as [Hin Hf].
  apply list_elem_of_In in Hin. by apply bool_decide_eq_true in Hf.
Qed.

Lemma idSet_size l : (size (idSet l) ≤ length l)%nat.
Proof.
  unfold idSet, ids. induction l as [|n l IH].
  - rewrite fmap_nil, list_to_set_nil, size_empty. done.
  - rewrite fmap_cons, list_to_set_cons, size_union_alt, size_singleton.
    assert (size (list_to_set (node_id <$> l) ∖ {[node_id n]} : gset Z)
            ≤ size (list_to_set (node_id <$> l) : gset Z))%nat as Hle.
    { apply subseteq_size. apply subseteq_difference_l. done. }
    simpl. lia.
Qed.

(** At the exit of the loop every input id has been emitted. *)
Lemma exit_covers l adj s :
  emitted_ok (nodeById l) s → exited l (nodeById l) adj s →
  ∀ i, i ∈ ids (sortedNodes s) ↔ i ∈ ids l.
Proof.
  intros [Hnd Hby Hvis] Hex i. split.
  { intros Hi. apply Hvis in Hi as [_ Hs]. by apply nodeById_is_Some. }
  destruct Hex as [Hlen|Hbrk].
  - (* as many distinct emitted ids as there are input nodes *)
    assert (Hsub : list_to_set (ids (sortedNodes s)) ⊆ idSet l).
    { intros j Hj. apply elem_of_list_to_set in Hj. apply Hvis in Hj as [_ Hj].
      apply nodeById_is_Some in Hj. by apply elem_of_list_to_set. }
    assert (Hsz : size (list_to_set (ids (sortedNodes s)) : gset Z)
                  = length (sortedNodes s)).
    { rewrite size_list_to_set by done. unfold ids. by rewrite length_fmap. }
    pose proof (idSet_size l) as Hle.
    assert (Heq : (list_to_set (ids (sortedNodes s)) : gset Z) = idSet l).
    { apply set_eq. apply set_subseteq_size_equiv; [done|]. lia. }
    intros Hi. apply (elem_of_list_to_set (C:=gset Z)). rewrite Heq.
    by apply elem_of_list_to_set.
  - unfold loopBody in Hbrk. destruct (queue s); [|done].
    destruct (firstUnvisited l (visited s)) eqn:Hf; [done|].
    intros Hi. apply Hvis. split; [|by apply nodeById_is_Some].
    unfold ids in Hi. apply list_elem_of_fmap in Hi as (n & -> & Hn).
    by eapply firstUnvisited_None.
Qed.
(** ** Termination of the loop *)

Lemma unvisited_edges_visit es (V : gset Z) c :
  c ∉ V →
  length (filter (fun e => edge_from e ∉ V) es)
  = (length (filter (fun e => edge_from e ∉ {[c]} ∪ V) es)
     + length (outNeighbors es c))%nat.
Proof.
  intros Hc. unfold outNeighbors. rewrite length_fmap.
  induction es as [|e es IH]; [done|].
  rewrite !filter_cons.
  destruct (decide (edge_from e = c)) as [->|Hne].
  - rewrite decide_True by done. rewrite decide_False by set_solver.
    simpl. lia.
  - destruct (decide (edge_from e ∉ V)) as [Hv|Hv].
    + rewrite decide_True by set_solver. simpl. lia.
    + rewrite decide_False by set_solver. done.
Qed.

Lemma unvisited_nodes_visit_le (l : list RouteNode) (V : gset Z) c :
  (length (filter (fun n => node_id n ∉ {[c]} ∪ V) l)
   ≤ length (filter (fun n => node_id n ∉ V) l))%nat.
Proof.
  induction l as [|n l IH]; [done|].
  rewrite !filter_cons.
  destruct (decide (node_id n ∉ {[c]} ∪ V)) as [Hv|Hv].
  - rewrite decide_True by set_solver. simpl. lia.
  - destruct (decide (node_id n ∉ V)); simpl; lia.
Qed.

Lemma unvisited_nodes_visit_lt (l : list RouteNode) (V : gset Z) u :
  u ∈ l → node_id u ∉ V →
  (length (filter (fun n => node_id n ∉ {[node_id u]} ∪ V) l)
   < length (filter (fun n => node_id n ∉ V) l))%nat.
Proof.
  intros Hu Hv. induction l as [|n l IH]; [by apply elem_of_nil in Hu|].
  rewrite !filter_cons.
  pose proof (unvisited_nodes_visit_le l V (node_id u)) as Hle.
  destruct (decide (node_id n = node_id u)) as [Heq|Hne].
  - rewrite decide_False by set_solver.
    rewrite decide_True by (by rewrite Heq). simpl. lia.
  - apply elem_of_cons in Hu as [->|Hu]; [done|].
    specialize (IH Hu).
    destruct (decide (node_id n ∉ V)) as [Hn|Hn].
    + rewrite decide_True by set_solver. simpl. lia.
    + rewrite decide_False by set_solver. done.
Qed.

(** Every iteration that does not leave the loop decreases the
    measure. *)
Lemma loopBody_decreases l l0 es byId s s' :
  loopBody l byId (buildGraph l0 es).1 s = Some s' →
  (kahnMeasure l es s' < kahnMeasure l es s)%nat.
Proof.
  intros Hb. unfold loopBody in Hb. destruct s as [deg vis q sorted].
  simpl in Hb. unfold kahnMeasure. simpl.
  destruct q as [|c rest].
  - destruct (firstUnvisited l vis) as [u|] eqn:Hu; [|done].
    apply firstUnvisited_Some in Hu as [Hin Hv].
    injection Hb as <-. rewrite visit_new by done. simpl.
    rewrite adjacency_lookup.
    pose proof (relaxPush_length (outNeighbors es (node_id u)) deg).
    pose proof (unvisited_edges_visit es vis (node_id u) Hv).
    pose proof (unvisited_nodes_visit_lt l vis u Hin Hv).
    lia.
  - injection Hb as <-. destruct (decide (c ∈ vis)) as [Hc|Hc].
    + rewrite visit_seen by done. simpl. lia.
    + rewrite visit_new by done. simpl. rewrite adjacency_lookup, length_app.
      pose proof (relaxPush_length (outNeighbors es c) deg).
      pose proof (unvisited_edges_visit es vis c Hc).
      pose proof (unvisited_nodes_visit_le l vis c).
      lia.
Qed.

Lemma kahnLoop_fuel_enough l l0 es byId fuel s :
  (kahnMeasure l es s < fuel)%nat →
  is_Some (kahnLoop l byId (buildGraph l0 es).1 fuel s).
Proof.
  revert s. induction fuel as [|fuel IH]; intros s Hm; [lia|].
  simpl. case_decide; [|by eauto].
  destruct (loopBody l byId (buildGraph l0 es).1 s) as [s'|] eqn:Hb; [|by eauto].
  apply IH. apply loopBody_decreases in Hb. lia.
Qed.

Lemma kahnLoop_fuel_mono l byId adj fuel fuel' s sf :
  kahnLoop l byId adj fuel s = Some sf → (fuel ≤ fuel')%nat →
  kahnLoop l byId adj fuel' s = Some sf.
Proof.
  revert fuel' s. induction fuel as [|fuel IH]; intros fuel' s Hrun Hle.
  - simpl in Hrun. case_decide; [done|].
    destruct fuel'; simpl; by rewrite decide_False.
  - destruct fuel' as [|fuel']; [lia|]. simpl in *.
    case_decide; [|done].
    destruct (loopBody l byId adj s) as [s'|]; [|done].
    apply IH; [done|lia].
Qed.

Lemma initState_measure l es :
  (kahnMeasure l es (initState l es) < reorderFuel l es)%nat.
Proof.
  unfold kahnMeasure, reorderFuel, initState. simpl.
  rewrite roots_filter.
  assert (Hl : length (ids l) = length l) by (unfold ids; apply length_fmap).
  match goal with
  | |- (length ?a + length ?b + length ?c < _)%nat =>
      assert (length a ≤ length (ids l))%nat by apply length_filter;
      assert (length b ≤ length es)%nat by apply length_filter;
      assert (length c ≤ length l)%nat by apply length_filter
  end.
  lia.
Qed.

(** The loop of [reorderNodes] exits within the iterations it is given. *)
Lemma runKahn_is_Some l es : is_Some (runKahn l es).
Proof.
  unfold runKahn. apply kahnLoop_fuel_enough, initState_measure.
Qed.

Lemma runKahn_reorderNodes l es :
  ∃ s, runKahn l es = Some s ∧ reorderNodes l es = sortedNodes s.
Proof.
  destruct (runKahn_is_Some l es) as [s Hs]. exists s.
  unfold reorderNodes. by rewrite Hs.
Qed.

(** ** The output in general *)

Lemma reorderNodes_emitted l es :
  ∃ s, runKahn l es = Some s ∧ reorderNodes l es = sortedNodes s
       ∧ emitted_ok (nodeById l) s
       ∧ exited l (nodeById l) (buildGraph l es).1 s.
Proof.
  destruct (runKahn_reorderNodes l es) as (s & Hrun & Hout).
  exists s. split; [done|]. split; [done|].
  eapply kahnLoop_exit; [apply nodeById_keyed|exact Hrun|apply emitted_ok_init].
Qed.

Lemma reorderNodes_ids_NoDup l es : NoDup (ids (reorderNodes l es)).
Proof.
  destruct (reorderNodes_emitted l es) as (s & _ & -> & [Hnd _ _] & _). done.
Qed.

Lemma reorderNodes_ids_elem l es i :
  i ∈ ids (reorderNodes l es) ↔ i ∈ ids l.
Proof.
  destruct (reorderNodes_emitted l es) as (s & _ & -> & Hok & Hex).
  by eapply exit_covers.
Qed.

Lemma reorderNodes_byId l es n :
  n ∈ reorderNodes l es → nodeById l !! node_id n = Some n.
Proof.
  destruct (reorderNodes_emitted l es) as (s & _ & -> & [_ Hby _] & _).
  apply Hby.
Qed.

Lemma reorderNodes_idSet l es : idSet (reorderNodes l es) = idSet l.
Proof.
  apply set_eq. intros i. unfold idSet.
  rewrite !elem_of_list_to_set. apply reorderNodes_ids_elem.
Qed.

Lemma reorderNodes_length l es :
  length (reorderNodes l es) = size (idSet l).
Proof.
  rewrite <- (reorderNodes_idSet l es). unfold idSet.
  rewrite size_list_to_set by apply reorderNodes_ids_NoDup.
  unfold ids. by rewrite length_fmap.
Qed.

(** With pairwise distinct ids the id-to-node map returns every node. *)
Lemma nodeById_NoDup l n :
  NoDup (ids l) → n ∈ l → nodeById l !! node_id n = Some n.
Proof.
  intros Hnd Hn. rewrite nodeById_lookup.
  induction l as [|m l IH] using rev_ind; [by apply elem_of_nil in Hn|].
  unfold ids in Hnd. rewrite fmap_app in Hnd. apply NoDup_app in Hnd as (Hnd & Hdisj & _).
  rewrite filter_app, filter_cons, filter_nil.
  apply elem_of_app in Hn as [Hn|Hn].
  - rewrite decide_False.
    + rewrite app_nil_r. by apply IH.
    + intros Heq. apply (Hdisj (node_id n)).
      * by apply list_elem_of_fmap_2.
      * simpl. rewrite Heq. by apply list_elem_of_singleton.
  - apply list_elem_of_singleton in Hn as ->.
    rewrite decide_True by done. by rewrite last_snoc.
Qed.

Lemma reorderNodes_distinct_ids l es :
  NoDup (ids l) → reorderNodes l es ≡ₚ l.
Proof.
  intros Hnd.
  pose proof (reorderNodes_ids_NoDup l es) as Hnd'.
  apply NoDup_Permutation.
  - by apply NoDup_fmap_1 in Hnd'.
  - by apply NoDup_fmap_1 in Hnd.
  - intros n. split.
    + intros Hn. apply reorderNodes_byId in Hn. by apply nodeById_Some in Hn as [? _].
    + intros Hn.
      assert (Hi : node_id n ∈ ids (reorderNodes l es)).
      { apply reorderNodes_ids_elem. by apply list_elem_of_fmap_2. }
      unfold ids in Hi. apply list_elem_of_fmap in Hi as (m & Heq & Hm).
      pose proof (reorderNodes_byId _ _ _ Hm) as Hby.
      rewrite <- Heq, (nodeById_NoDup l n Hnd Hn) in Hby.
      by injection Hby as ->.
Qed.
(** ** Kahn's algorithm on an acyclic graph *)

Lemma indegOf_nonneg es V v : 0 ≤ indegOf es V v.
Proof. unfold indegOf. lia. Qed.

Lemma indegOf_visit es (V : gset Z) c v :
  c ∉ V →
  indegOf es ({[c]} ∪ V) v = indegOf es V v - countId v (outNeighbors es c).
Proof.
  intros Hc. unfold indegOf, outNeighbors.
  induction es as [|e es IH]; [done|].
  rewrite !filter_cons.
  destruct (decide (edge_from e = c)) as [Hf|Hf].
  - rewrite (decide_False (P := _ ∧ edge_from e ∉ {[c]} ∪ V)) by set_solver.
    rewrite fmap_cons, countId_cons.
    destruct (decide (edge_to e = v)) as [Ht|Ht].
    + rewrite decide_True by (split; [done|congruence]).
      simpl. lia.
    + rewrite decide_False by tauto. lia.
  - destruct (decide (edge_to e = v ∧ edge_from e ∉ V)) as [Hv|Hv].
    + rewrite decide_True by set_solver. simpl. lia.
    + rewrite decide_False by set_solver. done.
Qed.

Lemma indegOf_zero es V v :
  indegOf es V v = 0 ↔ ∀ e, e ∈ es → edge_to e = v → edge_from e ∈ V.
Proof.
  unfold indegOf. split.
  - intros H e He Ht. destruct (decide (edge_from e ∈ V)) as [|Hn]; [done|].
    assert (Hin : e ∈ filter (fun e => edge_to e = v ∧ edge_from e ∉ V) es)
      by (apply list_elem_of_filter; auto).
    destruct (filter _ es); [by apply elem_of_nil in Hin|simpl in H; lia].
  - intros H.
    assert (Hnil : filter (fun e => edge_to e = v ∧ edge_from e ∉ V) es = []).
    { apply elem_of_nil_inv. intros e He.
      apply list_elem_of_filter in He as [[Ht Hf] He]. by apply Hf, H. }
    by rewrite Hnil.
Qed.

Lemma indegOf_empty l es v : indegOf es ∅ v = or0 ((buildGraph l es).2 !! v).
Proof.
  rewrite inDegree_lookup. unfold indegOf. f_equal. f_equal.
  induction es as [|e es IH]; [done|].
  rewrite !filter_cons.
  destruct (decide (edge_to e = v)).
  - rewrite decide_True by set_solver. by rewrite IH.
  - rewrite decide_False by tauto. done.
Qed.

Lemma tc_flip_edgeRel es u v :
  tc (flip (edgeRel es)) u v → tc (edgeRel es) v u.
Proof.
  induction 1 as [x y H|x y z H _ IH].
  - by apply tc_once.
  - eapply tc_r; [exact IH|exact H].
Qed.

(** On an acyclic graph the predecessor relation is well founded. *)
Lemma acyclic_Acc es v : acyclic es → Acc (edgeRel es) v.
Proof.
  intros Hac.
  apply (tc_finite_sn (R:=flip (edgeRel es)) v).
  - intros x Hx. apply (Hac x). by apply tc_flip_edgeRel.
  - exists (edge_from <$> es). intros u Hu.
    induction Hu as [x y (e & He & Hf & Ht)|x y z _ _ IH]; [|done].
    subst y. by apply list_elem_of_fmap_2.
Qed.

(** Among unvisited ids there is one whose predecessors are all
    visited. *)
Lemma exists_ready l es (V : gset Z) v :
  acyclic es → overNodes l es → v ∈ ids l → v ∉ V →
  ∃ w, w ∈ ids l ∧ (w ∉ V) ∧ indegOf es V w = 0.
Proof.
  intros Hac Hov. induction (acyclic_Acc es v Hac) as [v _ IH].
  intros Hv HvV.
  destruct (decide (indegOf es V v = 0)) as [Hz|Hz]; [by eauto|].
  assert (Hex : ∃ e, e ∈ es ∧ edge_to e = v ∧ edge_from e ∉ V).
  { unfold indegOf in Hz.
    destruct (filter (fun e => edge_to e = v ∧ edge_from e ∉ V) es) as [|e k] eqn:Hk;
      [done|].
    assert (Hin : e ∈ filter (fun e => edge_to e = v ∧ edge_from e ∉ V) es)
      by (rewrite Hk; by left).
    apply list_elem_of_filter in Hin as [[? ?] ?]. by eauto. }
  destruct Hex as (e & He & Ht & Hf).
  apply (IH (edge_from e)).
  - by exists e.
  - by apply Hov.
  - done.
Qed.

Lemma before_app out k u v : before out u v → before (out ++ k) u v.
Proof.
  intros (i & j & nu & nv & Hi & Hj & ? & ? & ?).
  exists i, j, nu, nv. split_and!; try done.
  - by apply lookup_app_l_Some.
  - by apply lookup_app_l_Some.
Qed.

Lemma before_snoc out n u :
  u ∈ ids out → before (out ++ [n]) u (node_id n).
Proof.
  intros Hu. unfold ids in Hu. apply list_elem_of_fmap in Hu as (nu & -> & Hnu).
  apply list_elem_of_lookup in Hnu as [i Hi].
  exists i, (length out), nu, n. split_and!; try done.
  - by apply lookup_app_l_Some.
  - by rewrite lookup_app_r, Nat.sub_diag.
  - by eapply lookup_lt_Some.
Qed.

Lemma dag_ok_init l es : dag_ok l es (initState l es).
Proof.
  split; simpl.
  - intros v. by rewrite (indegOf_empty l).
  - intros v. rewrite roots_filter, list_elem_of_filter.
    intros [Hz _]. by rewrite (indegOf_empty l).
  - intros n Hn _ Hz. rewrite roots_filter, list_elem_of_filter.
    split; [by rewrite <- (indegOf_empty l)|by apply list_elem_of_fmap_2].
  - intros e _ Hv. by apply elem_of_empty in Hv.
Qed.

Lemma dag_ok_body l es s s' :
  acyclic es → overNodes l es →
  emitted_ok (nodeById l) s → dag_ok l es s →
  loopBody l (nodeById l) (buildGraph l es).1 s = Some s' →
  dag_ok l es s'.
Proof.
  intros Hac Hov [Hnd Hby Hvis] [Hdeg Hq Hrq Hord] Hb.
  unfold loopBody in Hb. destruct s as [deg vis q sorted]. simpl in *.
  destruct q as [|c rest].
  { (* the restart can only happen on a graph with a cycle *)
    exfalso. destruct (firstUnvisited l vis) as [u|] eqn:Hu; [|done].
    apply firstUnvisited_Some in Hu as [Hin Hv].
    destruct (exists_ready l es vis (node_id u) Hac Hov) as (w & Hw & HwV & Hz);
      [by apply list_elem_of_fmap_2|done|].
    unfold ids in Hw. apply list_elem_of_fmap in Hw as (n & -> & Hn).
    specialize (Hrq n Hn HwV Hz). by apply elem_of_nil in Hrq. }
  injection Hb as <-.
  destruct (decide (c ∈ vis)) as [Hc|Hc].
  { rewrite visit_seen by done. split; simpl; [done| | |done].
    - intros v Hv. apply Hq. by right.
    - intros n Hn HnV Hz. specialize (Hrq n Hn HnV Hz).
      apply elem_of_cons in Hrq as [Heq|?]; [congruence|done]. }
  rewrite visit_new by done. rewrite adjacency_lookup.
  set (nb := outNeighbors es c).
  assert (Hcnt : ∀ w, countId w nb ≤ or0 (deg !! w)).
  { intros w. rewrite Hdeg. pose proof (indegOf_visit es vis c w Hc).
    pose proof (indegOf_nonneg es ({[c]} ∪ vis) w). unfold nb. lia. }
  split; simpl.
  - intros v. rewrite relaxDeg_lookup, Hdeg. symmetry. by apply indegOf_visit.
  - intros v. rewrite indegOf_visit by done. rewrite elem_of_app.
    pose proof (indegOf_nonneg es ({[c]} ∪ vis) v) as Hnn.
    rewrite indegOf_visit in Hnn by done.
    pose proof (countId_nonneg v (outNeighbors es c)).
    intros [Hv|Hv].
    + assert (indegOf es vis v = 0) by (apply Hq; by right). lia.
    + apply relaxPush_elem in Hv as [_ Hv]; [|done].
      rewrite Hdeg in Hv. unfold nb in Hv. lia.
  - intros n Hn HnV Hz. rewrite indegOf_visit in Hz by done.
    rewrite elem_of_app.
    destruct (decide (indegOf es vis (node_id n) = 0)) as [Hz'|Hz'].
    + left. assert (HnV' : node_id n ∉ vis) by set_solver.
      specialize (Hrq n Hn HnV' Hz').
      apply elem_of_cons in Hrq as [Heq|?]; [|done].
      exfalso. apply HnV. rewrite Heq. set_solver.
    + right. apply relaxPush_elem; [done|].
      pose proof (indegOf_nonneg es vis (node_id n)).
      split; [apply countId_pos; fold nb in Hz; lia|].
      rewrite Hdeg. fold nb in Hz. lia.
  - intros e He Hv. apply elem_of_union in Hv as [Hv|Hv].
    + apply elem_of_singleton in Hv.
      destruct (Hov e He) as [Hfrom Hto].
      assert (Hz : indegOf es vis c = 0) by (apply Hq; by left).
      assert (HfV : edge_from e ∈ vis).
      { eapply indegOf_zero; [exact Hz|exact He|done]. }
      assert (Hfs : edge_from e ∈ ids sorted).
      { apply Hvis. split; [done|]. by apply nodeById_is_Some. }
      rewrite Hv in Hto. apply nodeById_is_Some in Hto as [n Hn].
      unfold emit. rewrite Hn.
      pose proof (nodeById_keyed l _ _ Hn) as Hid.
      rewrite Hv, <- Hid. by apply before_snoc.
    + apply before_app. by apply Hord.
Qed.

Lemma kahnLoop_dag l es fuel s sf :
  acyclic es → overNodes l es →
  kahnLoop l (nodeById l) (buildGraph l es).1 fuel s = Some sf →
  emitted_ok (nodeById l) s → dag_ok l es s → dag_ok l es sf.
Proof.
  intros Hac Hov. revert s.
  induction fuel as [|fuel IH]; intros s Hrun Hok Hdag; simpl in Hrun.
  - case_decide; [done|]. by injection Hrun as <-.
  - case_decide; [|by injection Hrun as <-].
    destruct (loopBody l (nodeById l) (buildGraph l es).1 s) as [s'|] eqn:Hb;
      [|by injection Hrun as <-].
    apply (IH s'); [done| |].
    + eapply emitted_ok_body; [apply nodeById_keyed|exact Hb|done].
    + by eapply dag_ok_body.
Qed.

(** On an acyclic graph over the node set the output respects every
    edge. *)
Lemma reorderNodes_topological l es :
  acyclic es → overNodes l es →
  ∀ e, e ∈ es → before (reorderNodes l es) (edge_from e) (edge_to e).
Proof.
  intros Hac Hov e He.
  destruct (reorderNodes_emitted l es) as (s & Hrun & -> & Hok & Hex).
  assert (Hdag : dag_ok l es s).
  { eapply kahnLoop_dag; [done|done|exact Hrun|apply emitted_ok_init|apply dag_ok_init]. }
  apply (order_ok _ _ _ Hdag); [done|].
  destruct (Hov e He) as [_ Hto].
  eapply (exit_covers l _ s Hok Hex) in Hto.
  by apply (emitted_visited _ _ Hok) in Hto as [? _].
Qed.
(** ** Runs of the loop *)

Lemma runsTo_exit l byId adj s :
  ¬ (length (sortedNodes s) < length l)%nat → runsTo l byId adj s s.
Proof. intros H. exists O. simpl. by rewrite decide_False. Qed.

Lemma runsTo_step l byId adj s s' sf :
  (length (sortedNodes s) < length l)%nat →
  loopBody l byId adj s = Some s' →
  runsTo l byId adj s' sf → runsTo l byId adj s sf.
Proof.
  intros Hlen Hb [fuel Hrun]. exists (S fuel). simpl.
  rewrite decide_True by done. by rewrite Hb.
Qed.

Lemma runsTo_inv l byId adj s sf :
  runsTo l byId adj s sf → (length (sortedNodes s) < length l)%nat →
  (loopBody l byId adj s = None ∧ sf = s)
  ∨ ∃ s', loopBody l byId adj s = Some s' ∧ runsTo l byId adj s' sf.
Proof.
  intros [fuel Hrun] Hlen. destruct fuel as [|fuel]; simpl in Hrun;
    rewrite decide_True in Hrun by done; [done|].
  destruct (loopBody l byId adj s) as [s'|].
  - right. exists s'. split; [done|by exists fuel].
  - left. by injection Hrun as <-.
Qed.

Lemma runsTo_det l byId adj s sf fuel sf' :
  runsTo l byId adj s sf → kahnLoop l byId adj fuel s = Some sf' → sf' = sf.
Proof.
  intros [fuel0 Hrun] Hrun'.
  apply (kahnLoop_fuel_mono _ _ _ _ (fuel0 + fuel)) in Hrun; [|lia].
  apply (kahnLoop_fuel_mono _ _ _ _ (fuel0 + fuel)) in Hrun'; [|lia].
  congruence.
Qed.

Lemma loopBody_sorted_prefix l byId adj s s' :
  loopBody l byId adj s = Some s' → sortedNodes s `prefix_of` sortedNodes s'.
Proof.
  intros Hb. unfold loopBody in Hb. destruct s as [deg vis q sorted]. simpl in *.
  assert (Hv : ∀ c rest, sorted `prefix_of`
                 sortedNodes (visit byId adj deg vis c rest sorted)).
  { intros c rest. destruct (decide (c ∈ vis)).
    - by rewrite visit_seen.
    - rewrite visit_new by done. simpl. by apply prefix_app_r. }
  destruct q as [|c rest].
  - destruct (firstUnvisited l vis); [|done]. injection Hb as <-. apply Hv.
  - injection Hb as <-. apply Hv.
Qed.

Lemma runsTo_sorted_prefix l byId adj s sf :
  runsTo l byId adj s sf → sortedNodes s `prefix_of` sortedNodes sf.
Proof.
  intros [fuel Hrun]. revert s Hrun.
  induction fuel as [|fuel IH]; intros s Hrun; simpl in Hrun.
  - case_decide; [done|]. by injection Hrun as <-.
  - case_decide; [|by injection Hrun as <-].
    destruct (loopBody l byId adj s) as [s'|] eqn:Hb; [|by injection Hrun as <-].
    etrans; [by eapply loopBody_sorted_prefix|by apply IH].
Qed.

(** ** Queues that lead to the same visits *)

Lemma simq_refl V q : simq V q q.
Proof.
  revert V. induction q as [|h q IH]; intros V; [constructor|].
  destruct (decide (h ∈ V)).
  - apply simq_skip_l; [done|]. by apply simq_skip_r.
  - by apply simq_both.
Qed.

Lemma simq_app V q1 q2 p : simq V q1 q2 → simq V (q1 ++ p) (q2 ++ p).
Proof.
  induction 1; simpl.
  - apply simq_refl.
  - by apply simq_skip_l.
  - by apply simq_skip_r.
  - by apply simq_both.
Qed.

Lemma simq_dedupV V q : simq V q (dedupV V q).
Proof.
  revert V. induction q as [|h q IH]; intros V; simpl; [constructor|].
  destruct (decide (h ∈ V)).
  - by apply simq_skip_l.
  - by apply simq_both.
Qed.

Lemma dedupV_elem V q v : v ∈ dedupV V q ↔ v ∈ q ∧ v ∉ V.
Proof.
  revert V. induction q as [|h q IH]; intros V; simpl.
  - rewrite elem_of_nil. tauto.
  - destruct (decide (h ∈ V)) as [Hh|Hh].
    + rewrite IH, elem_of_cons. split; [tauto|].
      intros [[->|?] ?]; [done|tauto].
    + rewrite !elem_of_cons, IH. split.
      * intros [->|[? ?]]; [tauto|]. split; [tauto|set_solver].
      * intros [[->|?] ?]; [tauto|].
        destruct (decide (v = h)); [tauto|]. right. split; [done|set_solver].
Qed.

Lemma dedupV_app_filter (P : Z → Prop) `{∀ x, Decision (P x)} V a b :
  (∀ v, v ∈ b → ¬ P v) →
  filter P (dedupV V (a ++ b)) = filter P (dedupV V a).
Proof.
  intros Hb. revert V. induction a as [|h a IH]; intros V; simpl.
  - apply elem_of_nil_inv. intros v Hv.
    apply list_elem_of_filter in Hv as [HP Hv].
    apply dedupV_elem in Hv as [Hv _]. by apply (Hb v).
  - destruct (decide (h ∈ V)); [by apply IH|].
    rewrite !filter_cons. by rewrite IH.
Qed.
(** ** Where the start nodes end up *)

Lemma outNeighbors_not_root l es u v :
  v ∈ outNeighbors es u → ¬ isRoot (buildGraph l es).2 v.
Proof.
  unfold outNeighbors, isRoot. intros Hv.
  apply list_elem_of_fmap in Hv as (e & -> & He).
  apply list_elem_of_filter in He as [_ He].
  rewrite inDegree_lookup.
  assert (Hin : e ∈ filter (fun e' => edge_to e' = edge_to e) es)
    by (by apply list_elem_of_filter).
  destruct (filter _ es); [by apply elem_of_nil in Hin|simpl; lia].
Qed.

Lemma filter_all {A} (P : A → Prop) `{∀ x, Decision (P x)} (k : list A) :
  (∀ x, x ∈ k → P x) → filter P k = k.
Proof.
  induction k as [|a k IH]; intros Hk; [done|].
  rewrite filter_cons, decide_True by (apply Hk; by left).
  rewrite IH; [done|]. intros x Hx. apply Hk. by right.
Qed.

Lemma filter_none {A} (P : A → Prop) `{∀ x, Decision (P x)} (k : list A) :
  (∀ x, x ∈ k → ¬ P x) → filter P k = [].
Proof.
  intros Hk. apply elem_of_nil_inv. intros x Hx.
  apply list_elem_of_filter in Hx as [HP Hx]. by apply (Hk x).
Qed.

Lemma emit_ids byId c :
  keyed byId →
  ids (emit byId c) = match byId !! c with Some _ => [c] | None => [] end.
Proof.
  intros Hk. unfold emit. destruct (byId !! c) as [n|] eqn:Hn; [|done].
  simpl. by rewrite (Hk _ _ Hn).
Qed.

Lemma dedupV_cons V h t :
  dedupV V (h :: t)
  = if decide (h ∈ V) then dedupV V t else h :: dedupV ({[h]} ∪ V) t.
Proof. done. Qed.

Lemma roots_ok_visit l es deg vis h t sorted :
  roots_ok l (buildGraph l es).2 (mkState deg vis (h :: t) sorted) →
  roots_ok l (buildGraph l es).2
           (visit (nodeById l) (buildGraph l es).1 deg vis h t sorted).
Proof.
  intros [Hsplit Hq]. cbn [visited queue sortedNodes] in *.
  rewrite dedupV_cons in Hsplit.
  destruct (decide (h ∈ vis)) as [Hh|Hh].
  { rewrite visit_seen by done.
    split; simpl; [done|]. intros v Hv. apply Hq. by right. }
  cbv iota in Hsplit.
  rewrite visit_new by done. rewrite adjacency_lookup.
  split; simpl.
  - rewrite dedupV_app_filter.
    2:{ intros v Hv. apply relaxPush_subseteq in Hv.
        by eapply outNeighbors_not_root. }
    rewrite <- Hsplit. unfold ids. rewrite fmap_app, filter_app.
    fold (ids (emit (nodeById l) h)). rewrite emit_ids by apply nodeById_keyed.
    rewrite filter_cons.
    destruct (decide (isRoot (buildGraph l es).2 h)) as [Hr|Hr].
    + destruct (Hq h) as [Hin|Hn]; [by left| |done].
      apply nodeById_is_Some in Hin as [n Hn]. rewrite Hn.
      rewrite filter_cons, decide_True by done. rewrite filter_nil.
      by rewrite <- app_assoc.
    + destruct (nodeById l !! h).
      * rewrite filter_cons, decide_False by done. rewrite filter_nil.
        by rewrite app_nil_r.
      * rewrite filter_nil. by rewrite app_nil_r.
  - intros v Hv. apply elem_of_app in Hv as [Hv|Hv].
    + apply Hq. by right.
    + right. apply relaxPush_subseteq in Hv. by eapply outNeighbors_not_root.
Qed.

Lemma roots_ok_body l es s s' :
  loopBody l (nodeById l) (buildGraph l es).1 s = Some s' →
  emitted_ok (nodeById l) s →
  roots_ok l (buildGraph l es).2 s → roots_ok l (buildGraph l es).2 s'.
Proof.
  intros Hb [_ _ Hvis] Hr. unfold loopBody in Hb.
  destruct s as [deg vis q sorted]. simpl in *.
  destruct q as [|c rest]; [|injection Hb as <-; by apply roots_ok_visit].
  destruct (firstUnvisited l vis) as [u|] eqn:Hu; [|done].
  apply firstUnvisited_Some in Hu as [Hin Hv].
  injection Hb as <-. apply roots_ok_visit.
  destruct Hr as [Hsplit Hq]. cbn [visited queue sortedNodes] in *.
  assert (Hnr : ¬ isRoot (buildGraph l es).2 (node_id u)).
  { intros Hroot. apply Hv.
    assert (Hd : node_id u ∈ dedupV ∅ (roots l (buildGraph l es).2)).
    { apply dedupV_elem. split; [|by apply not_elem_of_empty].
      rewrite roots_filter. apply list_elem_of_filter.
      split; [done|by apply list_elem_of_fmap_2]. }
    rewrite <- Hsplit, app_nil_r in Hd.
    apply list_elem_of_filter in Hd as [_ Hd]. by apply Hvis in Hd as [? _]. }
  split; cbn [visited queue sortedNodes].
  - rewrite dedupV_cons, decide_False by done.
    rewrite filter_cons, decide_False by done. done.
  - intros v Hv'. apply list_elem_of_singleton in Hv' as ->. left.
    by apply list_elem_of_fmap_2.
Qed.

Lemma roots_ok_init l es : roots_ok l (buildGraph l es).2 (initState l es).
Proof.
  split; simpl.
  - apply filter_all. intros v Hv. apply dedupV_elem in Hv as [Hv _].
    rewrite roots_filter in Hv. by apply list_elem_of_filter in Hv as [? _].
  - intros v Hv. left. rewrite roots_filter in Hv.
    by apply list_elem_of_filter in Hv as [_ ?].
Qed.

Lemma kahnLoop_roots_ok l es fuel s sf :
  kahnLoop l (nodeById l) (buildGraph l es).1 fuel s = Some sf →
  emitted_ok (nodeById l) s →
  roots_ok l (buildGraph l es).2 s → roots_ok l (buildGraph l es).2 sf.
Proof.
  revert s. induction fuel as [|fuel IH]; intros s Hrun Hok Hr; simpl in Hrun.
  - case_decide; [done|]. by injection Hrun as <-.
  - case_decide; [|by injection Hrun as <-].
    destruct (loopBody l (nodeById l) (buildGraph l es).1 s) as [s'|] eqn:Hb;
      [|by injection Hrun as <-].
    apply (IH s'); [done| |].
    + eapply emitted_ok_body; [apply nodeById_keyed|exact Hb|done].
    + by eapply roots_ok_body.
Qed.

(** The start nodes of the output are the start nodes of the input, each
    kept at its first occurrence. *)
Lemma roots_reorderNodes l es :
  roots (reorderNodes l es) (buildGraph l es).2
  = dedupV ∅ (roots l (buildGraph l es).2).
Proof.
  destruct (reorderNodes_emitted l es) as (s & Hrun & -> & Hok & Hex).
  assert (Hr : roots_ok l (buildGraph l es).2 s).
  { eapply kahnLoop_roots_ok; [exact Hrun|apply emitted_ok_init|apply roots_ok_init]. }
  destruct Hr as [Hsplit Hq]. rewrite <- Hsplit, roots_filter.
  rewrite (filter_none _ (dedupV _ _)); [by rewrite app_nil_r|].
  intros v Hv Hroot. apply dedupV_elem in Hv as [Hv HvV].
  destruct (Hq v Hv) as [Hin|?]; [|done].
  apply HvV. eapply (exit_covers l _ s Hok Hex) in Hin.
  by apply (emitted_visited _ _ Hok) in Hin as [? _].
Qed.

Lemma nodeById_reorderNodes l es : nodeById (reorderNodes l es) = nodeById l.
Proof.
  apply map_eq. intros i.
  destruct (nodeById l !! i) as [n|] eqn:Hn.
  - assert (Hi : i ∈ ids (reorderNodes l es)).
    { apply reorderNodes_ids_elem, nodeById_is_Some. by eauto. }
    unfold ids in Hi. apply list_elem_of_fmap in Hi as (m & -> & Hm).
    pose proof (reorderNodes_byId _ _ _ Hm) as Hby.
    rewrite Hn in Hby. injection Hby as ->.
    apply nodeById_NoDup; [apply reorderNodes_ids_NoDup|done].
  - destruct (nodeById (reorderNodes l es) !! i) as [m|] eqn:Hm; [|done].
    assert (Hi : i ∈ ids l).
    { apply (reorderNodes_ids_elem l es), nodeById_is_Some. by eauto. }
    apply nodeById_is_Some in Hi as [? Hi]. congruence.
Qed.
(** ** Feeding the output back in *)

Lemma firstUnvisited_next byId (s : KahnState) k n :
  emitted_ok byId s →
  node_id n ∉ visited s →
  firstUnvisited (sortedNodes s ++ n :: k) (visited s) = Some n.
Proof.
  intros [_ _ Hvis] Hn. unfold firstUnvisited.
  assert (Hall : ∀ m, m ∈ sortedNodes s → node_id m ∈ visited s).
  { intros m Hm. apply (list_elem_of_fmap_2 node_id) in Hm.
    by apply Hvis in Hm as [? _]. }
  revert Hall. generalize (sortedNodes s) as pre.
  induction pre as [|m pre IH]; intros Hall; simpl.
  - by rewrite bool_decide_eq_true_2.
  - rewrite bool_decide_eq_false_2.
    + apply IH. intros m' Hm'. apply Hall. by right.
    + intros Hm. apply Hm, Hall. by left.
Qed.

(** The run over the output of a run follows that run: same in-degrees,
    same visited set, same emitted nodes, and queues that lead to the
    same visits. *)
Lemma rerun_follows l es sf N :
  ∀ s1 s2,
    (kahnMeasure l es s1 + kahnMeasure (sortedNodes sf) es s2 < N)%nat →
    (length (sortedNodes sf) ≤ length l)%nat →
    emitted_ok (nodeById l) s1 →
    runsTo l (nodeById l) (buildGraph l es).1 s1 sf →
    inDegree s1 = inDegree s2 → visited s1 = visited s2 →
    sortedNodes s1 = sortedNodes s2 →
    simq (visited s1) (queue s1) (queue s2) →
    ∃ sf2, runsTo (sortedNodes sf) (nodeById l) (buildGraph l es).1 s2 sf2
           ∧ sortedNodes sf2 = sortedNodes sf.
Proof.
  induction N as [|N IH]; intros s1 s2 HN Hlen Hok Hrun Hdeg Hvis Hsorted Hq; [lia|].
  pose proof (runsTo_sorted_prefix _ _ _ _ _ Hrun) as Hpre.
  destruct (decide (length (sortedNodes s2) < length (sortedNodes sf))%nat)
    as [Hlt|Hge].
  2:{ (* the second run leaves the loop: everything has been emitted *)
    exists s2. split; [by apply runsTo_exit|].
    rewrite <- Hsorted. destruct Hpre as [k Hk].
    rewrite Hk, length_app, <- Hsorted in Hge.
    destruct k; [by rewrite Hk, app_nil_r|simpl in Hge; lia]. }
  assert (Hlt1 : (length (sortedNodes s1) < length l)%nat)
    by (rewrite Hsorted; lia).
  destruct (runsTo_inv _ _ _ _ _ Hrun Hlt1) as [[_ ->]|(s1' & Hb1 & Hrun')].
  { rewrite Hsorted in Hlt. lia. }
  pose proof (emitted_ok_body _ _ _ _ _ (nodeById_keyed l) Hb1 Hok) as Hok'.
  pose proof (loopBody_decreases _ _ _ _ _ _ Hb1) as Hdec1.
  destruct s1 as [deg vis q1 sorted], s2 as [deg2 vis2 q2 sorted2].
  simpl in Hdeg, Hvis, Hsorted, Hq. subst deg2 vis2 sorted2.
  inversion Hq as [V|V h q1' q2' Hh Hq'|V h q1' q2' Hh Hq'|V h q1' q2' Hh Hq'];
    subst.
  - (* both queues are empty: both runs restart from the same node *)
    unfold loopBody in Hb1. simpl in Hb1.
    destruct (firstUnvisited l vis) as [u|] eqn:Hu; [|done].
    apply firstUnvisited_Some in Hu as [Hin Hv].
    injection Hb1 as <-.
    assert (Hn : is_Some (nodeById l !! node_id u))
      by (by apply nodeById_is_Some, list_elem_of_fmap_2).
    destruct Hn as [n Hn].
    pose proof (nodeById_keyed l _ _ Hn) as Hid.
    pose proof (runsTo_sorted_prefix _ _ _ _ _ Hrun') as [k Hk].
    rewrite visit_new in Hk by done. unfold emit in Hk. rewrite Hn in Hk.
    simpl in Hk. rewrite <- app_assoc in Hk. simpl in Hk.
    assert (Hb2 : loopBody (sortedNodes sf) (nodeById l) (buildGraph l es).1
                    (mkState deg vis [] sorted)
                  = Some (visit (nodeById l) (buildGraph l es).1 deg vis
                                (node_id u) [] sorted)).
    { pose proof (firstUnvisited_next (nodeById l) _ k n Hok) as Hnext.
      simpl in Hnext. unfold loopBody. simpl. rewrite Hk.
      rewrite Hnext by (by rewrite Hid). by rewrite Hid. }
    pose proof (loopBody_decreases _ l _ _ _ _ Hb2) as Hdec2.
    destruct (IH (visit (nodeById l) (buildGraph l es).1 deg vis
                        (node_id u) [] sorted)
                 (visit (nodeById l) (buildGraph l es).1 deg vis
                        (node_id u) [] sorted))
      as (sf2 & Hrun2 & Hout); try done; [lia|apply simq_refl|].
    exists sf2. split; [|done]. by eapply runsTo_step.
  - (* the first run skips a visited entry *)
    unfold loopBody in Hb1. simpl in Hb1. injection Hb1 as <-.
    rewrite visit_seen in * by done.
    destruct (IH (mkState deg vis q1' sorted) (mkState deg vis q2 sorted))
      as (sf2 & Hrun2 & Hout); try done.
    { unfold kahnMeasure in *. simpl in *. lia. }
    by exists sf2.
  - (* the second run skips a visited entry *)
    assert (Hb2 : loopBody (sortedNodes sf) (nodeById l) (buildGraph l es).1
                    (mkState deg vis (h :: q2') sorted)
                  = Some (mkState deg vis q2' sorted)).
    { unfold loopBody. simpl. by rewrite visit_seen. }
    pose proof (loopBody_decreases _ l _ _ _ _ Hb2) as Hdec2.
    destruct (IH (mkState deg vis q1 sorted) (mkState deg vis q2' sorted))
      as (sf2 & Hrun2 & Hout); try done; try lia.
    exists sf2. split; [|done]. by eapply runsTo_step.
  - (* both runs visit the same id *)
    unfold loopBody in Hb1. simpl in Hb1. injection Hb1 as <-.
    assert (Hb2 : loopBody (sortedNodes sf) (nodeById l) (buildGraph l es).1
                    (mkState deg vis (h :: q2') sorted)
                  = Some (visit (nodeById l) (buildGraph l es).1 deg vis
                                h q2' sorted)).
    { done. }
    pose proof (loopBody_decreases _ l _ _ _ _ Hb2) as Hdec2.
    destruct (IH (visit (nodeById l) (buildGraph l es).1 deg vis h q1' sorted)
                 (visit (nodeById l) (buildGraph l es).1 deg vis h q2' sorted))
      as (sf2 & Hrun2 & Hout); try done.
    + lia.
    + by rewrite !visit_new.
    + by rewrite !visit_new.
    + by rewrite !visit_new.
    + rewrite !visit_new by done. simpl. by apply simq_app.
    + exists sf2. split; [|done]. by eapply runsTo_step.
Qed.

(** [reorderNodes] is idempotent. *)
Lemma reorderNodes_idem l es :
  reorderNodes (reorderNodes l es) es = reorderNodes l es.
Proof.
  destruct (reorderNodes_emitted l es) as (sf & Hrun & Hout & Hok & Hex).
  pose proof (roots_reorderNodes l es) as Hroots.
  pose proof (nodeById_reorderNodes l es) as HbyId.
  pose proof (reorderNodes_idSet l es) as Hset.
  pose proof (reorderNodes_length l es) as Hlen.
  pose proof (idSet_size l) as Hsz.
  set (out := reorderNodes l es) in *.
  assert (Hdeg : (buildGraph out es).2 = (buildGraph l es).2)
    by (by apply inDegree_ext).
  destruct (rerun_follows l es sf
              (S (kahnMeasure l es (initState l es)
                  + kahnMeasure (sortedNodes sf) es (initState out es)))
              (initState l es) (initState out es))
    as (sf2 & Hrun2 & Hout2).
  - lia.
  - rewrite <- Hout. lia.
  - apply emitted_ok_init.
  - by eexists.
  - simpl. by rewrite Hdeg.
  - done.
  - done.
  - simpl. rewrite Hdeg, Hroots. apply simq_dedupV.
  - destruct (runKahn_reorderNodes out es) as (s2 & Hk2 & ->).
    unfold runKahn in Hk2.
    rewrite HbyId, (adjacency_nodes_irrelevant out l es) in Hk2.
    rewrite <- Hout in Hrun2.
    rewrite (runsTo_det _ _ _ _ _ _ _ Hrun2 Hk2). congruence.
Qed.
(** ** Edges into ids that belong to no node *)

Lemma filter_ext_elem {A} (P1 P2 : A → Prop)
    `{∀ x, Decision (P1 x), ∀ x, Decision (P2 x)} (k : list A) :
  (∀ x, x ∈ k → (P1 x ↔ P2 x)) → filter P1 k = filter P2 k.
Proof.
  induction k as [|a k IH]; intros Hk; [done|].
  assert (Ha : P1 a ↔ P2 a) by (apply Hk; by left).
  rewrite !filter_cons, IH by (intros x Hx; apply Hk; by right).
  destruct (decide (P1 a)), (decide (P2 a)); tauto.
Qed.

Section Dangling.
Variable l : list RouteNode.
Variable es : list RouteEdge.
Hypothesis no_absent_source :
  ∀ e, e ∈ es → edge_to e ∈ ids l → edge_from e ∈ ids l.

Lemma presentEdges_outNeighbors u :
  u ∈ ids l →
  outNeighbors (presentEdges l es) u
  = filter (fun v => v ∈ ids l) (outNeighbors es u).
Proof.
  intros Hu. unfold outNeighbors, presentEdges. clear no_absent_source.
  induction es as [|e k IH]; [done|].
  rewrite (filter_cons (fun e => edge_from e = u)).
  rewrite (filter_cons (fun e => edge_from e ∈ ids l ∧ edge_to e ∈ ids l)).
  destruct (decide (edge_from e = u)) as [Hf|Hf].
  - rewrite fmap_cons, filter_cons.
    destruct (decide (edge_to e ∈ ids l)) as [Ht|Ht].
    + rewrite decide_True by (by rewrite Hf).
      rewrite filter_cons, decide_True by done.
      rewrite fmap_cons. by rewrite IH.
    + rewrite decide_False by tauto. done.
  - destruct (decide (edge_from e ∈ ids l ∧ edge_to e ∈ ids l)); [|done].
    rewrite filter_cons, decide_False by done. done.
Qed.

(** The edges that leave an id of no node lead to ids of no node. *)
Lemma outNeighbors_absent u v :
  u ∉ ids l → v ∈ outNeighbors es u → v ∉ ids l.
Proof using no_absent_source.
  intros Hu Hv Hin. unfold outNeighbors in Hv.
  apply list_elem_of_fmap in Hv as (e & -> & He).
  apply list_elem_of_filter in He as [Hf He].
  apply Hu. rewrite <- Hf. by apply no_absent_source.
Qed.

Lemma presentEdges_inDegree v :
  v ∈ ids l →
  or0 ((buildGraph l es).2 !! v) = or0 ((buildGraph l (presentEdges l es)).2 !! v).
Proof using no_absent_source.
  intros Hv. rewrite !inDegree_lookup. f_equal. f_equal.
  unfold presentEdges. clear -no_absent_source Hv.
  induction es as [|e k IH]; [done|].
  assert (Hk : ∀ e', e' ∈ k → edge_to e' ∈ ids l → edge_from e' ∈ ids l)
    by (intros e' He'; apply no_absent_source; by right).
  assert (He : edge_to e ∈ ids l → edge_from e ∈ ids l)
    by (apply no_absent_source; by left).
  specialize (IH Hk).
  rewrite (filter_cons (fun e => edge_to e = v)).
  rewrite (filter_cons (fun e => edge_from e ∈ ids l ∧ edge_to e ∈ ids l)).
  destruct (decide (edge_to e = v)) as [Ht|Ht].
  - rewrite decide_True by (rewrite Ht; split; [apply He; by rewrite Ht|done]).
    rewrite filter_cons, decide_True by done. simpl. by rewrite IH.
  - destruct (decide (edge_from e ∈ ids l ∧ edge_to e ∈ ids l)); [|done].
    rewrite filter_cons, decide_False by done. done.
Qed.

Lemma countId_filter_present v nb :
  v ∈ ids l → countId v (filter (fun w => w ∈ ids l) nb) = countId v nb.
Proof.
  intros Hv. induction nb as [|a nb IH]; [done|].
  rewrite filter_cons, (countId_cons v a nb).
  destruct (decide (a ∈ ids l)) as [Ha|Ha].
  - by rewrite countId_cons, IH.
  - rewrite IH. rewrite decide_False; [lia|]. by intros ->.
Qed.

Lemma relaxPush_filter_present nb degA degB :
  (∀ v, v ∈ ids l → or0 (degA !! v) = or0 (degB !! v)) →
  relaxPush (filter (fun w => w ∈ ids l) nb) degB
  = filter (fun w => w ∈ ids l) (relaxPush nb degA).
Proof.
  revert degA degB. induction nb as [|a nb IH]; intros degA degB Hdeg; [done|].
  rewrite relaxPush_cons, filter_app, filter_cons.
  destruct (decide (a ∈ ids l)) as [Ha|Ha].
  - rewrite relaxPush_cons, <- (Hdeg a Ha).
    rewrite (IH (<[a:=or0 (degA !! a) - 1]> degA)).
    + destruct (decide (or0 (degA !! a) - 1 = 0)); [|done].
      by rewrite filter_cons, decide_True.
    + intros v Hv. destruct (decide (a = v)) as [->|Hne].
      * by rewrite !lookup_insert_eq.
      * rewrite !lookup_insert_ne by done. by apply Hdeg.
  - rewrite (IH (<[a:=or0 (degA !! a) - 1]> degA)).
    + destruct (decide (or0 (degA !! a) - 1 = 0)); [|done].
      by rewrite filter_cons, decide_False.
    + intros v Hv. rewrite lookup_insert_ne by (by intros ->). by apply Hdeg.
Qed.

Lemma firstUnvisited_agree (V1 V2 : gset Z) :
  (∀ v, v ∈ ids l → (v ∈ V1 ↔ v ∈ V2)) →
  firstUnvisited l V1 = firstUnvisited l V2.
Proof.
  unfold firstUnvisited, ids. clear. induction l as [|n k IH]; intros H; [done|].
  simpl.
  assert (Hn : node_id n ∈ V1 ↔ node_id n ∈ V2) by (apply H; by left).
  rewrite (bool_decide_ext (node_id n ∉ V1) (node_id n ∉ V2)) by tauto.
  rewrite IH; [done|]. intros v Hv. apply H. by right.
Qed.

(** One visit of an input id keeps the two runs in agreement. *)
Lemma agree_visit degA visA tA degB visB tB sorted h :
  h ∈ ids l →
  agree_on l (mkState degA visA (h :: tA) sorted)
           (mkState degB visB (h :: tB) sorted) →
  agree_on l
    (visit (nodeById l) (buildGraph l es).1 degA visA h tA sorted)
    (visit (nodeById l) (buildGraph l (presentEdges l es)).1 degB visB h tB sorted).
Proof.
  intros Hh [_ Hvis Hdeg Hq]. simpl in *.
  rewrite filter_cons, decide_True in Hq by done. injection Hq as Hq.
  destruct (decide (h ∈ visA)) as [HA|HA].
  { rewrite !visit_seen by (done || by apply Hvis). by split. }
  rewrite !visit_new by (done || by rewrite <- Hvis).
  rewrite !adjacency_lookup, presentEdges_outNeighbors by done.
  split; simpl.
  - done.
  - intros v Hv. rewrite !elem_of_union, (Hvis v Hv). done.
  - intros v Hv. rewrite !relaxDeg_lookup, countId_filter_present by done.
    by rewrite Hdeg.
  - rewrite filter_app, Hq. f_equal. by apply relaxPush_filter_present.
Qed.

(** The run without the dangling edges follows the run with them. *)
Lemma dangling_follows fuel :
  ∀ sA sB sfA,
    agree_on l sA sB →
    kahnLoop l (nodeById l) (buildGraph l es).1 fuel sA = Some sfA →
    ∃ sfB, runsTo l (nodeById l) (buildGraph l (presentEdges l es)).1 sB sfB
           ∧ sortedNodes sfB = sortedNodes sfA.
Proof using no_absent_source.
  induction fuel as [|fuel IH]; intros sA sB sfA Hag Hrun; simpl in Hrun.
  { case_decide as Hlen; [done|]. injection Hrun as <-.
    exists sB. split; [|by destruct Hag].
    apply runsTo_exit. by rewrite <- (agree_sorted _ _ _ Hag). }
  case_decide as Hlen.
  2:{ injection Hrun as <-. exists sB. split; [|by destruct Hag].
      apply runsTo_exit. by rewrite <- (agree_sorted _ _ _ Hag). }
  assert (HlenB : (length (sortedNodes sB) < length l)%nat)
    by (by rewrite <- (agree_sorted _ _ _ Hag)).
  destruct sA as [degA visA qA sorted], sB as [degB visB qB sortedB].
  pose proof Hag as [Hs Hvis Hdeg Hq]. simpl in Hs, Hvis, Hdeg, Hq. subst sortedB.
  unfold loopBody in Hrun. simpl in Hrun.
  destruct qA as [|h tA].
  - (* both queues are empty *)
    simpl in Hq. subst qB.
    pose proof (firstUnvisited_agree visA visB Hvis) as Hfu.
    destruct (firstUnvisited l visA) as [u|] eqn:Hu.
    + pose proof Hu as Hu'. apply firstUnvisited_Some in Hu' as [Hin _].
      assert (Hid : node_id u ∈ ids l) by (by apply list_elem_of_fmap_2).
      edestruct (IH (visit (nodeById l) (buildGraph l es).1
                           degA visA (node_id u) [] sorted)
                    (visit (nodeById l) (buildGraph l (presentEdges l es)).1
                           degB visB (node_id u) [] sorted) sfA)
        as (sfB & HrunB & Hout); [|exact Hrun|].
      { apply agree_visit; [done|]. split; simpl; try done.
        by rewrite filter_cons, decide_True. }
      exists sfB. split; [|done].
      eapply runsTo_step; [done| |exact HrunB].
      unfold loopBody. simpl. by rewrite <- Hfu.
    + injection Hrun as <-. exists (mkState degB visB [] sorted).
      split; [|done]. exists 1%nat. simpl.
      rewrite decide_True by done. unfold loopBody. simpl. by rewrite <- Hfu.
  - destruct (decide (h ∈ ids l)) as [Hh|Hh].
    + (* an input id at the head of both queues *)
      rewrite filter_cons, decide_True in Hq by done. subst qB.
      edestruct (IH (visit (nodeById l) (buildGraph l es).1
                           degA visA h tA sorted)
                    (visit (nodeById l) (buildGraph l (presentEdges l es)).1
                           degB visB h (filter (fun v => v ∈ ids l) tA) sorted)
                    sfA)
        as (sfB & HrunB & Hout); [|exact Hrun|].
      { apply agree_visit; [done|]. split; simpl; try done.
        by rewrite filter_cons, decide_True. }
      exists sfB. split; [|done].
      eapply runsTo_step; [done| |exact HrunB]. done.
    + (* an id of no input node: only the first run moves *)
      rewrite filter_cons, decide_False in Hq by done.
      apply (IH (visit (nodeById l) (buildGraph l es).1 degA visA h tA sorted)
                (mkState degB visB qB sorted)); [|done].
      destruct (decide (h ∈ visA)) as [HA|HA].
      * rewrite visit_seen by done. by split.
      * rewrite visit_new by done.
        rewrite adjacency_lookup.
        pose proof (outNeighbors_absent h) as Hnb.
        assert (Hem : emit (nodeById l) h = []).
        { unfold emit. destruct (nodeById l !! h) eqn:Hn; [|done].
          exfalso. apply Hh, nodeById_is_Some. by eauto. }
        rewrite Hem. split; simpl.
        -- by rewrite app_nil_r.
        -- intros v Hv. rewrite elem_of_union, elem_of_singleton, <- (Hvis v Hv).
           split; [intros [->|?]; done|by right].
        -- intros v Hv. rewrite relaxDeg_lookup, countId_notin, <- Hdeg by
             (done || (intros Hin; by apply (Hnb v Hh Hin))).
           lia.
        -- rewrite filter_app.
           rewrite (filter_none (fun v => v ∈ ids l) (relaxPush _ _)).
           ++ by rewrite app_nil_r.
           ++ intros v Hv. apply (Hnb v Hh). by eapply relaxPush_subseteq.
Qed.

Lemma agree_init :
  agree_on l (initState l es) (initState l (presentEdges l es)).
Proof using no_absent_source.
  split; simpl; [done|done| |].
  - intros v Hv. by apply presentEdges_inDegree.
  - rewrite !roots_filter.
    rewrite (filter_all (fun v => v ∈ ids l)).
    + apply filter_ext_elem. intros v Hv.
      by rewrite (presentEdges_inDegree v Hv).
    + intros v Hv. by apply list_elem_of_filter in Hv as [_ ?].
Qed.

(** Without an edge from an absent id to the id of a node, the edges
    with an absent end point do not change the output. *)
Lemma reorderNodes_presentEdges :
  reorderNodes l es = reorderNodes l (presentEdges l es).
Proof using no_absent_source.
  destruct (runKahn_reorderNodes l es) as (sA & HA & ->).
  destruct (runKahn_reorderNodes l (presentEdges l es)) as (sB & HB & ->).
  destruct (dangling_follows _ _ _ _ agree_init HA) as (sfB & Hrun & Hout).
  by rewrite (runsTo_det _ _ _ _ _ _ _ Hrun HB).
Qed.

End Dangling.
(** ** The timeline *)


(** What round [i + k] records, and the clock it starts from. *)
Lemma timelineStops_lookup es sorted rest :
  ∀ i clock k st,
    timelineStops es sorted i rest clock !! k = Some st →
    ∃ node,
      rest !! k = Some node ∧ stop_node st = node
      ∧ travelTime st = travelTimeAt es sorted (i + k) node
      ∧ stayDuration st = parseDurationToMinutes (Some (stayText node))
      ∧ departureMinutes st = (arrivalMinutes st + stayDuration st)%Q
      ∧ match k with
        | O => arrivalMinutes st = (clock + travelTime st)%Q
        | S k' =>
            ∃ stp, timelineStops es sorted i rest clock !! k' = Some stp
                   ∧ arrivalMinutes st
                     = (departureMinutes stp + travelTime st)%Q
        end.
Proof.
  induction rest as [|n rest IH]; intros i clock k st Hst; [done|].
  simpl in Hst. destruct k as [|k].
  - injection Hst as <-. exists n. simpl. rewrite Nat.add_0_r. by split_and!.
  - simpl in Hst. apply IH in Hst as (node & Hn & Hs & Htt & Hstay & Hdep & Harr).
    exists node. replace (i + S k)%nat with (S i + k)%nat by lia.
    split_and!; try done.
    destruct k as [|k'].
    + eexists. split; [done|]. simpl. exact Harr.
    + destruct Harr as (stp & Hp & Harr). exists stp. by split.
Qed.







Lemma timelineStops_nodes es sorted i rest clock :
  stop_node <$> timelineStops es sorted i rest clock = rest.
Proof.
  revert i clock. induction rest as [|n rest IH]; intros i clock; [done|].
  simpl. by rewrite IH.
Qed.

Lemma timelineMap_snoc stops st :
  timelineMap (stops ++ [st])
  = <[node_id (stop_node st) :=
        mkEntry (formatTime (arrivalMinutes st)) (formatTime (departureMinutes st))]>
      (timelineMap stops).
Proof. unfold timelineMap. by rewrite fold_left_app. Qed.

Lemma timelineMap_dom stops :
  dom (timelineMap stops) = list_to_set (ids (stop_node <$> stops)).
Proof.
  induction stops as [|st stops IH] using rev_ind.
  - unfold timelineMap. simpl. by rewrite dom_empty_L.
  - rewrite timelineMap_snoc, dom_insert_L, IH. unfold ids.
    rewrite !fmap_app, list_to_set_app_L. simpl. set_solver.
Qed.

Lemma timelineMap_lookup stops st :
  NoDup (ids (stop_node <$> stops)) → st ∈ stops →
  timelineMap stops !! node_id (stop_node st)
  = Some (mkEntry (formatTime (arrivalMinutes st))
                  (formatTime (departureMinutes st))).
Proof.
  induction stops as [|s stops IH] using rev_ind; intros Hnd Hin.
  - by apply elem_of_nil in Hin.
  - rewrite timelineMap_snoc. unfold ids in Hnd.
    rewrite !fmap_app in Hnd. apply NoDup_app in Hnd as (Hnd & Hdisj & _).
    apply elem_of_app in Hin as [Hin|Hin].
    + rewrite lookup_insert_ne; [by apply IH|].
      intros Heq. apply (Hdisj (node_id (stop_node st))).
      * apply list_elem_of_fmap_2. by apply list_elem_of_fmap_2.
      * simpl. rewrite Heq. by apply list_elem_of_singleton.
    + apply list_elem_of_singleton in Hin as ->. by rewrite lookup_insert_eq.
Qed.


(** ** The clusterer *)

Lemma pop_snoc (pre : list MapZone) seed : pop (pre ++ [seed]) = Some (seed, pre).
Proof. unfold pop. by rewrite last_snoc, removelast_last. Qed.

Lemma pop_None (k : list MapZone) : pop k = None → k = [].
Proof.
  unfold pop. destruct (last k) eqn:H; [done|]. intros _.
  by apply last_None in H.
Qed.

Lemma take_delete_same {A} (k : list A) i : take i (delete i k) = take i k.
Proof.
  revert i. induction k as [|a k IH]; intros i; [done|].
  destruct i as [|i]; [done|]. simpl. by rewrite IH.
Qed.

Lemma drop_delete_same {A} (k : list A) i : drop i (delete i k) = drop (S i) k.
Proof.
  revert i. induction k as [|a k IH]; intros i; [by destruct i|].
  destruct i as [|i]; [done|]. simpl. by rewrite IH.
Qed.

(** The neighbour scan over the indices below [n]: the members gain the
    near items among the first [n], from the last to the first, and the
    worklist keeps the others. *)
Lemma scanNeighbors_spec current n :
  ∀ ms proc, (n ≤ length proc)%nat →
    scanNeighbors current n ms proc
    = (ms ++ reverse (filter (fun z => near current z = true) (take n proc)),
       filter (fun z => near current z ≠ true) (take n proc) ++ drop n proc).
Proof.
  induction n as [|i IH]; intros ms proc Hn.
  - simpl. rewrite take_0, drop_0. simpl. by rewrite app_nil_r.
  - simpl. destruct (lookup_lt_is_Some_2 proc i) as [other Ho]; [lia|].
    rewrite Ho. rewrite (take_S_r _ _ _ Ho), !filter_app, !filter_cons, !filter_nil.
    destruct (near current other) eqn:Hnear.
    + rewrite IH by (rewrite length_delete by eauto; lia).
      rewrite decide_True by done. rewrite decide_False by (by intros []).
      rewrite reverse_app. simpl.
      rewrite take_delete_same, drop_delete_same.
      rewrite app_nil_r. by rewrite <- app_assoc.
    + rewrite IH by lia.
      rewrite decide_False by done. rewrite decide_True by done.
      rewrite app_nil_r, <- app_assoc. simpl.
      by rewrite (drop_S _ _ _ Ho).
Qed.

Lemma scanNeighbors_all current ms proc :
  scanNeighbors current (length proc) ms proc
  = (ms ++ reverse (filter (fun z => near current z = true) proc),
     filter (fun z => near current z ≠ true) proc).
Proof.
  rewrite scanNeighbors_spec by done.
  by rewrite firstn_all, drop_all, app_nil_r.
Qed.

Lemma clusterLoop_step fuel pre seed items :
  clusterLoop (S fuel) (pre ++ [seed]) items
  = clusterLoop fuel (filter (fun z => near seed z ≠ true) pre)
      (items ++ [makeItem seed
                   (seed :: reverse (filter (fun z => near seed z = true) pre))]).
Proof. simpl. rewrite pop_snoc, scanNeighbors_all. done. Qed.

(** With at least as many iterations as items, the loop exits, and what
    it appends to [items] is [mapItems] of the worklist. *)
Lemma clusterLoop_mapItems n :
  ∀ fuel k items, (fuel ≤ n)%nat → (length k ≤ fuel)%nat →
    clusterLoop fuel k items = Some (items ++ mapItems k).
Proof.
  induction n as [|n IH]; intros fuel k items Hn Hk.
  - destruct k; [|simpl in Hk; lia]. destruct fuel; [|lia].
    simpl. by rewrite app_nil_r.
  - destruct k as [|z k'] using rev_ind.
    { destruct fuel; simpl; by rewrite app_nil_r. }
    clear IHk'. rewrite length_app in Hk. simpl in Hk.
    destruct fuel as [|fuel]; [lia|].
    pose proof (length_filter (fun y => near z y ≠ true) k') as Hf.
    rewrite clusterLoop_step, IH by lia.
    unfold mapItems at 2. rewrite length_app. simpl.
    replace (length k' + 1)%nat with (S (length k')) by lia.
    rewrite clusterLoop_step, IH by lia. simpl. by rewrite <- app_assoc.
Qed.

Lemma mapItems_nil : mapItems [] = [].
Proof. done. Qed.

(** The greedy rule: the last item of the worklist is the seed; its
    cluster takes the remaining items near it; the others stay in the
    worklist. *)
Lemma mapItems_snoc pre seed :
  mapItems (pre ++ [seed])
  = makeItem seed (seed :: reverse (filter (fun z => near seed z = true) pre))
      :: mapItems (filter (fun z => near seed z ≠ true) pre).
Proof.
  pose proof (length_filter (fun y => near seed y ≠ true) pre) as Hf.
  unfold mapItems at 1. rewrite length_app. simpl.
  replace (length pre + 1)%nat with (S (length pre)) by lia.
  rewrite clusterLoop_step.
  rewrite (clusterLoop_mapItems (length pre)) by lia. done.
Qed.

Lemma members_makeItem current ms : members (makeItem current ms) = ms.
Proof. unfold makeItem. destruct ms as [|a [|b ms]]; done. Qed.

Lemma filter_split_Permutation {A} (P : A → Prop) `{∀ x, Decision (P x)}
    (k : list A) :
  filter P k ++ filter (fun x => ¬ P x) k ≡ₚ k.
Proof.
  induction k as [|a k IH]; [done|].
  rewrite !filter_cons. destruct (decide (P a)).
  - rewrite decide_False by tauto. simpl. by rewrite IH.
  - rewrite decide_True by done.
    rewrite <- Permutation_middle. by rewrite IH.
Qed.

(** Every input item is a member of exactly one output item. *)
Lemma mapItems_partition k : concat (members <$> mapItems k) ≡ₚ k.
Proof.
  remember (length k) as n eqn:Hn. revert k Hn.
  induction (lt_wf n) as [n _ IH]; intros k ->.
  destruct k as [|seed pre _] using rev_ind; [done|].
  rewrite mapItems_snoc, fmap_cons, members_makeItem. simpl.
  pose proof (length_filter (fun y => near seed y ≠ true) pre) as Hf.
  rewrite (IH (length (filter (fun z => near seed z ≠ true) pre)));
    [|rewrite length_app; simpl; lia|done].
  rewrite reverse_Permutation.
  rewrite (filter_split_Permutation (fun z => near seed z = true) pre).
  by rewrite <- Permutation_cons_append.
Qed.
(** * The properties of the specification *)

(** Closed goals that a decision procedure settles by evaluation, and
    membership in an explicit list. *)
Ltac by_decide := refine (bool_decide_unpack _ _); vm_compute; exact I.

Ltac in_list :=
  repeat first [apply list_elem_of_here | apply list_elem_of_further].

(** ** Graph Orderer *)

Lemma acyclic_increasing es :
  (∀ e, e ∈ es → edge_from e < edge_to e) → acyclic es.
Proof.
  intros Hinc v Hv.
  assert (Hlt : ∀ a b, tc (edgeRel es) a b → a < b).
  { induction 1 as [x y (e & He & <- & <-)|x y z (e & He & <- & <-) _ IH].
    - by apply Hinc.
    - specialize (Hinc e He). lia. }
  specialize (Hlt v v Hv). lia.
Qed.

(** C1 (as stated, refuted). Two input nodes that share an id: the map
    from ids to nodes keeps one of them, so the output is not a
    permutation of the input. *)
Lemma reorderNodes_shared_id_counterexample :
  ¬ (reorderNodes [mkNode 1 "a" "" FOOD None; mkNode 1 "b" "" FOOD None] []
     ≡ₚ [mkNode 1 "a" "" FOOD None; mkNode 1 "b" "" FOOD None]).
Proof. intros H. apply Permutation_length in H. vm_compute in H. done. Qed.

(** C1 (amended). For every list of nodes with pairwise distinct ids and
    every list of edges, however malformed, [reorderNodes] returns a
    permutation of the input nodes: every input node exactly once. *)
Theorem reorderNodes_permutation (originalNodes : list RouteNode)
    (es : list RouteEdge) :
  NoDup (ids originalNodes) →
  reorderNodes originalNodes es ≡ₚ originalNodes.
Proof. apply reorderNodes_distinct_ids. Qed.

Lemma reorderNodes_permutation_witness :
  NoDup (ids [plainNode 3; plainNode 2; plainNode 1])
  ∧ reorderNodes [plainNode 3; plainNode 2; plainNode 1]
                 [plainEdge 1 2; plainEdge 2 3; plainEdge 99 1; plainEdge 2 2]
    ≡ₚ [plainNode 3; plainNode 2; plainNode 1].
Proof.
  assert (Hnd : NoDup (ids [plainNode 3; plainNode 2; plainNode 1]))
    by by_decide.
  split; [exact Hnd|].
  exact (reorderNodes_permutation _ _ Hnd).
Defined.

(** C2. If the edges form a directed acyclic graph over the node set
    with exactly one source, then for every edge u→v the output has the
    node of id u strictly before the node of id v. *)
Theorem reorderNodes_respects_edges (originalNodes : list RouteNode)
    (es : list RouteEdge) (e : RouteEdge) :
  overNodes originalNodes es → acyclic es → oneSource originalNodes es →
  e ∈ es →
  before (reorderNodes originalNodes es) (edge_from e) (edge_to e).
Proof.
  intros Hov Hac _ He. by apply reorderNodes_topological.
Qed.

Lemma reorderNodes_respects_edges_witness :
  let ns := [plainNode 3; plainNode 1; plainNode 2] in
  let es := [plainEdge 1 2; plainEdge 2 3; plainEdge 1 3] in
  overNodes ns es ∧ acyclic es ∧ oneSource ns es
  ∧ plainEdge 2 3 ∈ es
  ∧ before (reorderNodes ns es) 2 3.
Proof.
  intros ns es.
  assert (Hov : overNodes ns es).
  { intros e He. unfold ns, es in *.
    repeat (apply elem_of_cons in He as [->|He]);
      [..|by apply elem_of_nil in He]; split; by_decide. }
  assert (Hac : acyclic es).
  { apply acyclic_increasing. intros e He. unfold es in *.
    repeat (apply elem_of_cons in He as [->|He]);
      [..|by apply elem_of_nil in He]; simpl; lia. }
  assert (Hsrc : oneSource ns es).
  { exists 1. split; [by_decide|]. split.
    - intros e He. unfold es in *.
      repeat (apply elem_of_cons in He as [->|He]);
        [..|by apply elem_of_nil in He]; simpl; lia.
    - intros r Hr Hs. unfold ns, ids in Hr. simpl in Hr.
      repeat (apply elem_of_cons in Hr as [->|Hr]);
        [..|by apply elem_of_nil in Hr].
      + exfalso. apply (Hs (plainEdge 2 3)); [in_list|done].
      + done.
      + exfalso. apply (Hs (plainEdge 1 2)); [in_list|done]. }
  assert (Hin : plainEdge 2 3 ∈ es) by in_list.
  split_and!; try done.
  exact (reorderNodes_respects_edges ns es (plainEdge 2 3) Hov Hac Hsrc Hin).
Defined.

(** C3 (as stated, refuted). The loop does not always run until all
    nodes are emitted: when two nodes share an id it leaves by the
    [break] of the restart, with fewer emitted nodes than input nodes.
    Here the first node is never emitted. *)
Lemma restart_break_counterexample :
  let ns := [mkNode 1 "a" "" FOOD None; plainNode 2;
             mkNode 1 "b" "" FOOD None] in
  let es := [plainEdge 1 2; plainEdge 2 1] in
  ∃ s, runKahn ns es = Some s
       ∧ loopBody ns (nodeById ns) (buildGraph ns es).1 s = None
       ∧ (length (sortedNodes s) < length ns)%nat
       ∧ reorderNodes ns es = [mkNode 1 "b" "" FOOD None; plainNode 2]
       ∧ mkNode 1 "a" "" FOOD None ∉ reorderNodes ns es.
Proof.
  intros ns es.
  assert (Hout : reorderNodes ns es = [mkNode 1 "b" "" FOOD None; plainNode 2])
    by (by vm_compute).
  destruct (runKahn ns es) as [s|] eqn:Hs; [|by vm_compute in Hs].
  exists s. split; [done|].
  assert (Hs' : Some s = runKahn ns es) by done.
  vm_compute in Hs'. injection Hs' as ->.
  split; [by vm_compute|]. split; [simpl; lia|]. split; [exact Hout|].
  rewrite Hout. intros Hin.
  repeat (apply elem_of_cons in Hin as [Hin|Hin]); try discriminate.
  by apply elem_of_nil in Hin.
Qed.

(** C3 (amended). [reorderNodes] terminates on every input: the loop
    exits within the iterations it is given (and more iterations change
    nothing), every iteration that stays in the loop decreases the
    measure, and the result holds a node for every input id.  When the
    ids of the input nodes are pairwise distinct the result is full:
    the loop ends with as many emitted nodes as there are input nodes,
    and every input node is among them.  In particular it returns both
    nodes of the cycle 1→2, 2→1 and a node without edges. *)
Theorem reorderNodes_terminates :
  (∀ originalNodes es,
     ∃ s, runKahn originalNodes es = Some s
          ∧ reorderNodes originalNodes es = sortedNodes s
          ∧ exited originalNodes (nodeById originalNodes)
                   (buildGraph originalNodes es).1 s
          ∧ (∀ extra,
               kahnLoop originalNodes (nodeById originalNodes)
                        (buildGraph originalNodes es).1
                        (reorderFuel originalNodes es + extra)
                        (initState originalNodes es) = Some s)
          ∧ idSet (reorderNodes originalNodes es) = idSet originalNodes
          ∧ length (reorderNodes originalNodes es) = size (idSet originalNodes)
          ∧ (NoDup (ids originalNodes) →
             length (sortedNodes s) = length originalNodes
             ∧ ∀ n, n ∈ originalNodes → n ∈ reorderNodes originalNodes es))
  ∧ (∀ originalNodes es s s',
       loopBody originalNodes (nodeById originalNodes)
                (buildGraph originalNodes es).1 s = Some s' →
       (kahnMeasure originalNodes es s' < kahnMeasure originalNodes es s)%nat)
  ∧ reorderNodes [plainNode 1; plainNode 2] [plainEdge 1 2; plainEdge 2 1]
    = [plainNode 1; plainNode 2]
  ∧ reorderNodes [plainNode 7] [] = [plainNode 7].
Proof.
  split_and!.
  - intros l es.
    destruct (reorderNodes_emitted l es) as (s & Hrun & Hout & Hok & Hex).
    exists s. split_and!; try done.
    + intros extra. eapply kahnLoop_fuel_mono; [exact Hrun|]. unfold reorderFuel. lia.
    + apply reorderNodes_idSet.
    + apply reorderNodes_length.
    + intros Hnd. pose proof (reorderNodes_distinct_ids l es Hnd) as Hperm.
      split.
      * rewrite <- Hout. by apply Permutation_length.
      * intros n Hn. by rewrite Hperm.
  - intros l es s s'. apply loopBody_decreases.
  - by vm_compute.
  - by vm_compute.
Qed.

Lemma reorderNodes_terminates_witness :
  let ns := [plainNode 1; plainNode 2] in
  let es := [plainEdge 1 2; plainEdge 2 1] in
  NoDup (ids ns)
  ∧ (∀ n, n ∈ ns → n ∈ reorderNodes ns es)
  ∧ ∃ s', loopBody ns (nodeById ns) (buildGraph ns es).1 (initState ns es) = Some s'
          ∧ (kahnMeasure ns es s' < kahnMeasure ns es (initState ns es))%nat.
Proof.
  intros ns es.
  assert (Hnd : NoDup (ids ns)) by by_decide.
  destruct reorderNodes_terminates as (Hall & Hdec & _).
  split; [exact Hnd|]. split.
  - destruct (Hall ns es) as (s & _ & _ & _ & _ & _ & _ & Hfull).
    by destruct (Hfull Hnd) as [_ Hin].
  - eexists. split; [by vm_compute|]. apply Hdec. by vm_compute.
Defined.

(** C4 (as stated, refuted). An edge that leaves an id of no node still
    counts in the in-degree of its target: with it the target is not a
    start node, without it it is. *)
Lemma dangling_from_counterexample :
  reorderNodes [plainNode 1; plainNode 2] [plainEdge 99 1]
  ≠ reorderNodes [plainNode 1; plainNode 2]
                 (presentEdges [plainNode 1; plainNode 2] [plainEdge 99 1]).
Proof. by vm_compute. Qed.

(** C4 (amended). When no edge leads from an id of no node to the id of
    a node, the edges with an end point that is the id of no node are
    skipped, those between two such ids included: the output is the
    output for the edge list without them. *)
Theorem dangling_edges_skipped (originalNodes : list RouteNode)
    (es : list RouteEdge) :
  (∀ e, e ∈ es →
        edge_to e ∈ ids originalNodes → edge_from e ∈ ids originalNodes) →
  reorderNodes originalNodes es
  = reorderNodes originalNodes (presentEdges originalNodes es).
Proof. apply reorderNodes_presentEdges. Qed.

Lemma dangling_edges_skipped_witness :
  let ns := [plainNode 2; plainNode 1] in
  let es := [plainEdge 1 99; plainEdge 99 98; plainEdge 98 99;
             plainEdge 97 96; plainEdge 1 2; plainEdge 2 98] in
  (∀ e, e ∈ es → edge_to e ∈ ids ns → edge_from e ∈ ids ns)
  ∧ presentEdges ns es = [plainEdge 1 2]
  ∧ reorderNodes ns es = reorderNodes ns (presentEdges ns es).
Proof.
  intros ns es.
  assert (Hsrc : ∀ e, e ∈ es → edge_to e ∈ ids ns → edge_from e ∈ ids ns).
  { intros e He. unfold es in He.
    repeat (apply elem_of_cons in He as [->|He]);
      [..|by apply elem_of_nil in He]; intros Hto;
      first [by_decide | (exfalso; revert Hto; by_decide)]. }
  split; [exact Hsrc|]. split; [by vm_compute|].
  exact (dangling_edges_skipped ns es Hsrc).
Defined.

(** C9. [reorderNodes] is idempotent: its output, fed back in as the
    node list with the same edges, is returned unchanged. *)
Theorem reorderNodes_idempotent (originalNodes : list RouteNode)
    (es : list RouteEdge) :
  reorderNodes (reorderNodes originalNodes es) es
  = reorderNodes originalNodes es.
Proof. apply reorderNodes_idem. Qed.

(** C10. Whatever the input, [reorderNodes] emits exactly one node per
    distinct input id, namely the last input node that bears the id; the
    length of the output is the number of distinct ids, which is the
    length of the input exactly when the input ids are pairwise
    distinct; hence the output is a permutation of the input only under
    that precondition.  With two nodes of id 1 only the second is
    emitted. *)
Theorem reorderNodes_one_per_id :
  (∀ originalNodes es,
     NoDup (ids (reorderNodes originalNodes es))
     ∧ idSet (reorderNodes originalNodes es) = idSet originalNodes
     ∧ Forall (fun n =>
                 last (filter (fun m => node_id m = node_id n) originalNodes)
                 = Some n)
              (reorderNodes originalNodes es)
     ∧ length (reorderNodes originalNodes es) = size (idSet originalNodes)
     ∧ (length (reorderNodes originalNodes es) = length originalNodes
        ↔ NoDup (ids originalNodes))
     ∧ (reorderNodes originalNodes es ≡ₚ originalNodes
        ↔ NoDup (ids originalNodes)))
  ∧ reorderNodes [mkNode 1 "a" "" FOOD None; plainNode 2;
                  mkNode 1 "b" "" FOOD None] [plainEdge 1 2]
    = [mkNode 1 "b" "" FOOD None; plainNode 2].
Proof.
  split; [|by vm_compute].
  intros l es. split_and!.
  - apply reorderNodes_ids_NoDup.
  - apply reorderNodes_idSet.
  - apply Forall_forall. intros n Hn.
    rewrite <- nodeById_lookup. by apply (reorderNodes_byId l es).
  - apply reorderNodes_length.
  - split.
    + intros Hlen.
      assert (Hp : ids (reorderNodes l es) ≡ₚ ids l).
      { apply submseteq_length_Permutation.
        - apply NoDup_submseteq; [apply reorderNodes_ids_NoDup|].
          intros i. apply reorderNodes_ids_elem.
        - unfold ids. rewrite !length_fmap. lia. }
      rewrite <- Hp. apply reorderNodes_ids_NoDup.
    + intros Hnd. by rewrite (reorderNodes_distinct_ids l es Hnd).
  - split; [|apply reorderNodes_distinct_ids].
    intros Hp. unfold ids. rewrite <- Hp. apply reorderNodes_ids_NoDup.
Qed.

(** ** Timeline Estimator *)







(** C7 (the code at the failing inputs). The unit markers of the regular
    expressions are not the bytes of the hour and minute units of the
    durations the application handles ("1.5小时", "40分钟" in its sample
    plan): on these the parser returns 0, where markers "小时" and "分"
    give 90 and 40.  The empty string gives 0. *)
Theorem parseDuration_unit_markers :
  (parseDurationToMinutes (Some "1.5小时"%string) == 0)%Q
  ∧ (parseDurationToMinutes (Some "40分钟"%string) == 0)%Q
  ∧ (parseDurationToMinutes (Some ""%string) == 0)%Q
  ∧ (parseDurationWith "小时" "分" (Some "1.5小时"%string) == 90)%Q
  ∧ (parseDurationWith "小时" "分" (Some "40分钟"%string) == 40)%Q
  ∧ (parseDurationWith "小时" "分" (Some "1小时30分"%string) == 90)%Q
  ∧ (parseDurationWith "小时" "分" (Some "25"%string) == 25)%Q
  ∧ (parseDurationToMinutes (Some "1.5å°æ—¶"%string) == 90)%Q.
Proof. split_and!; by vm_compute. Qed.

(** ** Spatial Clusterer *)

(** C8. The clusterer partitions its input: the members of the output
    items are the input items, each once.  It proceeds greedily: the
    last item of the worklist is the seed, its cluster takes the
    remaining items whose distance to the seed is below the threshold,
    the others stay in the worklist.  The distance is the one that the
    source computes, in binary64 arithmetic: the square root of the sum
    of the squared coordinate differences.  For the points (0,0), (1,1)
    and (20,20) the first two form a cluster of two and the third stays
    alone.  Points whose computed distance is 8 are not merged, as
    (0,0) and (8,0), and (0.1,0) and (8.1,0). *)
Theorem mapItems_greedy_partition :
  (∀ filteredZones,
     concat (members <$> mapItems filteredZones) ≡ₚ filteredZones)
  ∧ mapItems [] = []
  ∧ (∀ worklist seed,
       mapItems (worklist ++ [seed])
       = makeItem seed
           (seed :: reverse (filter (fun z => near seed z = true) worklist))
           :: mapItems (filter (fun z => near seed z ≠ true) worklist))
  ∧ (∀ a b,
       near a b = true
       ↔ (PrimFloat.sqrt
            ((x (coordinates a) - x (coordinates b))
               * (x (coordinates a) - x (coordinates b))
             + (y (coordinates a) - y (coordinates b))
               * (y (coordinates a) - y (coordinates b)))
          <? CLUSTER_THRESHOLD)%float = true)
  ∧ mapItems [pin "a" 0 0; pin "b" 1 1; pin "c" 20 20]
    = [single (pin "c" 20 20);
       cluster [pin "b" 1 1; pin "a" 0 0] 0.5 0.5 "cluster-b-2"]
  ∧ dist (pin "a" 0 0) (pin "b" 1 1) = 1.4142135623730951%float
  ∧ mapItems [pin "a" 0 0; pin "b" 8 0]
    = [single (pin "b" 8 0); single (pin "a" 0 0)]
  ∧ dist (pin "a" 0.1 0) (pin "b" 8.1 0) = 8%float
  ∧ mapItems [pin "a" 0.1 0; pin "b" 8.1 0]
    = [single (pin "b" 8.1 0); single (pin "a" 0.1 0)].
Proof.
  split_and!.
  - apply mapItems_partition.
  - apply mapItems_nil.
  - apply mapItems_snoc.
  - intros a b. reflexivity.
  - by vm_compute.
  - by vm_compute.
  - by vm_compute.
  - by vm_compute.
  - by vm_compute.
Qed.

(** * Further properties of the code *)

(** ** Digit strings *)

Lemma digitsValue_nonneg s acc :
  digitsOnly s = true → 0 ≤ acc → 0 ≤ digitsValue acc s.
Proof.
  revert acc. induction s as [|c s IH]; intros acc Hd Hacc; [done|].
  simpl in *. apply andb_prop in Hd as [Hc Hs]. apply IH; [done|].
  unfold isDigit in Hc. apply andb_prop in Hc as [Hlo _].
  apply Nat.leb_le in Hlo. lia.
Qed.

Lemma spanDigits_digits s : digitsOnly (spanDigits s).1 = true.
Proof.
  induction s as [|c s IH]; [done|]. simpl.
  destruct (isDigit c) eqn:Hc; [|done].
  destruct (spanDigits s) as [d r]. simpl in *. by rewrite Hc, IH.
Qed.

Lemma spanDigits_app s : ((spanDigits s).1 ++ (spanDigits s).2)%string = s.
Proof.
  induction s as [|c s IH]; [done|]. simpl.
  destruct (isDigit c); [|done].
  destruct (spanDigits s) as [d r]. simpl in *. by rewrite <- IH.
Qed.

Lemma takeS_digits k d : digitsOnly d = true → digitsOnly (takeS k d) = true.
Proof.
  revert d. induction k as [|k IH]; intros d Hd; [by destruct d|].
  destruct d as [|c d]; [done|]. simpl in *.
  apply andb_prop in Hd as [Hc Hd]. by rewrite Hc, IH.
Qed.

Lemma tryLengths_Some {A} n (f : nat → option A) r :
  tryLengths n f = Some r → ∃ k, f k = Some r.
Proof.
  induction n as [|n IH]; [done|]. simpl.
  destruct (f (S n)) eqn:Hf; [|exact IH].
  intros [= <-]. by eexists.
Qed.

Lemma matchHourAt_digits mark s ip fp :
  matchHourAt mark s = Some (ip, fp) →
  digitsOnly ip = true ∧ ∀ f, fp = Some f → digitsOnly f = true.
Proof.
  unfold matchHourAt. pose proof (spanDigits_digits s) as Hd1.
  destruct (spanDigits s) as [d1 r1]. simpl in Hd1.
  intros H. apply tryLengths_Some in H as [k H].
  assert (Hnofrac :
    (if startsWith mark (dropS k d1 ++ r1) then Some (takeS k d1, None) else None)
    = Some (ip, fp) →
    digitsOnly ip = true ∧ ∀ f, fp = Some f → digitsOnly f = true).
  { destruct (startsWith mark _); [|done]. intros [= <- <-].
    split; [by apply takeS_digits|done]. }
  destruct (dropS k d1 ++ r1)%string as [|c t] eqn:Hrest; [by apply Hnofrac|].
  destruct c as [[] [] [] [] [] [] [] []]; try (by apply Hnofrac).
  pose proof (spanDigits_digits t) as Hd2.
  destruct (spanDigits t) as [d2 r2]. simpl in Hd2.
  destruct (tryLengths (String.length d2) _) as [r|] eqn:Hfrac.
  - injection H as ->. apply tryLengths_Some in Hfrac as [j Hj].
    destruct (startsWith mark _); [|done]. injection Hj as <- <-.
    split; [by apply takeS_digits|]. intros f [= <-]. by apply takeS_digits.
  - by apply Hnofrac.
Qed.

Lemma searchHour_digits mark s ip fp :
  searchHour mark s = Some (ip, fp) →
  digitsOnly ip = true ∧ ∀ f, fp = Some f → digitsOnly f = true.
Proof.
  induction s as [|c s IH]; simpl.
  - done.
  - destruct (matchHourAt mark (String c s)) as [r|] eqn:Hm; [|exact IH].
    intros [= ->]. by eapply matchHourAt_digits.
Qed.

Lemma matchMinAt_digits mark s d :
  matchMinAt mark s = Some d → digitsOnly d = true.
Proof.
  unfold matchMinAt. pose proof (spanDigits_digits s) as Hd.
  destruct (spanDigits s) as [d1 r1]. simpl in Hd.
  intros H. apply tryLengths_Some in H as [k H].
  destruct (startsWith mark _); [|done]. injection H as <-.
  by apply takeS_digits.
Qed.

Lemma searchMin_digits mark s d :
  searchMin mark s = Some d → digitsOnly d = true.
Proof.
  induction s as [|c s IH]; simpl.
  - done.
  - destruct (matchMinAt mark (String c s)) as [r|] eqn:Hm; [|exact IH].
    intros [= ->]. by eapply matchMinAt_digits.
Qed.

Lemma allDigits_digitsOnly s : allDigits s = true → digitsOnly s = true.
Proof.
  unfold allDigits. intros H. apply andb_prop in H as [_ H].
  pose proof (spanDigits_digits s) as Hd. pose proof (spanDigits_app s) as Happ.
  destruct (spanDigits s) as [d r]. simpl in *.
  destruct r; [|done]. rewrite <- Happ.
  clear -Hd. induction d as [|c d IH]; [done|]. simpl in *.
  apply andb_prop in Hd as [Hc Hd]. by rewrite Hc, IH.
Qed.

Lemma inject_Z_nonneg z : 0 ≤ z → (0 <= inject_Z z)%Q.
Proof. intros H. unfold Qle. simpl. lia. Qed.

Lemma parseInt_nonneg s : digitsOnly s = true → (0 <= parseInt s)%Q.
Proof. intros H. apply inject_Z_nonneg, digitsValue_nonneg; [done|lia]. Qed.

Lemma parseFloat_nonneg ip fp :
  digitsOnly ip = true → (∀ f, fp = Some f → digitsOnly f = true) →
  (0 <= parseFloat ip fp)%Q.
Proof.
  intros Hip Hfp. unfold parseFloat. destruct fp as [f|].
  - assert (Ha : (0 <= inject_Z (digitsValue 0 ip))%Q)
      by (apply inject_Z_nonneg, digitsValue_nonneg; [done|lia]).
    assert (Hb : (0 <= inject_Z (digitsValue 0 f))%Q)
      by (apply inject_Z_nonneg, digitsValue_nonneg; [by apply Hfp|lia]).
    assert (Hc : (0 <= / inject_Z (10 ^ Z.of_nat (String.length f)))%Q).
    { apply Qinv_le_0_compat, inject_Z_nonneg. lia. }
    pose proof (Qmult_le_0_compat _ _ Hb Hc) as Hd.
    pose proof (Qplus_le_compat _ _ _ _ Ha Hd) as He.
    by rewrite Qplus_0_l in He.
  - apply inject_Z_nonneg, digitsValue_nonneg; [done|lia].
Qed.

Lemma Qplus_nonneg a b : (0 <= a)%Q → (0 <= b)%Q → (0 <= a + b)%Q.
Proof.
  intros Ha Hb. pose proof (Qplus_le_compat _ _ _ _ Ha Hb) as H.
  by rewrite Qplus_0_l in H.
Qed.

(** The parser never returns a negative number of minutes, whatever the
    text and the unit markers. *)
Lemma parseDurationWith_nonneg hourMark minMark str :
  (0 <= parseDurationWith hourMark minMark str)%Q.
Proof.
  unfold parseDurationWith. destruct str as [s|]; [|done].
  destruct s as [|c s]; [done|].
  set (t := String c s).
  assert (Hh : (0 <= match searchHour hourMark t with
                     | Some hourMatch => 0 + parseFloat hourMatch.1 hourMatch.2 * 60
                     | None => 0
                     end)%Q).
  { destruct (searchHour hourMark t) as [[ip fp]|] eqn:Hs; [|done].
    apply searchHour_digits in Hs as [Hip Hfp]. simpl.
    apply Qplus_nonneg; [done|].
    apply Qmult_le_0_compat; [by apply parseFloat_nonneg|done]. }
  set (m1 := match searchHour hourMark t with
             | Some hourMatch => (0 + parseFloat hourMatch.1 hourMatch.2 * 60)%Q
             | None => 0%Q
             end) in *.
  assert (Hm : (0 <= match searchMin minMark t with
                     | Some minMatch => m1 + parseInt minMatch
                     | None => m1
                     end)%Q).
  { destruct (searchMin minMark t) as [d|] eqn:Hs; [|done].
    apply Qplus_nonneg; [done|]. apply parseInt_nonneg.
    by eapply searchMin_digits. }
  destruct (Qeq_bool _ 0 && allDigits t) eqn:Hb; [|done].
  apply andb_prop in Hb as [_ Hb]. by apply parseInt_nonneg, allDigits_digitsOnly.
Qed.

(** ** The clock of the timeline *)

Lemma travelTimeAt_nonneg es sorted i node :
  (0 <= travelTimeAt es sorted i node)%Q.
Proof.
  unfold travelTimeAt. destruct i as [|j]; [done|].
  destruct (sorted !! j) as [prev|]; [|done].
  destruct (findEdge es prev node); [|done].
  apply parseDurationWith_nonneg.
Qed.

Lemma Qle_plus_nonneg a b : (0 <= b)%Q → (a <= a + b)%Q.
Proof.
  intros Hb. pose proof (Qplus_le_compat a a 0 b (Qle_refl a) Hb) as H.
  by rewrite Qplus_0_r in H.
Qed.

(** The clock never goes back: every stop is reached at or after the
    start, left at or after its arrival, and the next stop is reached at
    or after that departure. *)
Lemma timeline_clock_monotone es sorted start k st :
  timelineStops es sorted 0 sorted start !! k = Some st →
  (start <= arrivalMinutes st)%Q
  ∧ (arrivalMinutes st <= departureMinutes st)%Q
  ∧ ∀ st', timelineStops es sorted 0 sorted start !! S k = Some st' →
           (departureMinutes st <= arrivalMinutes st')%Q.
Proof.
  intros Hst.
  assert (Hstep : ∀ j s, timelineStops es sorted 0 sorted start !! j = Some s →
            (0 <= travelTime s)%Q ∧ (arrivalMinutes s <= departureMinutes s)%Q).
  { intros j s Hs. apply timelineStops_lookup in Hs
      as (node & _ & _ & -> & Hstay & -> & _).
    split; [apply travelTimeAt_nonneg|].
    apply Qle_plus_nonneg. rewrite Hstay. apply parseDurationWith_nonneg. }
  assert (Hstart : ∀ j s, timelineStops es sorted 0 sorted start !! j = Some s →
            (start <= arrivalMinutes s)%Q).
  { induction j as [|j IH]; intros s Hs.
    - pose proof (Hstep _ _ Hs) as [Htt _].
      apply timelineStops_lookup in Hs as (_ & _ & _ & _ & _ & _ & ->).
      by apply Qle_plus_nonneg.
    - pose proof (Hstep _ _ Hs) as [Htt _].
      apply timelineStops_lookup in Hs
        as (_ & _ & _ & _ & _ & _ & (stp & Hp & ->)).
      pose proof (IH _ Hp) as Hle. pose proof (Hstep _ _ Hp) as [_ Had].
      eapply Qle_trans; [exact Hle|]. eapply Qle_trans; [exact Had|].
      by apply Qle_plus_nonneg. }
  split; [by eapply Hstart|]. split; [by eapply Hstep|].
  intros st' Hst'. pose proof (Hstep _ _ Hst') as [Htt _].
  apply timelineStops_lookup in Hst'
    as (_ & _ & _ & _ & _ & _ & (stp & Hp & ->)).
  rewrite Hst in Hp. injection Hp as <-. by apply Qle_plus_nonneg.
Qed.

(** The timeline has an entry for exactly the ids of the plan's nodes. *)
Lemma nodeTimeline_dom plan :
  dom (nodeTimeline (Some plan)) = idSet (nodes plan).
Proof.
  unfold nodeTimeline, planStops. rewrite timelineMap_dom, timelineStops_nodes.
  apply reorderNodes_idSet.
Qed.
(** ** Clock texts *)

Lemma Qfloor_div60 m : (0 <= m)%Q → Qfloor (m / 60) = Qfloor m / 60.
Proof.
  intros _. destruct m as [n d]. unfold Qdiv, Qmult, Qinv, Qfloor. simpl.
  rewrite Z.mul_1_r. rewrite Pos2Z.inj_mul. by rewrite Z.div_div by lia.
Qed.

Lemma Qfloor_minus_Z q z : Qfloor (q - inject_Z z) = Qfloor q - z.
Proof.
  destruct q as [n d]. unfold Qminus, Qplus, Qopp, Qfloor, inject_Z. simpl.
  rewrite Z.mul_1_r, Pos.mul_1_r.
  replace (n + - z * Z.pos d) with (n + (- z) * Z.pos d) by lia.
  rewrite Z.div_add by lia. lia.
Qed.

Lemma Qdiv60_nonneg m : (0 <= m)%Q → (0 <= m / 60)%Q.
Proof.
  intros H. apply Qmult_le_0_compat; [done|]. by apply Qinv_le_0_compat.
Qed.

Lemma Qfloor_nonneg m : (0 <= m)%Q → 0 ≤ Qfloor m.
Proof.
  intros H. exact (Qfloor_resp_le _ _ H).
Qed.

(** The hour and the minute that [formatTime] prints. *)
Lemma formatTime_nonneg m :
  (0 <= m)%Q →
  formatTime m
  = (padStart2 (numToString ((Qfloor m / 60) mod 24)) ++ ":"
     ++ padStart2 (numToString (Qfloor m mod 60)))%string.
Proof.
  intros Hm. unfold formatTime.
  pose proof (Qfloor_nonneg m Hm) as Hf.
  rewrite (Qfloor_div60 m Hm).
  assert (Hq : 0 ≤ Qfloor m / 60) by (apply Z.div_pos; lia).
  rewrite Z.rem_mod_nonneg by lia.
  assert (Hrem : Qfloor (jsRem m 60) = Qfloor m mod 60).
  { unfold jsRem, Qtrunc.
    assert (Hle : Qle_bool 0 (m / 60) = true)
      by (apply Qle_bool_iff; by apply Qdiv60_nonneg).
    rewrite Hle, (Qfloor_div60 m Hm).
    assert (Heq : (m - 60 * inject_Z (Qfloor m / 60)
                   == m - inject_Z (60 * (Qfloor m / 60)))%Q).
    { rewrite inject_Z_mult. reflexivity. }
    rewrite (Qfloor_comp _ _ Heq), Qfloor_minus_Z.
    rewrite Z.mod_eq by lia. lia. }
  by rewrite Hrem.
Qed.

Lemma twoDigits_below_60 z : 0 ≤ z < 60 → twoDigitsOk z = true.
Proof.
  intros Hz.
  assert (Hall : forallb twoDigitsOk (Z.of_nat <$> seq 0 60) = true)
    by (by vm_compute).
  rewrite forallb_forall in Hall. apply Hall.
  apply list_elem_of_In. replace z with (Z.of_nat (Z.to_nat z)) by lia.
  apply list_elem_of_fmap_2. apply elem_of_seq. lia.
Qed.

Lemma splitColon_digits a : digitsOnly a = true → splitColon a = [a].
Proof.
  induction a as [|c a IH]; [done|]. simpl. intros H.
  apply andb_prop in H as [Hc Ha].
  destruct (Ascii.eqb c ":") eqn:Hcolon.
  - apply Ascii.eqb_eq in Hcolon as ->. done.
  - by rewrite (IH Ha).
Qed.

Lemma splitColon_app a b :
  digitsOnly a = true → digitsOnly b = true →
  splitColon (a ++ ":" ++ b) = [a; b].
Proof.
  intros Ha Hb. induction a as [|c a IH].
  - change (("" ++ ":" ++ b)%string) with (String ":" b).
    simpl. by rewrite (splitColon_digits b Hb).
  - simpl in Ha. apply andb_prop in Ha as [Hc Ha].
    change ((String c a ++ ":" ++ b)%string) with (String c (a ++ ":" ++ b)%string).
    simpl. destruct (Ascii.eqb c ":") eqn:Hcolon.
    + apply Ascii.eqb_eq in Hcolon as ->. done.
    + by rewrite (IH Ha).
Qed.

(** [getMinutes] reads a clock text back. *)
Lemma getMinutes_clock h mm :
  0 ≤ h < 60 → 0 ≤ mm < 60 →
  getMinutes (padStart2 (numToString h) ++ ":" ++ padStart2 (numToString mm))
  = Some (h * 60 + mm).
Proof.
  intros Hh Hmm.
  pose proof (twoDigits_below_60 h Hh) as H1.
  pose proof (twoDigits_below_60 mm Hmm) as H2.
  unfold twoDigitsOk in H1, H2.
  apply andb_prop in H1 as [H1 _]. apply andb_prop in H1 as [Hd1 Hv1].
  apply andb_prop in H2 as [H2 _]. apply andb_prop in H2 as [Hd2 Hv2].
  apply Z.eqb_eq in Hv1, Hv2.
  unfold getMinutes. rewrite splitColon_app by done. simpl.
  unfold jsNumber. by rewrite Hd1, Hd2, Hv1, Hv2.
Qed.

(** Round trip: the minutes read back from the text of [m] are the
    whole minutes of [m] on the 24-hour clock. *)
Lemma getMinutes_formatTime m :
  (0 <= m)%Q → getMinutes (formatTime m) = Some (Qfloor m mod 1440).
Proof.
  intros Hm. rewrite formatTime_nonneg by done.
  pose proof (Qfloor_nonneg m Hm) as Hf.
  rewrite getMinutes_clock.
  - f_equal. replace 1440 with (60 * 24) by lia.
    rewrite Z.rem_mul_r by lia. lia.
  - pose proof (Z.mod_pos_bound (Qfloor m / 60) 24). lia.
  - apply Z.mod_pos_bound. lia.
Qed.

Lemma string_length_app (a b : string) :
  String.length (a ++ b) = (String.length a + String.length b)%nat.
Proof.
  induction a as [|c a IH]; [done|].
  change ((String c a ++ b)%string) with (String c (a ++ b)%string).
  simpl. by rewrite IH.
Qed.

Lemma formatTime_length m : (0 <= m)%Q → String.length (formatTime m) = 5%nat.
Proof.
  intros Hm. rewrite formatTime_nonneg by done.
  pose proof (Qfloor_nonneg m Hm) as Hf.
  assert (Hh : 0 ≤ (Qfloor m / 60) mod 24 < 60)
    by (pose proof (Z.mod_pos_bound (Qfloor m / 60) 24); lia).
  assert (Hmm : 0 ≤ Qfloor m mod 60 < 60) by (apply Z.mod_pos_bound; lia).
  pose proof (twoDigits_below_60 _ Hh) as H1.
  pose proof (twoDigits_below_60 _ Hmm) as H2.
  unfold twoDigitsOk in H1, H2.
  apply andb_prop in H1 as [_ H1]. apply andb_prop in H2 as [_ H2].
  apply Nat.eqb_eq in H1, H2.
  rewrite !string_length_app, H1, H2. done.
Qed.
(** ** Route statistics *)

Lemma idSet_empty l : idSet l = ∅ ↔ l = [].
Proof.
  split; [|by intros ->].
  destruct l as [|n l]; [done|]. unfold idSet, ids. rewrite fmap_cons, list_to_set_cons.
  intros H. exfalso. apply (not_elem_of_empty (C:=gset Z) (node_id n)).
  rewrite <- H. set_solver.
Qed.

Lemma reorderNodes_nil_iff l es : reorderNodes l es = [] ↔ l = [].
Proof.
  rewrite <- (idSet_empty l), <- (reorderNodes_idSet l es). apply (iff_sym (idSet_empty _)).
Qed.

Lemma orText_length o t d :
  o = Some t → String.length t = 5%nat → orText o d = t.
Proof. intros -> Hl. by destruct t. Qed.

(** The statistics of a plan with at least one node. *)
Lemma routeStats_Some plan :
  nodes plan ≠ [] →
  ∃ stl, last (planStops plan) = Some stl
         ∧ (9 * 60 <= departureMinutes stl)%Q
         ∧ routeStats (Some plan)
           = Some (mkStats "09:00" (formatTime (departureMinutes stl))
                     (durationText (Qfloor (departureMinutes stl) mod 1440 - 540))
                     (length (nodes plan))).
Proof.
  intros Hne. unfold routeStats.
  assert (Hsize : size (nodeTimeline (Some plan)) ≠ 0%nat).
  { rewrite <- size_dom, nodeTimeline_dom. intros Hz.
    apply size_empty_inv in Hz. apply leibniz_equiv in Hz.
    by apply idSet_empty in Hz. }
  rewrite decide_False by done.
  pose proof (reorderNodes_ids_NoDup (nodes plan) (edges plan)) as Hnd.
  assert (Hnodes : stop_node <$> planStops plan
                   = reorderNodes (nodes plan) (edges plan))
    by apply timelineStops_nodes.
  destruct (reorderNodes (nodes plan) (edges plan)) as [|firstNode rest] eqn:Hsorted.
  { by apply reorderNodes_nil_iff in Hsorted. }
  destruct (last (planStops plan)) as [stl|] eqn:Hlast.
  2:{ apply last_None in Hlast. by rewrite Hlast in Hnodes. }
  exists stl.
  assert (Hlast' : last (firstNode :: rest) = Some (stop_node stl))
    by (by rewrite <- Hnodes, fmap_last, Hlast).
  rewrite Hlast'.
  assert (Hnd' : NoDup (ids (stop_node <$> planStops plan))) by (by rewrite Hnodes).
  (* the first stop *)
  destruct (planStops plan) as [|st0 stops] eqn:Hstops; [done|].
  injection Hnodes as Hn0 Hrest.
  assert (Hst0 : timelineStops (edges plan) (firstNode :: rest) 0
                   (firstNode :: rest) (9 * 60) !! 0%nat = Some st0).
  { unfold planStops in Hstops. rewrite Hsorted in Hstops. by rewrite Hstops. }
  assert (Harr0 : formatTime (arrivalMinutes st0) = "09:00"%string).
  { pose proof Hst0 as H0.
    apply timelineStops_lookup in H0 as (nd0 & _ & _ & Htt & _ & _ & Ha).
    simpl in Htt. rewrite Ha, Htt. by vm_compute. }
  (* the last stop *)
  assert (Hin : stl ∈ st0 :: stops).
  { apply last_Some in Hlast as [k ->]. apply elem_of_app. right.
    by apply list_elem_of_singleton. }
  pose proof Hin as Hk. apply list_elem_of_lookup in Hk as [k Hk].
  assert (Hk' : timelineStops (edges plan) (firstNode :: rest) 0
                  (firstNode :: rest) (9 * 60) !! k = Some stl).
  { unfold planStops in Hstops. rewrite Hsorted in Hstops. by rewrite Hstops. }
  apply timeline_clock_monotone in Hk' as (Hs & Had & _).
  assert (Hdep : (9 * 60 <= departureMinutes stl)%Q) by (by eapply Qle_trans).
  assert (Hdep0 : (0 <= departureMinutes stl)%Q)
    by (eapply Qle_trans; [|exact Hdep]; done).
  split; [done|]. split; [done|].
  unfold nodeTimeline. rewrite Hstops.
  rewrite <- Hn0.
  rewrite (timelineMap_lookup (st0 :: stops) st0 Hnd') by (by left).
  rewrite (timelineMap_lookup (st0 :: stops) stl Hnd' Hin).
  cbn [fmap option_fmap option_map arrival departure]. rewrite Harr0.
  assert (Hend : orText (Some (formatTime (departureMinutes stl))) "18:00"
                 = formatTime (departureMinutes stl))
    by (apply orText_length; [done|by apply formatTime_length]).
  rewrite Hend, getMinutes_formatTime by done.
  assert (Hstart : orText (Some "09:00"%string) "09:00" = "09:00"%string) by done.
  rewrite Hstart.
  assert (H540 : getMinutes "09:00" = Some 540) by (by vm_compute).
  by rewrite H540.
Qed.

Lemma routeStats_None_iff plan : routeStats (Some plan) = None ↔ nodes plan = [].
Proof.
  split.
  - intros H. destruct (decide (nodes plan = [])) as [|Hne]; [done|].
    apply routeStats_Some in Hne as (stl & _ & _ & Hs). congruence.
  - intros Hnil. unfold routeStats.
    assert (Hsize : size (nodeTimeline (Some plan)) = 0%nat).
    { rewrite <- size_dom, nodeTimeline_dom, Hnil. done. }
    by rewrite decide_True.
Qed.
(** ** The layout *)

Lemma isLeft_add4 i : isLeft (i + 4) = isLeft i.
Proof.
  unfold isLeft.
  replace (i + 4)%nat with (i + 2 * 2)%nat by lia.
  rewrite Nat.div_add by done. rewrite Nat.Div0.mod_add.
  replace (i / 2 + 2)%nat with (i / 2 + 1 * 2)%nat by lia.
  by rewrite Nat.Div0.mod_add.
Qed.

Lemma isLeft_mod4 i : isLeft i = isLeft (i mod 4).
Proof.
  rewrite (Nat.div_mod_eq i 4) at 1.
  generalize (i / 4)%nat (i mod 4)%nat. intros q r.
  induction q as [|q IH]; [by rewrite Nat.mul_0_r|].
  replace (4 * S q + r)%nat with (4 * q + r + 4)%nat by lia.
  by rewrite isLeft_add4.
Qed.

(** The snake pattern: left, right, right, left, and so on. *)
Lemma isLeft_pattern i :
  isLeft i = true ↔ (i mod 4 = 0 ∨ i mod 4 = 3)%nat.
Proof.
  rewrite isLeft_mod4.
  pose proof (Nat.mod_upper_bound i 4) as Hb.
  destruct (i mod 4)%nat as [|[|[|[|k]]]]; try lia; vm_compute; split; intros H;
    try done; try (by left); try (by right); destruct H; done.
Qed.

Lemma computedNodes_lookup plan i :
  computedNodes plan !! i
  = placeNode (length (reorderNodes (nodes plan) (edges plan))) i
      <$> reorderNodes (nodes plan) (edges plan) !! i.
Proof. unfold computedNodes. apply list_lookup_imap. Qed.

Lemma computedNodes_nodes plan :
  layout_node <$> computedNodes plan = reorderNodes (nodes plan) (edges plan).
Proof.
  unfold computedNodes.
  generalize (length (reorderNodes (nodes plan) (edges plan))) as len.
  intros len. apply list_eq. intros i.
  rewrite list_lookup_fmap, list_lookup_imap.
  by destruct (reorderNodes (nodes plan) (edges plan) !! i).
Qed.

Lemma findLayout_Some computed v ln :
  findLayout computed v = Some ln → ln ∈ computed ∧ node_id (layout_node ln) = v.
Proof.
  unfold findLayout. intros H. apply find_some in H as [Hin Hb].
  apply list_elem_of_In in Hin. by apply bool_decide_eq_true in Hb.
Qed.

Lemma findLayout_is_Some computed v :
  is_Some (findLayout computed v) ↔ v ∈ ids (layout_node <$> computed).
Proof.
  split.
  - intros [ln H]. apply findLayout_Some in H as [Hin <-].
    unfold ids. by do 2 apply list_elem_of_fmap_2.
  - intros Hv. unfold ids in Hv.
    apply list_elem_of_fmap in Hv as (n & -> & Hn).
    apply list_elem_of_fmap in Hn as (ln & -> & Hln).
    destruct (findLayout computed (node_id (layout_node ln))) eqn:Hf; [by eauto|].
    exfalso. unfold findLayout in Hf. apply list_elem_of_In in Hln.
    pose proof (find_none _ _ Hf _ Hln) as Hb. simpl in Hb.
    by rewrite bool_decide_eq_true_2 in Hb.
Qed.

Lemma drawEdge_Some computed edge d :
  drawEdge computed edge = Some d →
  drawn_edge d = edge
  ∧ findLayout computed (edge_from edge) = Some (drawn_source d)
  ∧ findLayout computed (edge_to edge) = Some (drawn_target d).
Proof.
  unfold drawEdge.
  destruct (findLayout computed (edge_from edge)) as [s|]; [|done].
  destruct (findLayout computed (edge_to edge)) as [t|]; [|done].
  destruct (edgeStyle (transportMode edge)) as [[[c w] da] o].
  by intros [= <-].
Qed.

Lemma drawEdge_is_Some computed edge :
  is_Some (drawEdge computed edge)
  ↔ edge_from edge ∈ ids (layout_node <$> computed)
    ∧ edge_to edge ∈ ids (layout_node <$> computed).
Proof.
  rewrite <- !findLayout_is_Some. unfold drawEdge.
  destruct (findLayout computed (edge_from edge)) as [s|];
    destruct (findLayout computed (edge_to edge)) as [t|];
    try destruct (edgeStyle (transportMode edge)) as [[[c w] da] o];
    split; try (intros [? ?]; done); try (intros [[? ?] [? ?]]; done).
Qed.

Lemma omap_cons_eq {A B} (f : A → option B) a l :
  omap f (a :: l) = match f a with Some b => b :: omap f l | None => omap f l end.
Proof. done. Qed.

(** ** More on the clusterer *)

(** Induction along the rounds of the clusterer. *)
Lemma mapItems_rounds (P : list MapZone → list MapItem → Prop) :
  P [] [] →
  (∀ worklist seed,
     P (filter (fun z => near seed z ≠ true) worklist)
       (mapItems (filter (fun z => near seed z ≠ true) worklist)) →
     P (worklist ++ [seed])
       (makeItem seed
          (seed :: reverse (filter (fun z => near seed z = true) worklist))
          :: mapItems (filter (fun z => near seed z ≠ true) worklist))) →
  ∀ zones, P zones (mapItems zones).
Proof.
  intros Hnil Hstep zones.
  remember (length zones) as n eqn:Hn. revert zones Hn.
  induction (lt_wf n) as [n _ IH]; intros zones ->.
  destruct zones as [|seed pre _] using rev_ind; [exact Hnil|].
  rewrite mapItems_snoc. apply Hstep.
  pose proof (length_filter (fun y => near seed y ≠ true) pre) as Hf.
  eapply IH; [|done]. rewrite length_app. simpl. lia.
Qed.

Lemma seedOf_makeItem seed rest : seedOf (makeItem seed (seed :: rest)) = Some seed.
Proof. unfold seedOf. by rewrite members_makeItem. Qed.

Lemma elem_of_concat {A} (ls : list (list A)) (a : A) :
  a ∈ concat ls ↔ ∃ k, k ∈ ls ∧ a ∈ k.
Proof.
  rewrite list_elem_of_In, in_concat. split.
  - intros (k & Hk & Ha). exists k. by rewrite !list_elem_of_In.
  - intros (k & Hk & Ha). exists k. by rewrite <- !list_elem_of_In.
Qed.

Lemma mapItems_members_sub zones it z :
  it ∈ mapItems zones → z ∈ members it → z ∈ zones.
Proof.
  intros Hit Hz. rewrite <- (mapItems_partition zones).
  apply elem_of_concat. exists (members it). split; [|done].
  by apply list_elem_of_fmap_2.
Qed.

Lemma hasRed_true zs : hasRed zs = true ↔ ∃ z, z ∈ zs ∧ zone_type z = RED.
Proof.
  unfold hasRed. rewrite existsb_exists. split.
  - intros (z & Hz & Ht). exists z. split; [by apply list_elem_of_In|].
    by destruct (zone_type z).
  - intros (z & Hz & Ht). exists z. split; [by apply list_elem_of_In|].
    by rewrite Ht.
Qed.

Lemma mapItems_item_form zones it :
  it ∈ mapItems zones →
  ∃ seed rest, it = makeItem seed (seed :: rest)
               ∧ ∀ z, z ∈ rest → near seed z = true.
Proof.
  revert it.
  apply (mapItems_rounds (fun zones items =>
    ∀ it, it ∈ items →
          ∃ seed rest, it = makeItem seed (seed :: rest)
                       ∧ ∀ z, z ∈ rest → near seed z = true)).
  - intros it Hit. by apply elem_of_nil in Hit.
  - intros worklist seed IH it Hit.
    apply elem_of_cons in Hit as [->|Hit]; [|by apply IH].
    eexists _, _. split; [done|]. intros z Hz.
    by apply elem_of_reverse, list_elem_of_filter in Hz as [? _].
Qed.

(** ** The zone service *)

Lemma insertNewest_Permutation a l : insertNewest a l ≡ₚ a :: l.
Proof.
  induction l as [|b l IH]; [done|]. simpl.
  destruct (submittedAt b <=? submittedAt a); [done|].
  rewrite IH. apply Permutation_swap.
Qed.

Lemma sortNewestFirst_Permutation l : sortNewestFirst l ≡ₚ l.
Proof.
  induction l as [|a l IH]; [done|].
  unfold sortNewestFirst in *. simpl. by rewrite insertNewest_Permutation, IH.
Qed.

Lemma insertNewest_sorted a l : newestFirst l → newestFirst (insertNewest a l).
Proof.
  induction l as [|b l IH]; intros Hs; simpl.
  - split; [constructor|done].
  - destruct Hs as [Hb Hl].
    destruct (submittedAt b <=? submittedAt a) eqn:Hle.
    + apply Z.leb_le in Hle. split; [|by split].
      constructor; [done|]. eapply Forall_impl; [exact Hb|].
      intros c Hc. simpl in Hc. lia.
    + apply Z.leb_gt in Hle. split; [|by apply IH].
      rewrite insertNewest_Permutation. constructor; [lia|done].
Qed.

Lemma sortNewestFirst_sorted l : newestFirst (sortNewestFirst l).
Proof.
  induction l as [|a l IH]; [done|].
  unfold sortNewestFirst in *. simpl. by apply insertNewest_sorted.
Qed.

Lemma newestFirst_lookup l i j a b :
  newestFirst l → l !! i = Some a → l !! j = Some b → (i < j)%nat →
  submittedAt b ≤ submittedAt a.
Proof.
  revert i j. induction l as [|c l IH]; intros i j Hs Hi Hj Hij; [done|].
  destruct Hs as [Hc Hl]. destruct j as [|j]; [lia|]. simpl in Hj.
  destruct i as [|i].
  - injection Hi as <-. rewrite Forall_forall in Hc. apply Hc.
    by eapply list_elem_of_lookup_2.
  - simpl in Hi. eapply (IH i j); try done. lia.
Qed.

Lemma insertNewest_head a l :
  Forall (fun c => submittedAt c ≤ submittedAt a) l → insertNewest a l = a :: l.
Proof.
  intros Hl. destruct l as [|b l]; [done|]. simpl.
  apply Forall_cons in Hl as [Hb _].
  by rewrite (proj2 (Z.leb_le _ _) Hb).
Qed.

(** The stable sort commutes with a selection. *)
Lemma insertNewest_filter (P : ZoneSubmission → Prop) `{∀ s, Decision (P s)} a l :
  newestFirst l →
  filter P (insertNewest a l)
  = if decide (P a) then insertNewest a (filter P l) else filter P l.
Proof.
  induction l as [|b l IH]; intros Hs.
  - simpl. rewrite filter_cons, filter_nil. by destruct (decide (P a)).
  - destruct Hs as [Hb Hl]. simpl.
    destruct (submittedAt b <=? submittedAt a) eqn:Hle.
    + apply Z.leb_le in Hle. rewrite (filter_cons P a).
      destruct (decide (P a)) as [Ha|Ha]; [|done].
      symmetry. apply insertNewest_head.
      apply Forall_forall. intros c Hc. apply list_elem_of_filter in Hc as [_ Hc].
      apply elem_of_cons in Hc as [->|Hc]; [done|].
      rewrite Forall_forall in Hb. specialize (Hb c Hc). simpl in Hb. lia.
    + rewrite !(filter_cons P b), (IH Hl).
      destruct (decide (P b)), (decide (P a)); simpl; try done.
      by rewrite Hle.
Qed.

Lemma sortNewestFirst_filter (P : ZoneSubmission → Prop) `{∀ s, Decision (P s)} l :
  filter P (sortNewestFirst l) = sortNewestFirst (filter P l).
Proof.
  induction l as [|a l IH]; [done|].
  rewrite filter_cons. unfold sortNewestFirst in *. simpl.
  rewrite insertNewest_filter by apply sortNewestFirst_sorted.
  destruct (decide (P a)); simpl; by rewrite IH.
Qed.

(** The pending list holds the pending submissions, newest first. *)
Lemma getPendingSubmissions_sorted st :
  getPendingSubmissions st ≡ₚ filter isPending (getStoredSubmissions st)
  ∧ newestFirst (getPendingSubmissions st).
Proof.
  unfold getPendingSubmissions. split.
  - apply sortNewestFirst_Permutation.
  - apply sortNewestFirst_sorted.
Qed.

Lemma approvedZone_pending s : status s = PENDING → approvedZone s = None.
Proof. unfold approvedZone. by intros ->. Qed.

Lemma alter_middle {A} (f : A → A) (l1 : list A) a l2 :
  alter f (length l1) (l1 ++ a :: l2) = l1 ++ f a :: l2.
Proof. induction l1 as [|b l1 IH]; [done|]. simpl. f_equal. exact IH. Qed.

Lemma list_find_middle (id : string) l1 s l2 :
  (∀ t, t ∈ l1 → sub_id t ≠ id) → sub_id s = id →
  list_find (fun s => sub_id s = id) (l1 ++ s :: l2) = Some (length l1, s).
Proof.
  intros Hl1 Hs. apply list_find_Some. split_and!.
  - by rewrite lookup_app_r, Nat.sub_diag.
  - done.
  - intros j y Hj Hlt. apply Hl1. rewrite lookup_app_l in Hj by done.
    by eapply list_elem_of_lookup_2.
Qed.

Lemma list_find_split (id : string) l i s :
  list_find (fun s => sub_id s = id) l = Some (i, s) →
  ∃ l1 l2, l = l1 ++ s :: l2 ∧ i = length l1
           ∧ (∀ t, t ∈ l1 → sub_id t ≠ id) ∧ sub_id s = id.
Proof.
  intros H. apply list_find_Some in H as (Hi & Hs & Hbefore).
  exists (take i l), (drop (S i) l). split_and!.
  - by rewrite take_drop_middle.
  - rewrite length_take. apply lookup_lt_Some in Hi. lia.
  - intros t Ht. apply list_elem_of_lookup in Ht as [j Hj].
    pose proof (lookup_lt_Some _ _ _ Hj) as Hlt. rewrite length_take in Hlt.
    rewrite lookup_take_lt in Hj by lia. eapply Hbefore; [done|lia].
  - done.
Qed.

(** Moderating an id that no stored submission bears changes nothing. *)
Lemma moderateSubmission_unknown id action st :
  (∀ s, s ∈ getStoredSubmissions st → sub_id s ≠ id) →
  moderateSubmission id action st = st.
Proof.
  intros Hno. unfold moderateSubmission.
  destruct (list_find _ _) as [[i s]|] eqn:Hf; [|done].
  apply list_find_Some in Hf as (Hi & Hs & _).
  exfalso. apply (Hno s); [by eapply list_elem_of_lookup_2|done].
Qed.

(** Moderation gives the new status to the first stored submission of
    the id and keeps everything else. *)
Lemma moderateSubmission_first id action st l1 s l2 :
  getStoredSubmissions st = l1 ++ s :: l2 →
  (∀ t, t ∈ l1 → sub_id t ≠ id) → sub_id s = id →
  moderateSubmission id action st
  = Item (l1 ++ withStatus (statusOf action) s :: l2).
Proof.
  intros Hst Hl1 Hs. unfold moderateSubmission. rewrite Hst.
  rewrite (list_find_middle id l1 s l2 Hl1 Hs). unfold saveSubmissions.
  by rewrite alter_middle.
Qed.

(** * Statements about the further code *)

(** ** Timeline Estimator *)

(** X1. The duration parser never returns a negative number of minutes,
    whatever the text. *)
Theorem parseDurationToMinutes_never_negative (str : option string) :
  (0 <= parseDurationToMinutes str)%Q.
Proof. apply parseDurationWith_nonneg. Qed.

(** X2. The clock of the timeline never goes back: every stop is reached
    at 09:00 or later, is left no earlier than it is reached, and the
    next stop is reached no earlier than this one is left. *)
Theorem planStops_clock_never_goes_back (plan : RoutePlan) (k : nat) (st : Stop) :
  planStops plan !! k = Some st →
  (9 * 60 <= arrivalMinutes st)%Q
  ∧ (arrivalMinutes st <= departureMinutes st)%Q
  ∧ ∀ st', planStops plan !! S k = Some st' →
           (departureMinutes st <= arrivalMinutes st')%Q.
Proof. apply timeline_clock_monotone. Qed.

Lemma planStops_clock_never_goes_back_witness :
  let plan := mkPlan "" [plainNode 2; plainNode 1] [plainEdge 1 2] in
  ∃ st, planStops plan !! 0%nat = Some st
        ∧ (9 * 60 <= arrivalMinutes st)%Q
        ∧ (arrivalMinutes st <= departureMinutes st)%Q
        ∧ ∀ st', planStops plan !! 1%nat = Some st' →
                 (departureMinutes st <= arrivalMinutes st')%Q.
Proof.
  intros plan. eexists. split; [by vm_compute|].
  apply (planStops_clock_never_goes_back plan 0). by vm_compute.
Defined.

(** X3. The timeline has an entry for exactly the ids of the nodes of
    the plan. *)
Theorem nodeTimeline_entry_per_node (plan : RoutePlan) (id : Z) :
  is_Some (nodeTimeline (Some plan) !! id) ↔ id ∈ ids (nodes plan).
Proof.
  rewrite <- elem_of_dom, nodeTimeline_dom. unfold idSet.
  apply elem_of_list_to_set.
Qed.

(** X4. The entry of a stop is never overwritten by a later stop: the
    timeline maps the id of the node of every stop to the clock texts
    of the arrival and the departure of that stop. *)
Theorem nodeTimeline_entry_of_stop (plan : RoutePlan) (st : Stop) :
  st ∈ planStops plan →
  nodeTimeline (Some plan) !! node_id (stop_node st)
  = Some (mkEntry (formatTime (arrivalMinutes st))
                  (formatTime (departureMinutes st))).
Proof.
  intros Hst. apply timelineMap_lookup; [|done].
  unfold planStops. rewrite timelineStops_nodes. apply reorderNodes_ids_NoDup.
Qed.

Lemma nodeTimeline_entry_of_stop_witness :
  let plan := mkPlan "" [plainNode 2; plainNode 1] [plainEdge 1 2] in
  let st := mkStop (plainNode 2) 0 570 30 600 in
  st ∈ planStops plan
  ∧ nodeTimeline (Some plan) !! 2 = Some (mkEntry "09:30" "10:00").
Proof.
  intros plan st.
  assert (Hst : st ∈ planStops plan).
  { replace (planStops plan) with [mkStop (plainNode 1) 0 540 30 570; st]
      by (by vm_compute).
    in_list. }
  split; [exact Hst|].
  exact (nodeTimeline_entry_of_stop plan st Hst).
Defined.

(** X5. For a clock that is a whole number of minutes from 0 to
    2^53 - 1, [formatTime] gives the hour of the day and the minute of
    the hour, each padded to two characters: a text of five
    characters. *)
Theorem formatTime_clock_text (z : Z) :
  0 ≤ z ≤ MAX_SAFE_INTEGER →
  formatTime (inject_Z z)
  = (padStart2 (numToString ((z / 60) mod 24)) ++ ":"
     ++ padStart2 (numToString (z mod 60)))%string
  ∧ String.length (formatTime (inject_Z z)) = 5%nat.
Proof.
  intros [Hz _].
  assert (Hm : (0 <= inject_Z z)%Q) by (by apply inject_Z_nonneg).
  split; [|by apply formatTime_length].
  rewrite formatTime_nonneg by done. by rewrite Qfloor_Z.
Qed.

Lemma formatTime_clock_text_witness :
  0 ≤ 1540 ≤ MAX_SAFE_INTEGER
  ∧ formatTime (inject_Z 1540) = "01:40"%string
  ∧ String.length (formatTime (inject_Z 1540)) = 5%nat.
Proof.
  assert (Hz : 0 ≤ 1540 ≤ MAX_SAFE_INTEGER) by (by vm_compute).
  split; [exact Hz|].
  exact (formatTime_clock_text 1540 Hz).
Defined.

(** X6. The clock text wraps at midnight: within the whole numbers of
    minutes from 0 to 2^53 - 1, a clock that is a day later has the same
    text. *)
Theorem formatTime_wraps_daily (z : Z) :
  0 ≤ z → z + 1440 ≤ MAX_SAFE_INTEGER →
  formatTime (inject_Z (z + 1440)) = formatTime (inject_Z z).
Proof.
  intros Hz _.
  rewrite !formatTime_nonneg by (apply inject_Z_nonneg; lia).
  rewrite !Qfloor_Z.
  replace (z + 1440) with (z + 24 * 60) by lia.
  rewrite Z.div_add by lia.
  replace ((z / 60 + 24) mod 24) with ((z / 60) mod 24)
    by (rewrite <- (Z.mod_add (z / 60) 1 24) by lia; f_equal; lia).
  replace ((z + 24 * 60) mod 60) with (z mod 60)
    by (rewrite <- (Z.mod_add z 24 60) by lia; f_equal; lia).
  done.
Qed.

Lemma formatTime_wraps_daily_witness :
  0 ≤ 570 ∧ 570 + 1440 ≤ MAX_SAFE_INTEGER
  ∧ formatTime (inject_Z (570 + 1440)) = formatTime (inject_Z 570).
Proof.
  assert (Hz : 0 ≤ 570) by lia.
  assert (Hmax : 570 + 1440 ≤ MAX_SAFE_INTEGER) by (by vm_compute).
  split_and!; [exact Hz|exact Hmax|].
  exact (formatTime_wraps_daily 570 Hz Hmax).
Defined.

(** ** Route statistics *)

(** X7. [getMinutes] reads back the text of [formatTime]: for a clock
    that is a whole number of minutes from 0 to 2^53 - 1 it returns the
    minutes of the clock within the day. *)
Theorem getMinutes_reads_formatTime (z : Z) :
  0 ≤ z ≤ MAX_SAFE_INTEGER →
  getMinutes (formatTime (inject_Z z)) = Some (z mod 1440).
Proof.
  intros [Hz _].
  rewrite getMinutes_formatTime by (by apply inject_Z_nonneg).
  by rewrite Qfloor_Z.
Qed.

Lemma getMinutes_reads_formatTime_witness :
  0 ≤ 2010 ≤ MAX_SAFE_INTEGER
  ∧ getMinutes (formatTime (inject_Z 2010)) = Some 570.
Proof.
  assert (Hz : 0 ≤ 2010 ≤ MAX_SAFE_INTEGER) by (by vm_compute).
  split; [exact Hz|].
  exact (getMinutes_reads_formatTime 2010 Hz).
Defined.

(** X8. There are no statistics without a plan, and a plan has none
    exactly when it has no node. *)
Theorem routeStats_absent_iff_no_nodes :
  routeStats None = None
  ∧ ∀ plan, routeStats (Some plan) = None ↔ nodes plan = [].
Proof. split; [done|]. apply routeStats_None_iff. Qed.

(** X9. For a plan with a node the statistics start at 09:00, end with
    the clock text of the departure from the last stop, and count the
    nodes of the plan as given. *)
Theorem routeStats_summary (plan : RoutePlan) :
  nodes plan ≠ [] →
  ∃ stl stats,
    last (planStops plan) = Some stl
    ∧ routeStats (Some plan) = Some stats
    ∧ stats_start stats = "09:00"%string
    ∧ stats_end stats = formatTime (departureMinutes stl)
    ∧ stats_count stats = length (nodes plan).
Proof.
  intros Hne. destruct (routeStats_Some plan Hne) as (stl & Hl & _ & Hs).
  eexists stl, _. split; [done|]. split; [exact Hs|]. done.
Qed.

Lemma routeStats_summary_witness :
  let plan := mkPlan "" [plainNode 2; plainNode 1] [plainEdge 1 2] in
  nodes plan ≠ []
  ∧ ∃ stl stats,
      last (planStops plan) = Some stl
      ∧ routeStats (Some plan) = Some stats
      ∧ stats_start stats = "09:00"%string
      ∧ stats_end stats = formatTime (departureMinutes stl)
      ∧ stats_count stats = length (nodes plan).
Proof.
  intros plan.
  assert (Hne : nodes plan ≠ []) by done.
  split; [exact Hne|]. exact (routeStats_summary plan Hne).
Defined.



(** ** Node layout and edge drawing *)

(** X11. The layout puts the ordered nodes one per row, 160 apart from
    80 down, in a snake of two columns: the left column (200) for the
    positions 0 and 3 of every four, the right column (600) for the
    positions 1 and 2; the first node is the start and the last one the
    end. *)
Theorem computedNodes_snake_layout (plan : RoutePlan) (i : nat) (ln : LayoutNode) :
  computedNodes plan !! i = Some ln →
  reorderNodes (nodes plan) (edges plan) !! i = Some (layout_node ln)
  ∧ (layout_x ln
     == if decide (i mod 4 = 0 ∨ i mod 4 = 3)%nat then 200 else 600)%Q
  ∧ (layout_y ln == 80 + 160 * inject_Z (Z.of_nat i))%Q
  ∧ (isStart ln = true ↔ i = 0%nat)
  ∧ (isEnd ln = true
     ↔ S i = length (reorderNodes (nodes plan) (edges plan))).
Proof.
  intros Hi. rewrite computedNodes_lookup in Hi.
  destruct (reorderNodes (nodes plan) (edges plan) !! i) as [node|] eqn:Hn;
    [|done].
  injection Hi as <-. unfold placeNode. cbn [layout_node layout_x layout_y isStart isEnd].
  split_and!.
  - done.
  - destruct (decide _) as [Hp|Hp].
    + apply isLeft_pattern in Hp. rewrite Hp. reflexivity.
    + destruct (isLeft i) eqn:Hl; [|reflexivity].
      by apply isLeft_pattern in Hl.
  - unfold PADDING_TOP, ROW_HEIGHT. ring.
  - apply Nat.eqb_eq.
  - rewrite Z.eqb_eq. lia.
Qed.

Lemma computedNodes_snake_layout_witness :
  let plan := mkPlan "" [plainNode 1; plainNode 2; plainNode 3; plainNode 4]
                     [plainEdge 1 2; plainEdge 2 3; plainEdge 3 4] in
  ∃ ln, computedNodes plan !! 3%nat = Some ln
        ∧ layout_node ln = plainNode 4
        ∧ (layout_x ln == 200)%Q ∧ (layout_y ln == 560)%Q
        ∧ isStart ln = false ∧ isEnd ln = true.
Proof.
  intros plan.
  destruct (computedNodes plan !! 3%nat) as [ln|] eqn:Hln;
    [|by vm_compute in Hln].
  exists ln. split; [done|].
  destruct (computedNodes_snake_layout plan 3 ln Hln)
    as (Hn & Hx & Hy & Hs & He).
  split_and!.
  - assert (Hfour : reorderNodes (nodes plan) (edges plan) !! 3%nat
                    = Some (plainNode 4)) by (by vm_compute).
    rewrite Hfour in Hn. by injection Hn.
  - exact Hx.
  - rewrite Hy. reflexivity.
  - destruct (isStart ln); [|done]. by destruct Hs as [Hs _]; specialize (Hs eq_refl).
  - apply He. by vm_compute.
Defined.

(** X12. The edges that are drawn are, in the order of the plan, the
    edges whose two end points are ids of nodes of the plan; the others
    are left out. *)
Theorem drawnEdges_are_present_edges (plan : RoutePlan) :
  drawn_edge <$> drawnEdges plan = presentEdges (nodes plan) (edges plan).
Proof.
  unfold drawnEdges, presentEdges.
  assert (Hids : ∀ v, v ∈ ids (layout_node <$> computedNodes plan)
                      ↔ v ∈ ids (nodes plan)).
  { intros v. rewrite computedNodes_nodes. apply reorderNodes_ids_elem. }
  induction (edges plan) as [|e es IH]; [done|].
  rewrite filter_cons, omap_cons_eq.
  destruct (drawEdge (computedNodes plan) e) as [d|] eqn:Hd.
  - pose proof (drawEdge_Some _ _ _ Hd) as (He & _).
    assert (Hs : is_Some (drawEdge (computedNodes plan) e)) by eauto.
    apply drawEdge_is_Some in Hs as [H1 H2]. rewrite !Hids in H1, H2.
    rewrite decide_True by done. rewrite fmap_cons, He. by rewrite IH.
  - rewrite decide_False; [exact IH|].
    intros [H1 H2]. rewrite <- !Hids in H1, H2.
    assert (Hs : is_Some (drawEdge (computedNodes plan) e))
      by (by apply drawEdge_is_Some).
    rewrite Hd in Hs. by destruct Hs.
Qed.

(** X13. A drawn edge runs between two laid-out nodes that bear the ids
    of its end points. *)
Theorem drawnEdges_end_points (plan : RoutePlan) (d : DrawnEdge) :
  d ∈ drawnEdges plan →
  drawn_edge d ∈ edges plan
  ∧ drawn_source d ∈ computedNodes plan
  ∧ drawn_target d ∈ computedNodes plan
  ∧ node_id (layout_node (drawn_source d)) = edge_from (drawn_edge d)
  ∧ node_id (layout_node (drawn_target d)) = edge_to (drawn_edge d).
Proof.
  unfold drawnEdges. intros Hd. apply list_elem_of_omap in Hd as (e & He & Hd).
  apply drawEdge_Some in Hd as (-> & Hs & Ht).
  apply findLayout_Some in Hs as [Hs1 Hs2]. apply findLayout_Some in Ht as [Ht1 Ht2].
  by split_and!.
Qed.

Lemma drawnEdges_end_points_witness :
  let plan := mkPlan "" [plainNode 2; plainNode 1] [plainEdge 1 9; plainEdge 1 2] in
  ∃ d, d ∈ drawnEdges plan
       ∧ drawn_edge d = plainEdge 1 2
       ∧ drawn_source d ∈ computedNodes plan
       ∧ drawn_target d ∈ computedNodes plan
       ∧ node_id (layout_node (drawn_source d)) = 1
       ∧ node_id (layout_node (drawn_target d)) = 2.
Proof.
  intros plan.
  destruct (drawnEdges plan) as [|d rest] eqn:Hd; [by vm_compute in Hd|].
  rewrite <- Hd.
  assert (He : drawn_edge d = plainEdge 1 2).
  { assert (H1 : drawn_edge <$> drawnEdges plan = [plainEdge 1 2])
      by (by vm_compute).
    rewrite Hd in H1. by injection H1. }
  assert (Hin : d ∈ drawnEdges plan) by (rewrite Hd; apply list_elem_of_here).
  exists d. split; [exact Hin|]. split; [exact He|].
  destruct (drawnEdges_end_points plan d Hin) as (_ & Hs & Ht & Hf & Hto).
  rewrite He in Hf, Hto. done.
Defined.

(** ** Spatial Clusterer and markers *)

(** X14. A cluster has at least two members, and there are never more
    items than zones. *)
Theorem mapItems_cluster_size (zones : list MapZone) :
  Forall (fun it => match it with
                    | single _ => True
                    | cluster zs _ _ _ => (2 ≤ length zs)%nat
                    end) (mapItems zones)
  ∧ (length (mapItems zones) ≤ length zones)%nat.
Proof.
  apply (mapItems_rounds (fun zones items =>
    Forall (fun it => match it with
                      | single _ => True
                      | cluster zs _ _ _ => (2 ≤ length zs)%nat
                      end) items
    ∧ (length items ≤ length zones)%nat)).
  - split; [constructor|done].
  - intros worklist seed [IH1 IH2]. split.
    + constructor; [|done]. unfold makeItem.
      destruct (reverse _) as [|a k]; [done|]. simpl. lia.
    + pose proof (length_filter (fun y => near seed y ≠ true) worklist) as Hf.
      rewrite length_app. simpl. lia.
Qed.

(** X15. Every member of an item other than its first is nearer to the
    first member than the threshold: the distance between the two, as
    the source computes it in binary64 arithmetic, is below 8. *)
Theorem mapItems_members_near_seed (zones : list MapZone) (it : MapItem)
    (seed z : MapZone) :
  it ∈ mapItems zones → seedOf it = Some seed → z ∈ tail (members it) →
  (dist seed z <? CLUSTER_THRESHOLD)%float = true.
Proof.
  change ((dist seed z <? CLUSTER_THRESHOLD)%float) with (near seed z).
  revert it seed z.
  apply (mapItems_rounds (fun zones items =>
    ∀ it seed z, it ∈ items → seedOf it = Some seed → z ∈ tail (members it) →
                 near seed z = true)).
  - intros it seed z Hit. by apply elem_of_nil in Hit.
  - intros worklist seed IH it seed' z Hit Hseed Hz.
    apply elem_of_cons in Hit as [->|Hit]; [|by eapply IH].
    rewrite seedOf_makeItem in Hseed. injection Hseed as <-.
    rewrite members_makeItem in Hz. simpl in Hz.
    apply elem_of_reverse, list_elem_of_filter in Hz as [Hz _]. done.
Qed.

Lemma mapItems_members_near_seed_witness :
  let a := pin "a" 1.6710058711015168 23.041285569960923 in
  let b := pin "b" 9.668681659038253 23.23411189350237 in
  let c := pin "c" 50 50 in
  makeItem b [b; a] ∈ mapItems [a; c; b]
  ∧ seedOf (makeItem b [b; a]) = Some b
  ∧ a ∈ tail (members (makeItem b [b; a]))
  ∧ dist b a = 7.999999999999999%float
  ∧ (dist b a <? CLUSTER_THRESHOLD)%float = true.
Proof.
  intros a b c.
  assert (Hin : makeItem b [b; a] ∈ mapItems [a; c; b]).
  { replace (mapItems [a; c; b]) with [makeItem b [b; a]; single c]
      by (by vm_compute).
    in_list. }
  assert (Hseed : seedOf (makeItem b [b; a]) = Some b) by done.
  assert (Hz : a ∈ tail (members (makeItem b [b; a])))
    by apply list_elem_of_here.
  split_and!; [exact Hin|exact Hseed|exact Hz|by vm_compute|].
  exact (mapItems_members_near_seed _ _ _ _ Hin Hseed Hz).
Defined.

(** X16. No member of an item is nearer than the threshold to the first
    member of an earlier item: the distance between the two, as the
    source computes it in binary64 arithmetic, is not below 8. *)
Theorem mapItems_later_items_far (zones : list MapZone) (i j : nat)
    (it1 it2 : MapItem) (seed z : MapZone) :
  mapItems zones !! i = Some it1 → mapItems zones !! j = Some it2 →
  (i < j)%nat → seedOf it1 = Some seed → z ∈ members it2 →
  (dist seed z <? CLUSTER_THRESHOLD)%float = false.
Proof.
  change ((dist seed z <? CLUSTER_THRESHOLD)%float) with (near seed z).
  rewrite <- not_true_iff_false.
  revert i j it1 it2 seed z.
  apply (mapItems_rounds (fun zones items =>
    ∀ i j it1 it2 seed z,
      items !! i = Some it1 → items !! j = Some it2 → (i < j)%nat →
      seedOf it1 = Some seed → z ∈ members it2 → near seed z ≠ true)).
  - intros i j it1 it2 seed z Hi. done.
  - intros worklist seed IH i j it1 it2 seed' z Hi Hj Hij Hseed Hz.
    destruct j as [|j]; [lia|]. cbn -[makeItem mapItems] in Hj.
    destruct i as [|i].
    + assert (Heq : it1 = makeItem seed
                (seed :: reverse (filter (fun z => near seed z = true) worklist)))
        by (by injection Hi).
      subst it1. rewrite seedOf_makeItem in Hseed. injection Hseed as <-.
      assert (Hin : z ∈ filter (fun z => near seed z ≠ true) worklist).
      { eapply mapItems_members_sub; [|exact Hz]. by eapply list_elem_of_lookup_2. }
      by apply list_elem_of_filter in Hin as [? _].
    + cbn -[makeItem mapItems] in Hi. eapply (IH i j); try done. lia.
Qed.

Lemma mapItems_later_items_far_witness :
  let a := pin "a" 0.1 0 in
  let b := pin "b" 8.1 0 in
  mapItems [a; b] !! 0%nat = Some (single b)
  ∧ mapItems [a; b] !! 1%nat = Some (single a)
  ∧ dist b a = 8%float
  ∧ (dist b a <? CLUSTER_THRESHOLD)%float = false.
Proof.
  intros a b.
  assert (H0 : mapItems [a; b] !! 0%nat = Some (single b))
    by (by vm_compute).
  assert (H1 : mapItems [a; b] !! 1%nat = Some (single a))
    by (by vm_compute).
  split_and!; [exact H0|exact H1|by vm_compute|].
  apply (mapItems_later_items_far [a; b] 0 1 (single b) (single a) b a H0 H1);
    [lia|done|].
  apply list_elem_of_here.
Defined.

(** X18. A RED zone is never shown as safe: the item that holds it has
    the red marker (an item of its own) or the orange one (a
    cluster). *)
Theorem red_zone_never_shown_green (zones : list MapZone) (z : MapZone) :
  z ∈ zones → zone_type z = RED →
  ∃ it, it ∈ mapItems zones ∧ z ∈ members it
        ∧ (markerColor it = "bg-red-500"%string
           ∨ markerColor it = "bg-orange-600"%string).
Proof.
  intros Hz Hred. rewrite <- (mapItems_partition zones) in Hz.
  apply elem_of_concat in Hz as (ms & Hms & Hz).
  apply list_elem_of_fmap in Hms as (it & -> & Hit).
  exists it. split; [done|]. split; [done|].
  destruct it as [zone|zs cx cy cid]; simpl in *.
  - apply list_elem_of_singleton in Hz as <-. left. by rewrite Hred.
  - right. assert (Hr : hasRed zs = true) by (apply hasRed_true; eauto).
    by rewrite Hr.
Qed.

Lemma red_zone_never_shown_green_witness :
  let a := pin "a" 0 0 in
  let r := mkZone "r" "" "" RED "" (mkCoord 3 4) None in
  r ∈ [a; r] ∧ zone_type r = RED
  ∧ ∃ it, it ∈ mapItems [a; r] ∧ r ∈ members it
          ∧ (markerColor it = "bg-red-500"%string
             ∨ markerColor it = "bg-orange-600"%string).
Proof.
  intros a r.
  assert (Hin : r ∈ [a; r]) by in_list.
  assert (Hred : zone_type r = RED) by done.
  split_and!; [exact Hin|exact Hred|].
  exact (red_zone_never_shown_green [a; r] r Hin Hred).
Defined.

(** X19. The red and the orange marker are shown only for an item that
    holds a RED zone. *)
Theorem warning_marker_has_red_zone (zones : list MapZone) (it : MapItem) :
  it ∈ mapItems zones →
  (markerColor it = "bg-red-500"%string ∨ markerColor it = "bg-orange-600"%string) →
  ∃ z, z ∈ zones ∧ z ∈ members it ∧ zone_type z = RED.
Proof.
  intros Hit Hc.
  assert (Hex : ∃ z, z ∈ members it ∧ zone_type z = RED).
  { destruct it as [zone|zs cx cy cid]; simpl in *.
    - exists zone. split; [by left|].
      destruct (zone_type zone); [done|]. by destruct Hc.
    - apply hasRed_true. destruct (hasRed zs); [done|]. by destruct Hc. }
  destruct Hex as (z & Hz & Hred). exists z. split; [|done].
  by eapply mapItems_members_sub.
Qed.

Lemma warning_marker_has_red_zone_witness :
  let a := pin "a" 0 0 in
  let r := mkZone "r" "" "" RED "" (mkCoord 3 4) None in
  makeItem r [r; a] ∈ mapItems [a; r]
  ∧ markerColor (makeItem r [r; a]) = "bg-orange-600"%string
  ∧ ∃ z, z ∈ [a; r] ∧ z ∈ members (makeItem r [r; a]) ∧ zone_type z = RED.
Proof.
  intros a r.
  assert (Hin : makeItem r [r; a] ∈ mapItems [a; r]).
  { replace (mapItems [a; r]) with [makeItem r [r; a]] by (by vm_compute).
    in_list. }
  assert (Hc : markerColor (makeItem r [r; a]) = "bg-orange-600"%string)
    by done.
  split_and!; [exact Hin|exact Hc|].
  exact (warning_marker_has_red_zone [a; r] _ Hin (or_intror Hc)).
Defined.

(** ** The zone service *)

(** X20. [submitZone] stores the zone last, as a pending submission: the
    map does not change and the pending list gains the submission. *)
Theorem submitZone_adds_pending (zone : NewZone) (idTime submittedTime : Z)
    (st : Storage) :
  getStoredSubmissions (submitZone zone idTime submittedTime st)
  = getStoredSubmissions st ++ [newSubmission zone idTime submittedTime]
  ∧ getActiveZones (submitZone zone idTime submittedTime st) = getActiveZones st
  ∧ getPendingSubmissions (submitZone zone idTime submittedTime st)
    ≡ₚ newSubmission zone idTime submittedTime :: getPendingSubmissions st.
Proof.
  split_and!.
  - done.
  - unfold getActiveZones, submitZone. simpl. rewrite omap_app. simpl.
    by rewrite app_nil_r.
  - unfold getPendingSubmissions, submitZone. simpl.
    rewrite !sortNewestFirst_Permutation, filter_app, filter_cons, filter_nil.
    rewrite decide_True by done. by rewrite <- Permutation_cons_append.
Qed.

(** X21. The active zones are the initial zones and, for every stored
    submission that is approved and has coordinates, its zone. *)
Theorem getActiveZones_members (st : Storage) (z : MapZone) :
  z ∈ getActiveZones st
  ↔ z ∈ INITIAL_ZONES
    ∨ ∃ s c, s ∈ getStoredSubmissions st ∧ status s = APPROVED
             ∧ sub_coordinates s = Some c ∧ z = toZone s c.
Proof.
  unfold getActiveZones. rewrite elem_of_app, list_elem_of_omap.
  split; (intros [?|H]; [by left|right]).
  - destruct H as (s & Hs & Hz). unfold approvedZone in Hz.
    destruct (status s) eqn:Hst; try done.
    destruct (sub_coordinates s) as [c|] eqn:Hc; [|done].
    injection Hz as <-. by exists s, c.
  - destruct H as (s & c & Hs & Hst & Hc & ->). exists s. split; [done|].
    unfold approvedZone. by rewrite Hst, Hc.
Qed.

(** X22. Without a stored item, with one that cannot be read, and after
    a reset, the active zones are the initial zones. *)
Theorem getActiveZones_without_submissions :
  getActiveZones NoItem = INITIAL_ZONES
  ∧ getActiveZones BadItem = INITIAL_ZONES
  ∧ ∀ st, getActiveZones (resetData st) = INITIAL_ZONES.
Proof. split_and!; intros; exact (app_nil_r INITIAL_ZONES). Qed.

(** X23. The pending list holds the stored submissions that are pending,
    each as often as it is stored, newest first: no submission comes
    after an older one. *)
Theorem getPendingSubmissions_newest_first (st : Storage) :
  getPendingSubmissions st ≡ₚ filter isPending (getStoredSubmissions st)
  ∧ ∀ i j a b,
      getPendingSubmissions st !! i = Some a →
      getPendingSubmissions st !! j = Some b →
      (i < j)%nat → submittedAt b ≤ submittedAt a.
Proof.
  destruct (getPendingSubmissions_sorted st) as [Hp Hs]. split; [exact Hp|].
  intros i j a b. by apply newestFirst_lookup.
Qed.

Lemma getPendingSubmissions_newest_first_witness :
  let s1 := mkSubmission "sub_1" "" "n" RED "" PENDING 1 None None in
  let s2 := mkSubmission "sub_2" "" "m" GREEN "" APPROVED 2 None None in
  let s3 := mkSubmission "sub_3" "" "k" GREEN "" PENDING 3 None None in
  getPendingSubmissions (Item [s1; s2; s3]) !! 0%nat = Some s3
  ∧ getPendingSubmissions (Item [s1; s2; s3]) !! 1%nat = Some s1
  ∧ submittedAt s1 ≤ submittedAt s3.
Proof.
  intros s1 s2 s3.
  assert (H0 : getPendingSubmissions (Item [s1; s2; s3]) !! 0%nat = Some s3)
    by done.
  assert (H1 : getPendingSubmissions (Item [s1; s2; s3]) !! 1%nat = Some s1)
    by done.
  split_and!; [exact H0|exact H1|].
  destruct (getPendingSubmissions_newest_first (Item [s1; s2; s3])) as [_ H].
  apply (H 0%nat 1%nat s3 s1 H0 H1). lia.
Defined.

(** X24. Moderating an id that no stored submission bears changes
    nothing. *)
Theorem moderateSubmission_absent_id (id : string) (action : ModerationAction)
    (st : Storage) :
  (∀ s, s ∈ getStoredSubmissions st → sub_id s ≠ id) →
  moderateSubmission id action st = st.
Proof. apply moderateSubmission_unknown. Qed.

Lemma moderateSubmission_absent_id_witness :
  let s1 := mkSubmission "sub_1" "" "n" RED "" PENDING 1 None None in
  (∀ s, s ∈ getStoredSubmissions (Item [s1]) → sub_id s ≠ "sub_2"%string)
  ∧ moderateSubmission "sub_2" APPROVE (Item [s1]) = Item [s1].
Proof.
  intros s1.
  assert (Hno : ∀ s, s ∈ getStoredSubmissions (Item [s1])
                     → sub_id s ≠ "sub_2"%string).
  { intros s Hs. apply list_elem_of_singleton in Hs as ->. done. }
  split; [exact Hno|].
  exact (moderateSubmission_absent_id "sub_2" APPROVE (Item [s1]) Hno).
Defined.

(** X25. Moderation gives the new status to the first stored submission
    that bears the id and keeps every other submission, also later ones
    of the same id. *)
Theorem moderateSubmission_first_match (id : string) (action : ModerationAction)
    (st : Storage) (l1 : list ZoneSubmission) (s : ZoneSubmission)
    (l2 : list ZoneSubmission) :
  getStoredSubmissions st = l1 ++ s :: l2 →
  (∀ t, t ∈ l1 → sub_id t ≠ id) → sub_id s = id →
  moderateSubmission id action st
  = Item (l1 ++ withStatus (statusOf action) s :: l2).
Proof. apply moderateSubmission_first. Qed.

Lemma moderateSubmission_first_match_witness :
  let s1 := mkSubmission "sub_1" "" "n" RED "" PENDING 1 None None in
  let s2 := mkSubmission "sub_2" "" "m" GREEN "" PENDING 2 None None in
  let s3 := mkSubmission "sub_2" "" "k" GREEN "" PENDING 3 None None in
  getStoredSubmissions (Item [s1; s2; s3]) = [s1] ++ s2 :: [s3]
  ∧ (∀ t, t ∈ [s1] → sub_id t ≠ "sub_2"%string)
  ∧ sub_id s2 = "sub_2"%string
  ∧ moderateSubmission "sub_2" REJECT (Item [s1; s2; s3])
    = Item [s1; withStatus REJECTED s2; s3].
Proof.
  intros s1 s2 s3.
  assert (Hst : getStoredSubmissions (Item [s1; s2; s3]) = [s1] ++ s2 :: [s3])
    by done.
  assert (Hl1 : ∀ t, t ∈ [s1] → sub_id t ≠ "sub_2"%string).
  { intros t Ht. apply list_elem_of_singleton in Ht as ->. done. }
  assert (Hs : sub_id s2 = "sub_2"%string) by done.
  split_and!; [exact Hst|exact Hl1|exact Hs|].
  exact (moderateSubmission_first_match "sub_2" REJECT (Item [s1; s2; s3])
           [s1] s2 [s3] Hst Hl1 Hs).
Defined.

(** X26. Moderation is not final: moderating an id again gives what the
    second action alone gives. *)
Theorem moderateSubmission_last_wins (id : string) (a1 a2 : ModerationAction)
    (st : Storage) :
  moderateSubmission id a2 (moderateSubmission id a1 st)
  = moderateSubmission id a2 st.
Proof.
  destruct (list_find (fun s => sub_id s = id) (getStoredSubmissions st))
    as [[i s]|] eqn:Hf.
  - apply list_find_split in Hf as (l1 & l2 & Hst & _ & Hl1 & Hs).
    rewrite (moderateSubmission_first id a1 st l1 s l2 Hst Hl1 Hs).
    rewrite (moderateSubmission_first id a2 st l1 s l2 Hst Hl1 Hs).
    by rewrite (moderateSubmission_first id a2
                  (Item (l1 ++ withStatus (statusOf a1) s :: l2)) l1
                  (withStatus (statusOf a1) s) l2 eq_refl Hl1 Hs).
  - assert (Hno : ∀ s, s ∈ getStoredSubmissions st → sub_id s ≠ id).
    { apply list_find_None in Hf. by rewrite Forall_forall in Hf. }
    by rewrite (moderateSubmission_unknown id a1 st Hno).
Qed.

(** X27. A submitted zone with coordinates whose id no earlier
    submission bears is, once approved, the last of the active zones,
    as a user zone with the data of the submission. *)
Theorem submitted_zone_shown_after_approval (zone : NewZone)
    (idTime submittedTime : Z) (st : Storage) (c : Coordinates) :
  (∀ s, s ∈ getStoredSubmissions st
        → sub_id s ≠ ("sub_" ++ numToString idTime)%string) →
  new_coordinates zone = Some c →
  getActiveZones
    (moderateSubmission ("sub_" ++ numToString idTime) APPROVE
                        (submitZone zone idTime submittedTime st))
  = getActiveZones st
      ++ [mkZone ("sub_" ++ numToString idTime)
                 (orText (Some (new_city zone)) "厦门")
                 (new_name zone) (new_type zone) (new_description zone) c
                 (Some true)].
Proof.
  intros Hfresh Hc.
  rewrite (moderateSubmission_first _ APPROVE _ (getStoredSubmissions st)
             (newSubmission zone idTime submittedTime) []); [|done|done|done].
  unfold getActiveZones.
  change (getStoredSubmissions (Item ?l)) with l.
  rewrite omap_app, app_assoc. f_equal.
  unfold approvedZone, toZone, newSubmission, withStatus; cbn -[numToString].
  by rewrite Hc.
Qed.

Lemma submitted_zone_shown_after_approval_witness :
  let s1 := mkSubmission "sub_1" "" "n" RED "" PENDING 1 None None in
  let zone := mkNewZone "" "m" GREEN "d" None (Some (mkCoord 10 20)) in
  (∀ s, s ∈ getStoredSubmissions (Item [s1])
        → sub_id s ≠ ("sub_" ++ numToString 2)%string)
  ∧ new_coordinates zone = Some (mkCoord 10 20)
  ∧ getActiveZones
      (moderateSubmission ("sub_" ++ numToString 2) APPROVE
                          (submitZone zone 2 3 (Item [s1])))
    = getActiveZones (Item [s1])
        ++ [mkZone "sub_2" "厦门" "m" GREEN "d" (mkCoord 10 20) (Some true)].
Proof.
  intros s1 zone.
  assert (Hno : ∀ s, s ∈ getStoredSubmissions (Item [s1])
                     → sub_id s ≠ ("sub_" ++ numToString 2)%string).
  { intros s Hs. apply list_elem_of_singleton in Hs as ->. done. }
  assert (Hc : new_coordinates zone = Some (mkCoord 10 20)) by done.
  split_and!; [exact Hno|exact Hc|].
  exact (submitted_zone_shown_after_approval zone 2 3 (Item [s1]) _ Hno Hc).
Defined.

(** X28. Rejected instead, the submitted zone does not reach the map:
    the active zones are those before the submission. *)
Theorem submitted_zone_hidden_after_rejection (zone : NewZone)
    (idTime submittedTime : Z) (st : Storage) :
  (∀ s, s ∈ getStoredSubmissions st
        → sub_id s ≠ ("sub_" ++ numToString idTime)%string) →
  getActiveZones
    (moderateSubmission ("sub_" ++ numToString idTime) REJECT
                        (submitZone zone idTime submittedTime st))
  = getActiveZones st.
Proof.
  intros Hfresh.
  rewrite (moderateSubmission_first _ REJECT _ (getStoredSubmissions st)
             (newSubmission zone idTime submittedTime) []); [|done|done|done].
  unfold getActiveZones.
  change (getStoredSubmissions (Item ?l)) with l.
  rewrite omap_app.
  change (omap approvedZone [withStatus (statusOf REJECT)
            (newSubmission zone idTime submittedTime)]) with (@nil MapZone).
  by rewrite app_nil_r.
Qed.

Lemma submitted_zone_hidden_after_rejection_witness :
  let s1 := mkSubmission "sub_1" "" "n" RED "" PENDING 1 None None in
  let zone := mkNewZone "" "m" GREEN "d" None (Some (mkCoord 10 20)) in
  (∀ s, s ∈ getStoredSubmissions (Item [s1])
        → sub_id s ≠ ("sub_" ++ numToString 2)%string)
  ∧ getActiveZones
      (moderateSubmission ("sub_" ++ numToString 2) REJECT
                          (submitZone zone 2 3 (Item [s1])))
    = getActiveZones (Item [s1]).
Proof.
  intros s1 zone.
  assert (Hno : ∀ s, s ∈ getStoredSubmissions (Item [s1])
                     → sub_id s ≠ ("sub_" ++ numToString 2)%string).
  { intros s Hs. apply list_elem_of_singleton in Hs as ->. done. }
  split; [exact Hno|].
  exact (submitted_zone_hidden_after_rejection zone 2 3 (Item [s1]) Hno).
Defined.

(** X29. When the stored ids are pairwise distinct, a moderated
    submission leaves the pending list, and the other pending
    submissions keep their order. *)
Theorem moderated_submission_leaves_pending (id : string)
    (action : ModerationAction) (st : Storage) :
  NoDup (sub_id <$> getStoredSubmissions st) →
  getPendingSubmissions (moderateSubmission id action st)
  = filter (fun s => sub_id s ≠ id) (getPendingSubmissions st).
Proof.
  intros Hnd. unfold getPendingSubmissions at 2.
  rewrite sortNewestFirst_filter. unfold getPendingSubmissions. f_equal.
  destruct (list_find (fun s => sub_id s = id) (getStoredSubmissions st))
    as [[i s]|] eqn:Hf.
  - apply list_find_split in Hf as (l1 & l2 & Hst & _ & Hl1 & Hs).
    rewrite (moderateSubmission_first id action st l1 s l2 Hst Hl1 Hs).
    rewrite Hst in *. simpl.
    rewrite fmap_app, fmap_cons in Hnd.
    apply NoDup_app in Hnd as (_ & _ & Hnd). apply NoDup_cons in Hnd as [Hs2 _].
    assert (Hl2 : ∀ t, t ∈ l2 → sub_id t ≠ id).
    { intros t Ht Heq. apply Hs2. rewrite Hs, <- Heq. by apply list_elem_of_fmap_2. }
    rewrite !filter_app, !filter_cons.
    rewrite (decide_False (P := isPending (withStatus _ _)))
      by (unfold isPending; simpl; by destruct action).
    assert (Hkeep : ∀ k : list ZoneSubmission, (∀ t, t ∈ k → sub_id t ≠ id) →
              filter (fun s => sub_id s ≠ id) (filter isPending k)
              = filter isPending k).
    { intros k Hk. apply filter_all. intros t Ht.
      apply list_elem_of_filter in Ht as [_ Ht]. by apply Hk. }
    destruct (decide (isPending s)).
    + rewrite filter_cons, decide_False by (intros Hne; by apply Hne).
      by rewrite (Hkeep l1 Hl1), (Hkeep l2 Hl2).
    + by rewrite (Hkeep l1 Hl1), (Hkeep l2 Hl2).
  - assert (Hno : ∀ s, s ∈ getStoredSubmissions st → sub_id s ≠ id).
    { apply list_find_None in Hf. by rewrite Forall_forall in Hf. }
    rewrite (moderateSubmission_unknown id action st Hno).
    symmetry. apply filter_all. intros t Ht.
    apply list_elem_of_filter in Ht as [_ Ht]. by apply Hno.
Qed.

Lemma moderated_submission_leaves_pending_witness :
  let s1 := mkSubmission "sub_1" "" "n" RED "" PENDING 1 None None in
  let s2 := mkSubmission "sub_2" "" "m" GREEN "" PENDING 2 None None in
  let s3 := mkSubmission "sub_3" "" "k" GREEN "" PENDING 3 None None in
  NoDup (sub_id <$> getStoredSubmissions (Item [s1; s2; s3]))
  ∧ getPendingSubmissions (Item [s1; s2; s3]) = [s3; s2; s1]
  ∧ getPendingSubmissions (moderateSubmission "sub_2" APPROVE (Item [s1; s2; s3]))
    = filter (fun s => sub_id s ≠ "sub_2"%string) [s3; s2; s1].
Proof.
  intros s1 s2 s3.
  assert (Hnd : NoDup (sub_id <$> getStoredSubmissions (Item [s1; s2; s3])))
    by by_decide.
  split_and!; [exact Hnd|done|].
  exact (moderated_submission_leaves_pending "sub_2" APPROVE
           (Item [s1; s2; s3]) Hnd).
Defined.
